(** * proto2django: a shallow embedding of [main.go] and its properties

    The program reads a [.proto] file, extracts message blocks and field
    declarations with two regular expressions, maps every field type to a
    Django model field, and renders six [text/template] templates plus
    three static files into an output directory.

    Layout of this development:
    - bytes, strings and the Go library functions the program calls
      ([strings.ToLower], [strings.TrimSpace], [filepath.Base],
      [filepath.Join]), on the Unix build of the program;
    - a leftmost-first regular-expression matcher (the semantics of Go's
      [regexp] package) and [FindAllStringSubmatch];
    - a lexer, parser and executor for the fragment of [text/template]
      that the six template constants use;
    - the operating system as an oracle plus a file store and an event log;
    - [PythonType], [ParseProto], [renderToFile], [writeFile], [GenerateApp];
    - the theorems.

    Go strings are byte sequences; [string] (a list of 8-bit [ascii]) is
    used for them throughout. *)

From Stdlib Require Import String Ascii List Arith Lia Bool.
From stdpp Require Import base gmap strings list.
Import ListNotations.
Open Scope string_scope.
Open Scope list_scope.
Open Scope nat_scope.

Set Default Proof Using "Type".
Set Warnings "-register-all".

(** stdpp keeps [String.append] folded; the proofs below compute with it. *)
Arguments String.append !s1 s2 : simpl nomatch.

(** ** Bytes and character classes *)

Definition byte_in (lo hi : nat) (c : ascii) : bool :=
  (lo <=? nat_of_ascii c) && (nat_of_ascii c <=? hi).

Definition is_digit (c : ascii) : bool := byte_in 48 57 c.
Definition is_upper (c : ascii) : bool := byte_in 65 90 c.
Definition is_lower (c : ascii) : bool := byte_in 97 122 c.

(** [\w] of RE2: [[0-9A-Za-z_]]. *)
Definition is_word (c : ascii) : bool :=
  is_digit c || is_upper c || is_lower c || Ascii.eqb c "_".

(** [\s] of RE2: [[\t\n\f\r ]] (no vertical tab). *)
Definition is_space (c : ascii) : bool :=
  let n := nat_of_ascii c in
  (n =? 9) || (n =? 10) || (n =? 12) || (n =? 13) || (n =? 32).

(** [utf8.RuneSelf]: bytes below 0x80 are single-byte runes. *)
Definition is_ascii (c : ascii) : bool := nat_of_ascii c <? 128.

Fixpoint forallb_string (p : ascii -> bool) (s : string) : bool :=
  match s with
  | EmptyString => true
  | String c s' => p c && forallb_string p s'
  end.

Fixpoint map_string (f : ascii -> ascii) (s : string) : string :=
  match s with
  | EmptyString => EmptyString
  | String c s' => String (f c) (map_string f s')
  end.

Fixpoint rev_string_onto (s acc : string) : string :=
  match s with
  | EmptyString => acc
  | String c s' => rev_string_onto s' (String c acc)
  end.

Definition rev_string (s : string) : string := rev_string_onto s EmptyString.

Fixpoint drop_while (p : ascii -> bool) (s : string) : string :=
  match s with
  | EmptyString => EmptyString
  | String c s' => if p c then drop_while p s' else s
  end.

Fixpoint take_while (p : ascii -> bool) (s : string) : string :=
  match s with
  | EmptyString => EmptyString
  | String c s' => if p c then String c (take_while p s') else EmptyString
  end.

Definition is_empty (s : string) : bool :=
  match s with
  | EmptyString => true
  | String _ _ => false
  end.

(** [s[a:b]] for [a <= b <= len(s)]. *)
Definition slice (s : string) (a b : nat) : string := substring a (b - a) s.

(** The first [n] bytes of [s], all of [s] when it has fewer. *)
Fixpoint take_bytes (n : nat) (s : string) : string :=
  match n, s with
  | S n', String c s' => String c (take_bytes n' s')
  | _, _ => EmptyString
  end.

Definition concat_strings (l : list string) : string :=
  fold_right String.append EmptyString l.

(** [contains s sub]: [sub] occurs in [s] as a contiguous run of bytes. *)
Definition contains (s sub : string) : Prop :=
  exists pre post, s = pre +:+ sub +:+ post.

(** ** Go errors

    An [error] is either a primitive one (raised by the operating system or
    by a library) or one made by [fmt.Errorf("<prefix>%w", cause)]. *)

Inductive error : Type :=
| Errno (msg : string)
| Errorf (prefix : string) (cause : error).

Fixpoint Error (e : error) : string :=
  match e with
  | Errno m => m
  | Errorf p c => p +:+ Error c
  end.

(** [errors.Is]-style chain membership: [wraps e c] when [c] is [e] or is
    reachable from [e] by unwrapping. *)
Fixpoint wraps (e c : error) : Prop :=
  e = c \/ match e with
           | Errno _ => False
           | Errorf _ e' => wraps e' c
           end.

(** ** PythonType (main.go, lines 54-67) *)

Definition PythonType (protoType : string) : string :=
  if (protoType =? "int32")%string || (protoType =? "int64")%string then
    "models.IntegerField()"
  else if (protoType =? "string")%string then
    "models.CharField(max_length=255)"
  else if (protoType =? "bool")%string then
    "models.BooleanField()"
  else if (protoType =? "float")%string || (protoType =? "double")%string then
    "models.FloatField()"
  else
    "models.ForeignKey(" +:+ protoType +:+ ", on_delete=models.CASCADE)".

(** The scalar keywords of the switch. *)
Definition scalar_types : list string :=
  ["int32"; "int64"; "string"; "bool"; "float"; "double"].

(** ** Regular expressions with Go's leftmost-first semantics

    Go's [regexp] package implements RE2 syntax and prefers, among the
    matches that start at the leftmost possible position, the one a
    backtracking engine would find first.  [run] enumerates, in that
    priority order, every way a pattern can match a prefix of the
    remaining input; the head of the enumeration is the match Go reports.

    The two patterns of the program use only ASCII literals, the Perl
    classes [\s], [\w], [\d], one negated single-character class, greedy
    [?], [*], [+] and capture groups.  On such patterns matching UTF-8
    decoded runes and matching bytes coincide: every byte of a multi-byte
    rune is >= 0x80, so it is in none of the three Perl classes and it is
    different from the ASCII byte of the negated class.  The flag [(?m)]
    only changes [^] and [$], which do not occur. *)

Inductive cclass : Type :=
| CSpace                (* \s *)
| CWord                 (* \w *)
| CDigit                (* \d *)
| CNot (c : ascii).     (* [^c] *)

Definition cclass_mem (k : cclass) (c : ascii) : bool :=
  match k with
  | CSpace => is_space c
  | CWord => is_word c
  | CDigit => is_digit c
  | CNot x => negb (Ascii.eqb c x)
  end.

Inductive regex : Type :=
| Eps
| Lit (c : ascii)
| Cls (k : cclass)
| Cat (a b : regex)
| Quest (a : regex)          (* a?  greedy *)
| Star (a : regex)           (* a*  greedy *)
| Plus (a : regex)           (* a+  greedy *)
| Group (i : nat) (a : regex).

(** A literal string, as a concatenation of literal bytes. *)
Fixpoint lits (s : string) : regex :=
  match s with
  | EmptyString => Eps
  | String c s' => Cat (Lit c) (lits s')
  end.

(** Matcher state: the offset reached in the subject, the input that
    remains, and the capture registers (most recent binding first). *)
Record mstate : Type := MState {
  m_pos : nat;
  m_rest : string;
  m_caps : list (nat * (nat * nat))
}.

Definition step_byte (p : ascii -> bool) (st : mstate) : list mstate :=
  match m_rest st with
  | String c s' =>
      if p c then [MState (S (m_pos st)) s' (m_caps st)] else []
  | EmptyString => []
  end.

(** Greedy iteration of [body]: as many rounds as possible first, each
    round consuming at least one byte; [fuel] bounds the number of rounds
    and is taken to be the length of the remaining input. *)
Fixpoint iterate (body : mstate -> list mstate) (fuel : nat) (st : mstate)
  : list mstate :=
  match fuel with
  | 0 => [st]
  | S fuel' =>
      flat_map (fun st' =>
                  if m_pos st <? m_pos st' then iterate body fuel' st' else [])
               (body st)
      ++ [st]
  end.

Fixpoint run (r : regex) (st : mstate) : list mstate :=
  match r with
  | Eps => [st]
  | Lit c => step_byte (Ascii.eqb c) st
  | Cls k => step_byte (cclass_mem k) st
  | Cat a b => flat_map (run b) (run a st)
  | Quest a => run a st ++ [st]
  | Star a => iterate (run a) (String.length (m_rest st)) st
  | Plus a =>
      flat_map (fun st' => iterate (run a) (String.length (m_rest st')) st')
               (run a st)
  | Group i a =>
      map (fun st' =>
             MState (m_pos st') (m_rest st')
                    ((i, (m_pos st, m_pos st')) :: m_caps st'))
          (run a st)
  end.

(** The match anchored at offset [pos], where [s] is the subject from
    [pos] on: end offset and capture registers of the preferred match. *)
Definition exec_at (re : regex) (pos : nat) (s : string)
  : option (nat * list (nat * (nat * nat))) :=
  match run re (MState pos s []) with
  | st :: _ => Some (m_pos st, m_caps st)
  | [] => None
  end.

Fixpoint cap_get (i : nat) (caps : list (nat * (nat * nat)))
  : option (nat * nat) :=
  match caps with
  | [] => None
  | (j, span) :: caps' => if i =? j then Some span else cap_get i caps'
  end.

(** Number of capture groups (groups are numbered from 1). *)
Fixpoint num_cap (r : regex) : nat :=
  match r with
  | Eps | Lit _ | Cls _ => 0
  | Cat a b => Nat.max (num_cap a) (num_cap b)
  | Quest a | Star a | Plus a => num_cap a
  | Group i a => Nat.max i (num_cap a)
  end.

(** [nullable r]: the pattern [r] can match the empty string. *)
Fixpoint nullable (r : regex) : bool :=
  match r with
  | Eps => true
  | Lit _ | Cls _ => false
  | Cat a b => nullable a && nullable b
  | Quest _ | Star _ => true
  | Plus a => nullable a
  | Group _ a => nullable a
  end.

(** One match as Go's [FindSubmatchIndex] reports it: the span of the whole
    match followed by the span of every group, [None] for a group that
    did not take part (Go's [-1]). *)
Definition submatch_index : Type := list (option (nat * nat)).

Definition mk_submatch (re : regex) (start stop : nat)
    (caps : list (nat * (nat * nat))) : submatch_index :=
  Some (start, stop) :: map (fun i => cap_get i caps) (seq 1 (num_cap re)).

(** [regexp.allMatches] with [n = -1]: successive non-overlapping matches,
    each the leftmost-first match at or after the end of the previous
    one; an empty match adjacent to the previous match is dropped, and the
    search resumes one position after an empty match.

    [s] is the subject from offset [pos] on, [skip] the number of bytes
    still covered by the previous match, [prev] the end of the previous
    match.  (Go steps over one rune after an empty match, this function
    over one byte; neither pattern of the program has an empty match, see
    [messageRe_nonempty] and [fieldRe_nonempty].) *)
Fixpoint scan (re : regex) (s : string) (pos skip : nat) (prev : option nat)
  : list submatch_index :=
  match skip with
  | S skip' =>
      match s with
      | String _ s' => scan re s' (S pos) skip' prev
      | EmptyString => []
      end
  | 0 =>
      match exec_at re pos s with
      | Some (stop, caps) =>
          let rest :=
            match s with
            | String _ s' => scan re s' (S pos) (stop - pos - 1) (Some stop)
            | EmptyString => []
            end in
          if (stop =? pos) && bool_decide (prev = Some pos) then rest
          else mk_submatch re pos stop caps :: rest
      | None =>
          match s with
          | String _ s' => scan re s' (S pos) 0 prev
          | EmptyString => []
          end
      end
  end.

Definition FindAllStringSubmatchIndex (re : regex) (text : string)
  : list submatch_index :=
  scan re text 0 0 None.

Definition submatch_string (text : string) (o : option (nat * nat)) : string :=
  match o with
  | Some (a, b) => slice text a b
  | None => EmptyString
  end.

Definition FindAllStringSubmatch (re : regex) (text : string)
  : list (list string) :=
  map (map (submatch_string text)) (FindAllStringSubmatchIndex re text).

(** [messageRe], the pattern [(?m)message\s+(\w+)\s*{([^}]* )}] (written
    here with a blank before the last parenthesis; the source has none). *)
Definition messageRe : regex :=
  Cat (lits "message")
  (Cat (Plus (Cls CSpace))
  (Cat (Group 1 (Plus (Cls CWord)))
  (Cat (Star (Cls CSpace))
  (Cat (Lit "{")
  (Cat (Group 2 (Star (Cls (CNot "}"))))
       (Lit "}")))))).

(** [fieldRe]: [(?m)(repeated\s+)?(\w+)\s+(\w+)\s*=\s*\d+] *)
Definition fieldRe : regex :=
  Cat (Quest (Group 1 (Cat (lits "repeated") (Plus (Cls CSpace)))))
  (Cat (Group 2 (Plus (Cls CWord)))
  (Cat (Plus (Cls CSpace))
  (Cat (Group 3 (Plus (Cls CWord)))
  (Cat (Star (Cls CSpace))
  (Cat (Lit "=")
  (Cat (Star (Cls CSpace))
       (Plus (Cls CDigit)))))))).

Definition nl : string := String (ascii_of_nat 10) EmptyString.

(** ** The Go library functions the program calls (Unix build) *)

(** *** path/filepath *)

Definition Separator : ascii := "/".

Definition is_sep (c : ascii) : bool := Ascii.eqb c Separator.

(** [filepath.Base]: strip the trailing separators, keep what follows the
    last remaining separator; ["."] for the empty path, ["/"] for a path
    of separators only. *)
Definition Base (path : string) : string :=
  if is_empty path then "."
  else
    let stripped := drop_while is_sep (rev_string path) in
    let last := rev_string (take_while (fun c => negb (is_sep c)) stripped) in
    if is_empty last then String Separator EmptyString else last.

(** [strings.Split(s, "/")]. *)
Fixpoint split_path (s : string) : list string :=
  match s with
  | EmptyString => [EmptyString]
  | String c s' =>
      if is_sep c then EmptyString :: split_path s'
      else match split_path s' with
           | x :: xs => String c x :: xs
           | [] => [String c EmptyString]
           end
  end.

(** [strings.Join(elems, "/")]. *)
Fixpoint join_path (elems : list string) : string :=
  match elems with
  | [] => EmptyString
  | [e] => e
  | e :: rest => e +:+ String Separator (join_path rest)
  end.

(** One path element of [filepath.Clean]'s loop; [stack] is the output
    written so far, innermost element first. Empty elements and [.] are
    dropped; [..] removes the element before it when there is one that is
    not itself [..], is dropped at the root, and is kept otherwise. *)
Definition clean_step (rooted : bool) (stack : list string) (elem : string)
  : list string :=
  if is_empty elem || (elem =? ".")%string then stack
  else if (elem =? "..")%string then
    match stack with
    | top :: below => if (top =? "..")%string then elem :: stack else below
    | [] => if rooted then [] else [elem]
    end
  else elem :: stack.

Definition Clean (path : string) : string :=
  match path with
  | EmptyString => "."
  | String c _ =>
      let rooted := is_sep c in
      let stack := fold_left (clean_step rooted) (split_path path) [] in
      let body := join_path (rev stack) in
      if rooted then String Separator body
      else if is_empty body then "." else body
  end.

(** [filepath.Join]: leading empty elements are ignored, the rest is
    joined with the separator and cleaned; no element at all gives the empty path. *)
Fixpoint Join (elem : list string) : string :=
  match elem with
  | [] => EmptyString
  | e :: rest =>
      if is_empty e then Join rest else Clean (join_path elem)
  end.

(** *** strings *)

Definition lower_byte (c : ascii) : ascii :=
  if is_upper c then ascii_of_nat (nat_of_ascii c + 32) else c.

(** The table [asciiSpace] of package [strings]. *)
Definition asciiSpace (c : ascii) : bool :=
  let n := nat_of_ascii c in
  (n =? 9) || (n =? 10) || (n =? 11) || (n =? 12) || (n =? 13) || (n =? 32).

(** The scanning loop shared by both ends of [strings.TrimSpace]: skip
    ASCII white space; [inl rest] when a byte >= 0x80 is met at [rest],
    [inr rest] when the scan stops at an ASCII byte or at the end. *)
Fixpoint trim_ascii_space (s : string) : string + string :=
  match s with
  | EmptyString => inr EmptyString
  | String c s' =>
      if negb (is_ascii c) then inl s
      else if asciiSpace c then trim_ascii_space s'
      else inr s
  end.

Section Program.

(** Library functions that work on decoded Unicode text.  The program
    only depends on them through the calls below, so they are parameters
    of the development:
    - [caser_String] is [cases.Title(language.English).String];
    - [unicode_ToLower] is [strings.Map(unicode.ToLower, s)];
    - [unicode_TrimSpace] is [strings.TrimFunc(s, unicode.IsSpace)];
    - [unicode_TrimRightSpace] is [strings.TrimRightFunc(s, unicode.IsSpace)]. *)
Variable caser_String : string -> string.
Variable unicode_ToLower : string -> string.
Variable unicode_TrimSpace : string -> string.
Variable unicode_TrimRightSpace : string -> string.

(** [strings.ToLower]: ASCII-only strings are lowered byte by byte, any
    other string goes through the Unicode mapping. *)
Definition ToLower (s : string) : string :=
  if forallb_string is_ascii s then map_string lower_byte s
  else unicode_ToLower s.

(** [strings.TrimSpace]: the ASCII fast path from both ends, falling back
    to the Unicode-aware trimming on the first byte >= 0x80. *)
Definition TrimSpace (s : string) : string :=
  match trim_ascii_space s with
  | inl rest => unicode_TrimSpace rest
  | inr s1 =>
      match trim_ascii_space (rev_string s1) with
      | inl r => unicode_TrimRightSpace (rev_string r)
      | inr r => rev_string r
      end
  end.


(** ** text/template

    The fragment of Go's [text/template] that the six template constants
    use: text, the delimiters with their trim markers, the actions
    [if], [range], [else], [end] and pipelines made of field chains, the dot
    and calls of the functions [not] (a builtin) and [ToLower] (from
    [funcMap]).  Anything else is reported as an error that says so. *)

(** *** Lexer *)

Inductive item : Type :=
| ItemText (text : string)
| ItemAction (body : string).

(** White space for trim markers and inside actions: [" \t\r\n"]. *)
Definition isSpace (c : ascii) : bool :=
  let n := nat_of_ascii c in
  (n =? 32) || (n =? 9) || (n =? 13) || (n =? 10).

Inductive lex_mode : Type :=
| InText (trim_leading : bool)
| InAction.

Definition emit_text (text : string) (rest : error + list item)
  : error + list item :=
  match rest with
  | inl e => inl e
  | inr items =>
      if is_empty text then inr items else inr (ItemText text :: items)
  end.

Definition emit_action (body : string) (rest : error + list item)
  : error + list item :=
  match rest with
  | inl e => inl e
  | inr items => inr (ItemAction body :: items)
  end.

(** [lex s mode acc]: [acc] holds, in reverse, the bytes of the text or
    action being read.  In text, a left delimiter followed by the marker
    [-] and a space trims the white space that ends the text before it; in
    an action, a space and [-] before the right delimiter trim the white
    space that starts the text after it. *)
Fixpoint lex (s : string) (mode : lex_mode) (acc : string)
  : error + list item :=
  match mode with
  | InText trim_leading =>
      match s with
      | EmptyString => emit_text (rev_string acc) (inr [])
      | String "{" (String "{" rest) =>
          match rest with
          | String "-" (String c rest') =>
              if isSpace c then
                emit_text (rev_string (drop_while isSpace acc))
                          (lex rest' InAction EmptyString)
              else emit_text (rev_string acc) (lex rest InAction EmptyString)
          | _ => emit_text (rev_string acc) (lex rest InAction EmptyString)
          end
      | String c s' =>
          if trim_leading && isSpace c then lex s' (InText true) acc
          else lex s' (InText false) (String c acc)
      end
  | InAction =>
      match s with
      | EmptyString => inl (Errno "template: unclosed action")
      | String "}" (String "}" rest) =>
          emit_action (rev_string acc) (lex rest (InText false) EmptyString)
      | String c s' =>
          match s' with
          | String "-" (String "}" (String "}" rest)) =>
              if isSpace c then
                emit_action (rev_string acc) (lex rest (InText true) EmptyString)
              else lex s' InAction (String c acc)
          | _ => lex s' InAction (String c acc)
          end
      end
  end.

(** The tokens of an action: maximal runs of bytes other than white
    space, with the pipe symbol a token of its own. *)
Definition flush_token (cur : string) (rest : list string) : list string :=
  if is_empty cur then rest else rev_string cur :: rest.

Fixpoint tokenize (s : string) (cur : string) : list string :=
  match s with
  | EmptyString => flush_token cur []
  | String c s' =>
      if isSpace c then flush_token cur (tokenize s' EmptyString)
      else if Ascii.eqb c "|" then
        flush_token cur ("|" :: tokenize s' EmptyString)
      else tokenize s' (String c cur)
  end.

(** *** Parse tree *)

Inductive operand : Type :=
| ODot                                (* .            *)
| OField (chain : list string)        (* .A.B         *)
| OIdent (name : string).             (* a function   *)

Definition command : Type := list operand.
Definition pipeline : Type := list command.

Inductive node : Type :=
| TextNode (text : string)
| ActionNode (pipe : pipeline)
| IfNode (pipe : pipeline) (list_ else_ : list node)
| RangeNode (pipe : pipeline) (list_ else_ : list node).

(** The functions known at parse time: the builtin [not] and the entry
    of [funcMap] (main.go, lines 172-174). *)
Definition funcMap_names : list string := ["ToLower"].
Definition builtin_names : list string :=
  ["and"; "call"; "html"; "index"; "slice"; "js"; "len"; "not"; "or";
   "print"; "printf"; "println"; "urlquery";
   "eq"; "ge"; "gt"; "le"; "lt"; "ne"].

Definition in_strings (s : string) (l : list string) : bool :=
  existsb (String.eqb s) l.

Definition unsupported (what : string) : error :=
  Errno ("outside the modelled fragment of text/template: " +:+ what).

Definition is_ident_start (c : ascii) : bool :=
  is_upper c || is_lower c || Ascii.eqb c "_".

Definition is_identifier (s : string) : bool :=
  match s with
  | EmptyString => false
  | String c s' => is_ident_start c && forallb_string is_word s'
  end.

(** Split a field chain [A.B.C] (the leading dot already removed). *)
Fixpoint split_dots (s : string) : list string :=
  match s with
  | EmptyString => [EmptyString]
  | String c s' =>
      if Ascii.eqb c "." then EmptyString :: split_dots s'
      else match split_dots s' with
           | x :: xs => String c x :: xs
           | [] => [String c EmptyString]
           end
  end.

Definition parse_operand (tok : string) : error + operand :=
  match tok with
  | String "." EmptyString => inr ODot
  | String "." chain =>
      let names := split_dots chain in
      if forallb is_identifier names then inr (OField names)
      else inl (unsupported tok)
  | _ =>
      if is_identifier tok then
        if (tok =? "not")%string || in_strings tok funcMap_names then
          inr (OIdent tok)
        else if in_strings tok builtin_names then inl (unsupported tok)
        else inl (Errno ("template: function " +:+ tok +:+ " not defined"))
      else inl (unsupported tok)
  end.

Fixpoint parse_operands (toks : list string) : error + list operand :=
  match toks with
  | [] => inr []
  | t :: rest =>
      match parse_operand t with
      | inl e => inl e
      | inr o =>
          match parse_operands rest with
          | inl e => inl e
          | inr os => inr (o :: os)
          end
      end
  end.

(** Split the tokens of a pipeline at the pipe symbols. *)
Fixpoint split_pipes (toks : list string) : list (list string) :=
  match toks with
  | [] => [[]]
  | t :: rest =>
      if (t =? "|")%string then [] :: split_pipes rest
      else match split_pipes rest with
           | x :: xs => (t :: x) :: xs
           | [] => [[t]]
           end
  end.

Definition parse_command (first : bool) (toks : list string)
  : error + command :=
  match parse_operands toks with
  | inl e => inl e
  | inr [] => inl (Errno "template: missing value for command")
  | inr (ODot :: args) =>
      if first then inr (ODot :: args)
      else inl (Errno "template: non executable command in pipeline")
  | inr cmd => inr cmd
  end.

Fixpoint parse_commands (first : bool) (stages : list (list string))
  : error + pipeline :=
  match stages with
  | [] => inr []
  | toks :: rest =>
      match parse_command first toks with
      | inl e => inl e
      | inr cmd =>
          match parse_commands false rest with
          | inl e => inl e
          | inr cmds => inr (cmd :: cmds)
          end
      end
  end.

Definition parse_pipeline (toks : list string) : error + pipeline :=
  parse_commands true (split_pipes toks).

(** *** Parser

    A control action opens a frame that remembers the nodes read so far
    in the enclosing list; [else] closes the first branch, [end] closes the
    frame and appends the finished node to the enclosing list. *)

Inductive block_kind : Type := KIf | KRange.

Record frame : Type := Frame {
  f_kind : block_kind;
  f_pipe : pipeline;
  f_list : option (list node);   (* the first branch, once [else] is read *)
  f_outer : list node            (* enclosing list so far, in reverse *)
}.

Definition close_frame (f : frame) (cur : list node) : node :=
  let '(l, e) := match f_list f with
                 | None => (rev cur, [])
                 | Some l => (l, rev cur)
                 end in
  match f_kind f with
  | KIf => IfNode (f_pipe f) l e
  | KRange => RangeNode (f_pipe f) l e
  end.

Fixpoint itemList (items : list item) (cur : list node) (stack : list frame)
  : error + list node :=
  match items with
  | [] =>
      match stack with
      | [] => inr (rev cur)
      | _ :: _ => inl (Errno "template: unexpected EOF")
      end
  | ItemText text :: rest => itemList rest (TextNode text :: cur) stack
  | ItemAction body :: rest =>
      match tokenize body EmptyString with
      | "if" :: toks =>
          match parse_pipeline toks with
          | inl e => inl e
          | inr pipe => itemList rest [] (Frame KIf pipe None cur :: stack)
          end
      | "range" :: toks =>
          match parse_pipeline toks with
          | inl e => inl e
          | inr pipe => itemList rest [] (Frame KRange pipe None cur :: stack)
          end
      | ["else"] =>
          match stack with
          | Frame k pipe None outer :: stack' =>
              itemList rest [] (Frame k pipe (Some (rev cur)) outer :: stack')
          | _ => inl (Errno "template: unexpected {{else}}")
          end
      | "else" :: _ => inl (unsupported "else with a condition")
      | ["end"] =>
          match stack with
          | f :: stack' => itemList rest (close_frame f cur :: f_outer f) stack'
          | [] => inl (Errno "template: unexpected {{end}}")
          end
      | toks =>
          match parse_pipeline toks with
          | inl e => inl e
          | inr pipe => itemList rest (ActionNode pipe :: cur) stack
          end
      end
  end.

(** [template.New("template").Funcs(funcMap).Parse(content)]. *)
Definition template_Parse (content : string) : error + list node :=
  match lex content (InText false) EmptyString with
  | inl e => inl e
  | inr items => itemList items [] []
  end.

(** *** Values and execution *)

(** The Go values a template can meet in this program. *)
Inductive value : Type :=
| VString (s : string)
| VBool (b : bool)
| VSlice (elems : list value)
| VStruct (fields : list (string * value)).

(** [isTrue]: a string or a slice is true when it is not empty. *)
Definition truth (v : value) : bool :=
  match v with
  | VString s => negb (is_empty s)
  | VBool b => b
  | VSlice l => match l with [] => false | _ :: _ => true end
  | VStruct _ => true
  end.

Fixpoint lookup_field (name : string) (fields : list (string * value))
  : option value :=
  match fields with
  | [] => None
  | (n, v) :: rest => if (n =? name)%string then Some v else lookup_field name rest
  end.

Fixpoint evalField (chain : list string) (receiver : value) : error + value :=
  match chain with
  | [] => inr receiver
  | name :: chain' =>
      match receiver with
      | VStruct fields =>
          match lookup_field name fields with
          | Some v => evalField chain' v
          | None => inl (Errno ("template: can't evaluate field " +:+ name))
          end
      | _ => inl (Errno ("template: can't evaluate field " +:+ name))
      end
  end.

(** A call of one of the two functions; [args] already holds the value
    piped in from the previous command, as last argument. *)
Definition evalFunction (name : string) (args : list value) : error + value :=
  if (name =? "not")%string then
    match args with
    | [v] => inr (VBool (negb (truth v)))
    | _ => inl (Errno "template: wrong number of args for not")
    end
  else if (name =? "ToLower")%string then
    match args with
    | [VString s] => inr (VString (ToLower s))
    | [_] => inl (Errno "template: wrong type for value; expected string")
    | _ => inl (Errno "template: wrong number of args for ToLower")
    end
  else inl (Errno ("template: function " +:+ name +:+ " not defined")).

Definition evalArg (dot : value) (o : operand) : error + value :=
  match o with
  | ODot => inr dot
  | OField chain => evalField chain dot
  | OIdent name => evalFunction name []
  end.

Fixpoint evalArgs (dot : value) (args : list operand) : error + list value :=
  match args with
  | [] => inr []
  | o :: rest =>
      match evalArg dot o with
      | inl e => inl e
      | inr v =>
          match evalArgs dot rest with
          | inl e => inl e
          | inr vs => inr (v :: vs)
          end
      end
  end.

Definition final_args (final : option value) : list value :=
  match final with
  | Some v => [v]
  | None => []
  end.

Definition evalCommand (dot : value) (cmd : command) (final : option value)
  : error + value :=
  match cmd with
  | [] => inl (Errno "template: missing value for command")
  | OIdent name :: args =>
      match evalArgs dot args with
      | inl e => inl e
      | inr vs => evalFunction name (vs ++ final_args final)
      end
  | OField chain :: args =>
      match args, final with
      | [], None => evalField chain dot
      | _, _ =>
          match evalField chain dot with
          | inl e => inl e
          | inr _ =>
              inl (Errno "template: field has arguments but cannot be invoked as function")
          end
      end
  | ODot :: args =>
      match args, final with
      | [], None => inr dot
      | _, _ => inl (Errno "template: can't give argument to non-function")
      end
  end.

Fixpoint evalPipeline_from (dot : value) (pipe : pipeline)
    (final : option value) : error + value :=
  match pipe with
  | [] =>
      match final with
      | Some v => inr v
      | None => inl (Errno "template: missing value for command")
      end
  | cmd :: rest =>
      match evalCommand dot cmd final with
      | inl e => inl e
      | inr v => evalPipeline_from dot rest (Some v)
      end
  end.

Definition evalPipeline (dot : value) (pipe : pipeline) : error + value :=
  evalPipeline_from dot pipe None.

(** [printValue]: what [fmt.Fprint] writes for the value. *)
Definition printValue (v : value) : error + string :=
  match v with
  | VString s => inr s
  | VBool true => inr "true"
  | VBool false => inr "false"
  | VSlice _ => inl (unsupported "printing a slice")
  | VStruct _ => inl (unsupported "printing a struct")
  end.

(** The effect of executing nodes on a writer that never fails: the
    chunks handed to [Write], one per text node and one per printed
    value, in order, and the execution error that stopped the walk, if
    any. *)
Definition output : Type := (list string * option error)%type.

Definition out_error (e : error) : output := ([], Some e).

Definition out_seq (a b : output) : output :=
  match a with
  | (chunks, Some e) => (chunks, Some e)
  | (chunks, None) => (chunks ++ fst b, snd b)
  end.

Fixpoint walkRange (body : value -> output) (elems : list value) : output :=
  match elems with
  | [] => ([], None)
  | v :: rest => out_seq (body v) (walkRange body rest)
  end.

Fixpoint walk (n : node) (dot : value) {struct n} : output :=
  let walkList :=
    fix walkList (l : list node) (dot : value) {struct l} : output :=
      match l with
      | [] => ([], None)
      | n' :: l' => out_seq (walk n' dot) (walkList l' dot)
      end in
  match n with
  | TextNode text => ([text], None)
  | ActionNode pipe =>
      match evalPipeline dot pipe with
      | inl e => out_error e
      | inr v =>
          match printValue v with
          | inl e => out_error e
          | inr s => ([s], None)
          end
      end
  | IfNode pipe l e =>
      match evalPipeline dot pipe with
      | inl err => out_error err
      | inr v => if truth v then walkList l dot else walkList e dot
      end
  | RangeNode pipe l e =>
      match evalPipeline dot pipe with
      | inl err => out_error err
      | inr (VSlice []) => walkList e dot
      | inr (VSlice elems) => walkRange (walkList l) elems
      | inr _ => out_error (unsupported "range over a value that is not a slice")
      end
  end.

Fixpoint walkList (l : list node) (dot : value) : output :=
  match l with
  | [] => ([], None)
  | n :: l' => out_seq (walk n dot) (walkList l' dot)
  end.

(** ** The operating system

    What the system calls of one run return is given by an oracle; the
    contents of regular files are kept in a store, and every operation of
    the run is appended to an event log with its outcome.  A failed
    operation leaves the store as it is, but for the two that write:
    [os.WriteFile] may fail after it has opened, and so truncated, the
    file, and a [Write] on a created file may fail after earlier ones
    went through. *)

Inductive op : Type :=
| OpReadFile       (* os.ReadFile *)
| OpMkdirAll       (* os.MkdirAll *)
| OpWriteFile      (* os.WriteFile *)
| OpParse          (* Template.Parse *)
| OpCreate         (* os.Create *)
| OpExecute        (* Template.Execute, writing to the created file *)
| OpClose.         (* File.Close *)

Record event : Type := Event {
  ev_op : op;
  ev_path : string;
  ev_err : option error
}.

(** The oracle of a run, path by path: the content [os.ReadFile]
    returns or its error; the error, if any, of [os.MkdirAll], of
    [os.WriteFile], of [os.Create], of a [Write] on the file created at the
    path, and of its [Close].

    Where [os.WriteFile] fails, [os_WriteFile_wrote] tells how far it
    got: [None] when the file could not be opened, [Some n] when it was
    opened with [O_TRUNC] and [n] bytes of the content were written.

    Where a [Write] on the created file fails, [file_Write_index] tells
    which one, counting the calls from 0 (the last call, when the
    execution makes fewer), and [file_Write_bytes] how many bytes of its
    argument were written before the error. *)
Record OS : Type := {
  os_ReadFile : string -> error + string;
  os_MkdirAll : string -> option error;
  os_WriteFile : string -> option error;
  os_Create : string -> option error;
  file_Write : string -> option error;
  file_Close : string -> option error;
  os_WriteFile_wrote : string -> option nat;
  file_Write_index : string -> nat;
  file_Write_bytes : string -> nat
}.

(** The state a run works on: the content of the files by path, and the
    operations performed so far, oldest first. *)
Record world : Type := World {
  disk : gmap string string;
  trace : list event
}.

Definition log (o : op) (path : string) (err : option error) (w : world)
  : world :=
  World (disk w) (trace w ++ [Event o path err]).

Definition store (path content : string) (w : world) : world :=
  World (<[path := content]> (disk w)) (trace w).

(** Hand the chunks to the file one [Write] at a time; [written] is the
    content of the file so far and [index] the number of calls that
    still go through before the one that fails, if one fails.  The
    failing [Write] leaves the first bytes of its chunk in the file. *)
Fixpoint write_chunks (os : OS) (path : string) (chunks : list string)
    (index : nat) (written : string) : string * option error :=
  match chunks with
  | [] => (written, None)
  | c :: rest =>
      match file_Write os path with
      | Some e =>
          match index, rest with
          | S index', _ :: _ => write_chunks os path rest index' (written +:+ c)
          | _, _ => (written +:+ take_bytes (file_Write_bytes os path) c, Some e)
          end
      | None => write_chunks os path rest index (written +:+ c)
      end
  end.

(** [tmpl.Execute(file, data)]: a failed write stops the execution with
    the error of the write, the bytes written before it staying in the
    file; otherwise the execution error, if any, is returned after the
    chunks before it have been written. *)
Definition Execute (os : OS) (tmpl : list node) (path : string) (data : value)
  : string * option error :=
  let '(chunks, exec_err) := walkList tmpl data in
  match write_chunks os path chunks (file_Write_index os path) EmptyString with
  | (written, Some e) => (written, Some e)
  | (written, None) => (written, exec_err)
  end.

(** ** The data types of the program (main.go, lines 19-51) *)

Record ProtoField : Type := {
  pf_Name : string;
  pf_Type : string;
  pf_Repeated : bool
}.

Record ProtoMessage : Type := {
  pm_Name : string;
  pm_Fields : list ProtoField
}.

Record RenderedField : Type := {
  rf_Name : string;
  rf_Type : string;
  rf_Repeated : bool;
  rf_DjangoType : string
}.

Record RenderedMessage : Type := {
  rm_Name : string;
  rm_Fields : list RenderedField
}.

Record TemplateData : Type := {
  AppName : string;
  AppTitle : string;
  Messages : list RenderedMessage
}.

(** The values as the templates see them, through reflection: a struct
    with its exported fields by name, a slice with its elements. *)
Definition value_of_field (f : RenderedField) : value :=
  VStruct [("Name", VString (rf_Name f)); ("Type", VString (rf_Type f));
           ("Repeated", VBool (rf_Repeated f));
           ("DjangoType", VString (rf_DjangoType f))].

Definition value_of_message (m : RenderedMessage) : value :=
  VStruct [("Name", VString (rm_Name m));
           ("Fields", VSlice (map value_of_field (rm_Fields m)))].

Definition value_of_data (d : TemplateData) : value :=
  VStruct [("AppName", VString (AppName d)); ("AppTitle", VString (AppTitle d));
           ("Messages", VSlice (map value_of_message (Messages d)))].

(** ** The templates (main.go, lines 178-249), byte for byte *)

Definition modelsTemplate : string :=
"from django.db import models

{{- range .Messages }}
class {{ .Name }}(models.Model):
{{- if not .Fields }}
    pass
{{- else }}
{{- range .Fields }}
    {{ .Name }} = {{ .DjangoType }}
{{- end }}
{{- end }}
{{ end }}
".

Definition serializersTemplate : string :=
"from rest_framework import serializers
{{ range .Messages }}
from .models import {{ .Name }}
{{ end }}

{{ range .Messages }}
class {{ .Name }}Serializer(serializers.ModelSerializer):
    class Meta:
        model = {{ .Name }}
        fields = '__all__'
{{ end }}
".

Definition viewsetsTemplate : string :=
"from rest_framework import viewsets
{{ range .Messages }}
from .models import {{ .Name }}
from .serializers import {{ .Name }}Serializer
{{ end }}

{{ range .Messages }}
class {{ .Name }}ViewSet(viewsets.ModelViewSet):
    queryset = {{ .Name }}.objects.all()
    serializer_class = {{ .Name }}Serializer
{{ end }}
".

Definition urlsTemplate : string :=
"from django.urls import path, include
from rest_framework.routers import DefaultRouter
{{ range .Messages }}
from .viewsets import {{ .Name }}ViewSet
{{ end }}

router = DefaultRouter()
{{ range .Messages }}
router.register(r'{{ .Name | ToLower }}', {{ .Name }}ViewSet)
{{ end }}

urlpatterns = [
    path('', include(router.urls)),
]
".

Definition adminTemplate : string :=
"from django.contrib import admin
{{ range .Messages }}
from .models import {{ .Name }}
{{ end }}

{{ range .Messages }}
admin.site.register({{ .Name }})
{{ end }}
".

Definition appsTemplate : string :=
"from django.apps import AppConfig

class {{ .AppTitle }}Config(AppConfig):
    default_auto_field = 'django.db.models.BigAutoField'
    name = '{{ .AppName }}'
".


(** ** ParseProto (main.go, lines 70-98) *)

(** The body of the inner loop: one field from one match of [fieldRe]. *)
Definition field_of_match (f : list string) : ProtoField :=
  let repeated := (TrimSpace (nth 1 f EmptyString) =? "repeated")%string in
  let typ := nth 2 f EmptyString in
  let name := nth 3 f EmptyString in
  {| pf_Name := name; pf_Type := typ; pf_Repeated := repeated |}.

(** The body of the outer loop: one message from one match of [messageRe]. *)
Definition message_of_match (match_ : list string) : ProtoMessage :=
  let msgName := nth 1 match_ EmptyString in
  let msgBody := nth 2 match_ EmptyString in
  let fieldMatches := FindAllStringSubmatch fieldRe msgBody in
  {| pm_Name := msgName; pm_Fields := map field_of_match fieldMatches |}.

(** Lines 75-97: from the text of the file to the messages. *)
Definition parse_text (text : string) : list ProtoMessage :=
  let matches := FindAllStringSubmatch messageRe text in
  map message_of_match matches.

Definition ParseProto (os : OS) (protoPath : string) (w : world)
  : (error + list ProtoMessage) * world :=
  match os_ReadFile os protoPath with
  | inl err =>
      (inl (Errorf "failed to read proto file: " err),
       log OpReadFile protoPath (Some err) w)
  | inr data => (inr (parse_text data), log OpReadFile protoPath None w)
  end.

(** ** writeFile and renderToFile (main.go, lines 152-169) *)

(** [writeFile] drops the error of [os.WriteFile].  A call that fails
    after opening the file leaves it truncated, with the bytes written
    before the failure. *)
Definition writeFile (os : OS) (path content : string) (w : world) : world :=
  match os_WriteFile os path with
  | Some err =>
      log OpWriteFile path (Some err)
        (match os_WriteFile_wrote os path with
         | Some n => store path (take_bytes n content) w
         | None => w
         end)
  | None => log OpWriteFile path None (store path content w)
  end.

(** [renderToFile]: parse, create (which truncates), execute; the
    deferred [file.Close()] runs on the way out and its result is dropped. *)
Definition renderToFile (os : OS) (content : string) (data : TemplateData)
    (outputPath : string) (w : world) : option error * world :=
  match template_Parse content with
  | inl err =>
      (Some (Errorf "failed to parse template: " err),
       log OpParse outputPath (Some err) w)
  | inr tmpl =>
      let w1 := log OpParse outputPath None w in
      match os_Create os outputPath with
      | Some err =>
          (Some (Errorf "failed to create file: " err),
           log OpCreate outputPath (Some err) w1)
      | None =>
          let w2 := log OpCreate outputPath None (store outputPath EmptyString w1) in
          let '(written, result) := Execute os tmpl outputPath (value_of_data data) in
          let w3 := log OpExecute outputPath result (store outputPath written w2) in
          (result, log OpClose outputPath (file_Close os outputPath) w3)
      end
  end.

(** ** GenerateApp (main.go, lines 101-150) *)

(** The map literal [files], lines 135-142. *)
Definition files : list (string * string) :=
  [("models.py", modelsTemplate);
   ("serializers.py", serializersTemplate);
   ("viewsets.py", viewsetsTemplate);
   ("urls.py", urlsTemplate);
   ("admin.py", adminTemplate);
   ("apps.py", appsTemplate)].

(** Lines 110-118. *)
Definition render_field (f : ProtoField) : RenderedField :=
  {| rf_Name := pf_Name f; rf_Type := pf_Type f; rf_Repeated := pf_Repeated f;
     rf_DjangoType := PythonType (pf_Type f) |}.

Definition render_message (msg : ProtoMessage) : RenderedMessage :=
  {| rm_Name := pm_Name msg; rm_Fields := map render_field (pm_Fields msg) |}.

(** Lines 121-126. *)
Definition template_data (outputDir : string) (rawMessages : list ProtoMessage)
  : TemplateData :=
  let appName := Base outputDir in
  {| AppName := appName; AppTitle := caser_String appName;
     Messages := map render_message rawMessages |}.

(** The loop of lines 143-147 over the entries in the order [order]; the
    first failure ends the loop. *)
Fixpoint render_files (os : OS) (data : TemplateData) (outputDir : string)
    (order : list (string * string)) (w : world) : option error * world :=
  match order with
  | [] => (None, w)
  | (name, tmpl) :: rest =>
      match renderToFile os tmpl data (Join [outputDir; name]) w with
      | (Some err, w') =>
          (Some (Errorf ("failed to render " +:+ name +:+ ": ") err), w')
      | (None, w') => render_files os data outputDir rest w'
      end
  end.

(** [GenerateApp].  Go visits the entries of a map in an order that is
    not specified and changes from run to run: [order] is the order in
    which this run visits the entries of [files]. *)
Definition GenerateApp (os : OS) (order : list (string * string))
    (protoPath outputDir : string) (w : world) : option error * world :=
  match ParseProto os protoPath w with
  | (inl err, w1) => (Some err, w1)
  | (inr rawMessages, w1) =>
      let data := template_data outputDir rawMessages in
      let migrations := Join [outputDir; "migrations"] in
      match os_MkdirAll os migrations with
      | Some err =>
          (Some (Errorf "failed to create migrations directory: " err),
           log OpMkdirAll migrations (Some err) w1)
      | None =>
          let w2 := log OpMkdirAll migrations None w1 in
          let w3 := writeFile os (Join [outputDir; "migrations"; "__init__.py"]) EmptyString w2 in
          let w4 := writeFile os (Join [outputDir; "__init__.py"]) EmptyString w3 in
          let w5 := writeFile os (Join [outputDir; "tests.py"]) ("# placeholder" +:+ nl) w4 in
          render_files os data outputDir order w5
      end
  end.

(** ** Vocabulary of the statements *)

(** The span of the binding [b] of a group lies between two offsets. *)
Definition span_within (lo hi : nat) (b : nat * (nat * nat)) : Prop :=
  lo <= fst (snd b) /\ fst (snd b) <= snd (snd b) /\ snd (snd b) <= hi.

(** [reaches st st'] says that [st'] is [st] after consuming some bytes and
    binding some groups to spans inside the consumed part. *)
Definition reaches (st st' : mstate) : Prop :=
  (exists consumed,
      m_rest st = consumed +:+ m_rest st' /\
      m_pos st' = m_pos st + String.length consumed) /\
  (exists bound,
      m_caps st' = bound ++ m_caps st /\
      Forall (span_within (m_pos st) (m_pos st')) bound).

(** The span of the whole match. *)
Definition span_of (m : submatch_index) : nat * nat :=
  match m with
  | Some span :: _ => span
  | _ => (0, 0)
  end.

(** [laid_out from spans upto]: the spans are non-empty, lie between the
    offsets [from] and [upto], and follow each other from left to right
    without overlap. *)
Fixpoint laid_out (from : nat) (spans : list (nat * nat)) (upto : nat) : Prop :=
  match spans with
  | [] => True
  | (a, b) :: rest => from <= a /\ a < b /\ b <= upto /\ laid_out b rest upto
  end.

(** The groups of a match lie inside the span of the match. *)
Definition groups_within (m : submatch_index) : Prop :=
  match m with
  | Some (a, b) :: groups =>
      Forall (fun g => match g with
                       | Some (x, y) => a <= x /\ x <= y /\ y <= b
                       | None => True
                       end) groups
  | _ => False
  end.

(** The subject from offset [n] on. *)
Fixpoint drop_string (n : nat) (s : string) : string :=
  match n, s with
  | S n', String _ s' => drop_string n' s'
  | _, _ => s
  end.

(** ** The parse trees of the six templates

    What [template_Parse] returns for each constant (see
    [templates_parse]).  In [modelsTemplate] every control action carries
    the left trim marker, so the newline before it is removed: the text
    before [range .Messages] loses its two newlines and the lists of
    [else], [range .Fields] and the two inner [end]s start or end with
    no text at all. *)

Definition field_ (name : string) : pipeline := [[OField [name]]].

Definition modelsTree : list node :=
  [TextNode "from django.db import models";
   RangeNode (field_ "Messages")
     [TextNode (nl +:+ "class "); ActionNode (field_ "Name");
      TextNode "(models.Model):";
      IfNode [[OIdent "not"; OField ["Fields"]]]
        [TextNode (nl +:+ "    pass")]
        [RangeNode (field_ "Fields")
           [TextNode (nl +:+ "    "); ActionNode (field_ "Name");
            TextNode " = "; ActionNode (field_ "DjangoType")]
           []];
      TextNode nl]
     [];
   TextNode nl].

Definition serializersTree : list node :=
  [TextNode ("from rest_framework import serializers" +:+ nl);
   RangeNode (field_ "Messages")
     [TextNode (nl +:+ "from .models import "); ActionNode (field_ "Name");
      TextNode nl]
     [];
   TextNode (nl +:+ nl);
   RangeNode (field_ "Messages")
     [TextNode (nl +:+ "class "); ActionNode (field_ "Name");
      TextNode ("Serializer(serializers.ModelSerializer):" +:+ nl +:+
                "    class Meta:" +:+ nl +:+
                "        model = ");
      ActionNode (field_ "Name");
      TextNode (nl +:+ "        fields = '__all__'" +:+ nl)]
     [];
   TextNode nl].

Definition viewsetsTree : list node :=
  [TextNode ("from rest_framework import viewsets" +:+ nl);
   RangeNode (field_ "Messages")
     [TextNode (nl +:+ "from .models import "); ActionNode (field_ "Name");
      TextNode (nl +:+ "from .serializers import "); ActionNode (field_ "Name");
      TextNode ("Serializer" +:+ nl)]
     [];
   TextNode (nl +:+ nl);
   RangeNode (field_ "Messages")
     [TextNode (nl +:+ "class "); ActionNode (field_ "Name");
      TextNode ("ViewSet(viewsets.ModelViewSet):" +:+ nl +:+ "    queryset = ");
      ActionNode (field_ "Name");
      TextNode (".objects.all()" +:+ nl +:+ "    serializer_class = ");
      ActionNode (field_ "Name");
      TextNode ("Serializer" +:+ nl)]
     [];
   TextNode nl].

Definition urlsTree : list node :=
  [TextNode ("from django.urls import path, include" +:+ nl +:+
             "from rest_framework.routers import DefaultRouter" +:+ nl);
   RangeNode (field_ "Messages")
     [TextNode (nl +:+ "from .viewsets import "); ActionNode (field_ "Name");
      TextNode ("ViewSet" +:+ nl)]
     [];
   TextNode (nl +:+ nl +:+ "router = DefaultRouter()" +:+ nl);
   RangeNode (field_ "Messages")
     [TextNode (nl +:+ "router.register(r'");
      ActionNode [[OField ["Name"]]; [OIdent "ToLower"]];
      TextNode "', "; ActionNode (field_ "Name");
      TextNode ("ViewSet)" +:+ nl)]
     [];
   TextNode (nl +:+ nl +:+ "urlpatterns = [" +:+ nl +:+
             "    path('', include(router.urls))," +:+ nl +:+
             "]" +:+ nl)].

Definition adminTree : list node :=
  [TextNode ("from django.contrib import admin" +:+ nl);
   RangeNode (field_ "Messages")
     [TextNode (nl +:+ "from .models import "); ActionNode (field_ "Name");
      TextNode nl]
     [];
   TextNode (nl +:+ nl);
   RangeNode (field_ "Messages")
     [TextNode (nl +:+ "admin.site.register("); ActionNode (field_ "Name");
      TextNode (")" +:+ nl)]
     [];
   TextNode nl].

Definition appsTree : list node :=
  [TextNode ("from django.apps import AppConfig" +:+ nl +:+ nl +:+ "class ");
   ActionNode (field_ "AppTitle");
   TextNode ("Config(AppConfig):" +:+ nl +:+
             "    default_auto_field = 'django.db.models.BigAutoField'" +:+ nl +:+
             "    name = '");
   ActionNode (field_ "AppName");
   TextNode ("'" +:+ nl)].

(** ** The content of the six rendered files, in closed form *)

Definition sections {A : Type} (section : A -> string) (l : list A) : string :=
  concat_strings (map section l).

(** [models.py]: one class per message; one line per field, in the order
    of the fields, or the statement [pass] when there is no field. *)
Definition model_field_line (f : RenderedField) : string :=
  nl +:+ "    " +:+ rf_Name f +:+ " = " +:+ rf_DjangoType f.

Definition model_body (fields : list RenderedField) : string :=
  match fields with
  | [] => nl +:+ "    pass"
  | _ :: _ => sections model_field_line fields
  end.

Definition model_class (m : RenderedMessage) : string :=
  nl +:+ "class " +:+ rm_Name m +:+ "(models.Model):" +:+
  model_body (rm_Fields m) +:+ nl.

Definition models_py (d : TemplateData) : string :=
  "from django.db import models" +:+ sections model_class (Messages d) +:+ nl.

Definition import_model (m : RenderedMessage) : string :=
  nl +:+ "from .models import " +:+ rm_Name m +:+ nl.

(** [serializers.py] *)
Definition serializer_class (m : RenderedMessage) : string :=
  nl +:+ "class " +:+ rm_Name m +:+ "Serializer(serializers.ModelSerializer):" +:+ nl +:+
  "    class Meta:" +:+ nl +:+
  "        model = " +:+ rm_Name m +:+ nl +:+
  "        fields = '__all__'" +:+ nl.

Definition serializers_py (d : TemplateData) : string :=
  "from rest_framework import serializers" +:+ nl +:+
  sections import_model (Messages d) +:+ nl +:+ nl +:+
  sections serializer_class (Messages d) +:+ nl.

(** [viewsets.py] *)
Definition import_model_and_serializer (m : RenderedMessage) : string :=
  nl +:+ "from .models import " +:+ rm_Name m +:+ nl +:+
  "from .serializers import " +:+ rm_Name m +:+ "Serializer" +:+ nl.

Definition viewset_class (m : RenderedMessage) : string :=
  nl +:+ "class " +:+ rm_Name m +:+ "ViewSet(viewsets.ModelViewSet):" +:+ nl +:+
  "    queryset = " +:+ rm_Name m +:+ ".objects.all()" +:+ nl +:+
  "    serializer_class = " +:+ rm_Name m +:+ "Serializer" +:+ nl.

Definition viewsets_py (d : TemplateData) : string :=
  "from rest_framework import viewsets" +:+ nl +:+
  sections import_model_and_serializer (Messages d) +:+ nl +:+ nl +:+
  sections viewset_class (Messages d) +:+ nl.

(** [urls.py] *)
Definition import_viewset (m : RenderedMessage) : string :=
  nl +:+ "from .viewsets import " +:+ rm_Name m +:+ "ViewSet" +:+ nl.

Definition router_registration (m : RenderedMessage) : string :=
  nl +:+ "router.register(r'" +:+ ToLower (rm_Name m) +:+ "', " +:+
  rm_Name m +:+ "ViewSet)" +:+ nl.

Definition urls_py (d : TemplateData) : string :=
  "from django.urls import path, include" +:+ nl +:+
  "from rest_framework.routers import DefaultRouter" +:+ nl +:+
  sections import_viewset (Messages d) +:+ nl +:+ nl +:+
  "router = DefaultRouter()" +:+ nl +:+
  sections router_registration (Messages d) +:+ nl +:+ nl +:+
  "urlpatterns = [" +:+ nl +:+
  "    path('', include(router.urls))," +:+ nl +:+
  "]" +:+ nl.

(** [admin.py] *)
Definition admin_registration (m : RenderedMessage) : string :=
  nl +:+ "admin.site.register(" +:+ rm_Name m +:+ ")" +:+ nl.

Definition admin_py (d : TemplateData) : string :=
  "from django.contrib import admin" +:+ nl +:+
  sections import_model (Messages d) +:+ nl +:+ nl +:+
  sections admin_registration (Messages d) +:+ nl.

(** [apps.py] *)
Definition apps_py (d : TemplateData) : string :=
  "from django.apps import AppConfig" +:+ nl +:+ nl +:+
  "class " +:+ AppTitle d +:+ "Config(AppConfig):" +:+ nl +:+
  "    default_auto_field = 'django.db.models.BigAutoField'" +:+ nl +:+
  "    name = '" +:+ AppName d +:+ "'" +:+ nl.

(** The six rendered files: name, parse tree, content. *)
Definition rendered_files : list (string * list node * (TemplateData -> string)) :=
  [("models.py", modelsTree, models_py);
   ("serializers.py", serializersTree, serializers_py);
   ("viewsets.py", viewsetsTree, viewsets_py);
   ("urls.py", urlsTree, urls_py);
   ("admin.py", adminTree, admin_py);
   ("apps.py", appsTree, apps_py)].

(** [renders tree dot s]: executing [tree] on [dot] ends without error
    and writes exactly [s]. *)
Definition renders (tree : list node) (dot : value) (s : string) : Prop :=
  exists chunks,
    walkList tree dot = (chunks, None) /\ concat_strings chunks = s.

(** ** Output paths *)

Definition slash_free (s : string) : bool :=
  forallb_string (fun c => negb (is_sep c)) s.

(** A plain file or directory name: not empty, no separator, neither [.]
    nor [..]. *)
Definition simple_name (n : string) : bool :=
  negb (is_empty n) && slash_free n &&
  negb (n =? ".")%string && negb (n =? "..")%string.

(** The nine files of the generated application, relative to the output
    directory: the three static ones, then the six rendered ones. *)
Definition static_outputs : list (list string * string) :=
  [(["migrations"; "__init__.py"], EmptyString);
   (["__init__.py"], EmptyString);
   (["tests.py"], "# placeholder" +:+ nl)].

Definition output_names : list (list string) :=
  map fst static_outputs ++ map (fun nt => [fst nt]) files.

(** ** Runs *)

(** What [renderToFile] leaves in the file at [path], if it gets as far as
    creating it. *)
Definition rendered_content (os : OS) (content : string) (data : TemplateData)
    (path : string) : option string :=
  match template_Parse content with
  | inl _ => None
  | inr tmpl =>
      match os_Create os path with
      | Some _ => None
      | None => Some (fst (Execute os tmpl path (value_of_data data)))
      end
  end.

(** Whether [renderToFile] succeeds; the store plays no part in it. *)
Definition render_result (os : OS) (content : string) (data : TemplateData)
    (path : string) : option error :=
  fst (renderToFile os content data path (World ∅ [])).

Definition put (path : string) (content : option string)
    (fs : gmap string string) : gmap string string :=
  match content with
  | Some c => <[path := c]> fs
  | None => fs
  end.

(** The three calls of [writeFile], lines 131-133. *)
Definition static_files (os : OS) (dir : string) (w : world) : world :=
  writeFile os (Join [dir; "tests.py"]) ("# placeholder" +:+ nl)
    (writeFile os (Join [dir; "__init__.py"]) EmptyString
       (writeFile os (Join [dir; "migrations"; "__init__.py"]) EmptyString w)).

(** What [os.WriteFile] of [content] leaves at [path]: the content when it
    succeeds, its first bytes when it fails after opening the file, and
    nothing new when it fails before. *)
Definition written_content (os : OS) (path content : string) : option string :=
  match os_WriteFile os path with
  | Some _ =>
      match os_WriteFile_wrote os path with
      | Some n => Some (take_bytes n content)
      | None => None
      end
  | None => Some content
  end.

(** Data with every repetition flag cleared; two data that agree after
    clearing differ in repetition flags only. *)
Definition forget_repeated_field (f : RenderedField) : RenderedField :=
  {| rf_Name := rf_Name f; rf_Type := rf_Type f; rf_Repeated := false;
     rf_DjangoType := rf_DjangoType f |}.

Definition forget_repeated_message (m : RenderedMessage) : RenderedMessage :=
  {| rm_Name := rm_Name m;
     rm_Fields := map forget_repeated_field (rm_Fields m) |}.

Definition forget_repeated (d : TemplateData) : TemplateData :=
  {| AppName := AppName d; AppTitle := AppTitle d;
     Messages := map forget_repeated_message (Messages d) |}.

(** An operating system on which creating directories, creating files
    and writing them never fails. *)
Definition writable (os : OS) : Prop :=
  (forall p, os_MkdirAll os p = None) /\
  (forall p, os_WriteFile os p = None) /\
  (forall p, os_Create os p = None) /\
  (forall p, file_Write os p = None).

(** ** Sample systems and inputs, for the worked instances *)

(** A system on which nothing fails and the input file holds [text]. *)
Definition sound_os (text : string) : OS :=
  {| os_ReadFile := fun _ => inr text;
     os_MkdirAll := fun _ => None;
     os_WriteFile := fun _ => None;
     os_Create := fun _ => None;
     file_Write := fun _ => None;
     file_Close := fun _ => None;
     os_WriteFile_wrote := fun _ => None;
     file_Write_index := fun _ => 0;
     file_Write_bytes := fun _ => 0 |}.

(** The same system with [os.WriteFile] failing on every path, before
    the file is opened. *)
Definition readonly_markers_os (text : string) : OS :=
  {| os_ReadFile := fun _ => inr text;
     os_MkdirAll := fun _ => None;
     os_WriteFile := fun _ => Some (Errno "permission denied");
     os_Create := fun _ => None;
     file_Write := fun _ => None;
     file_Close := fun _ => None;
     os_WriteFile_wrote := fun _ => None;
     file_Write_index := fun _ => 0;
     file_Write_bytes := fun _ => 0 |}.

Definition empty_world : world := World ∅ [].


Definition user_proto : string :=
  "message User { string name = 1; int32 age = 2; }".

(** [final_segment path seg]: [seg] is the last element of [path], that
    is, [path] is [seg] preceded by nothing or by a prefix that ends with
    a separator, and followed by separators only; [seg] itself is not
    empty and holds no separator. *)
Definition final_segment (path seg : string) : Prop :=
  is_empty seg = false /\ slash_free seg = true /\
  exists pre slashes,
    path = pre +:+ seg +:+ slashes /\
    forallb_string is_sep slashes = true /\
    (pre = EmptyString \/ exists pre', pre = pre' +:+ String Separator EmptyString).

(** ** Failures *)

(** The operations whose error the program drops: [writeFile] assigns the
    result of [os.WriteFile] to the blank identifier, and the deferred
    [file.Close()] has its result ignored. *)
Definition dropped (o : op) : bool :=
  match o with
  | OpWriteFile | OpClose => true
  | _ => false
  end.

(** The operations of [renderToFile] whose error it returns. *)
Definition render_op (o : op) : bool :=
  match o with
  | OpParse | OpCreate | OpExecute => true
  | _ => false
  end.

(** What [renderToFile] returns when operation [o] fails with [e]. *)
Definition render_report (o : op) (e : error) : error :=
  match o with
  | OpParse => Errorf "failed to parse template: " e
  | OpCreate => Errorf "failed to create file: " e
  | _ => e
  end.

(** What [GenerateApp] returns when operation [o] fails with [e], [name]
    being the entry that was being rendered, if any. *)
Definition report (o : op) (name : string) (e : error) : error :=
  match o with
  | OpReadFile => Errorf "failed to read proto file: " e
  | OpMkdirAll => Errorf "failed to create migrations directory: " e
  | _ => Errorf ("failed to render " +:+ name +:+ ": ") (render_report o e)
  end.

(** No failure other than dropped ones. *)
Definition quiet (evs : list event) : Prop :=
  Forall (fun ev => dropped (ev_op ev) = true \/ ev_err ev = None) evs.

Definition only_closes (evs : list event) : Prop :=
  Forall (fun ev => ev_op ev = OpClose) evs.

(** The events of a run and its result: either no failure that counts
    and no error, or exactly one such failure, with nothing before it
    that failed, nothing but the closing of the file after it, and the
    error of the run related to it by [R]. *)
Definition failure_shape (R : op -> error -> error -> Prop)
    (evs : list event) (r : option error) : Prop :=
  match r with
  | None => quiet evs
  | Some err =>
      exists good ev post e,
        evs = good ++ ev :: post /\ quiet good /\
        ev_err ev = Some e /\ dropped (ev_op ev) = false /\
        only_closes post /\ R (ev_op ev) e err
  end.

(** A system that cannot create files any more; existing files can
    still be written with [os.WriteFile]. *)
Definition full_disk_os (text : string) : OS :=
  {| os_ReadFile := fun _ => inr text;
     os_MkdirAll := fun _ => None;
     os_WriteFile := fun _ => None;
     os_Create := fun _ => Some (Errno "no space left on device");
     file_Write := fun _ => None;
     file_Close := fun _ => None;
     os_WriteFile_wrote := fun _ => None;
     file_Write_index := fun _ => 0;
     file_Write_bytes := fun _ => 0 |}.

(** The pattern matches at no offset of the subject. *)
Definition matches_nowhere (re : regex) (s : string) : Prop :=
  forall k, k <= String.length s -> exec_at re k (drop_string k s) = None.

(** The field of [d], one match of [fieldRe] in [body]. *)
Definition declares (body : string) (d : submatch_index) (f : ProtoField) : Prop :=
  pf_Type f = submatch_string body (nth 2 d None) /\
  pf_Name f = submatch_string body (nth 3 d None).

(** The class of [models.py] for a parsed message. *)
Definition declaration_line (f : ProtoField) : string :=
  nl +:+ "    " +:+ pf_Name f +:+ " = " +:+ PythonType (pf_Type f).

Definition class_declaration (m : ProtoMessage) : string :=
  nl +:+ "class " +:+ pm_Name m +:+ "(models.Model):" +:+
  match pm_Fields m with
  | [] => nl +:+ "    pass"
  | _ :: _ => sections declaration_line (pm_Fields m)
  end +:+ nl.

Definition empty_proto : string := "message Empty {}".

Definition user_message : ProtoMessage :=
  {| pm_Name := "User";
     pm_Fields := [ {| pf_Name := "name"; pf_Type := "string"; pf_Repeated := false |};
                    {| pf_Name := "age"; pf_Type := "int32"; pf_Repeated := false |} ] |}.

(** One message with one field, repeated or not. *)
Definition post_data (repeated : bool) : TemplateData :=
  {| AppName := "blog"; AppTitle := "Blog";
     Messages :=
       [ {| rm_Name := "Post";
            rm_Fields := [ {| rf_Name := "tags"; rf_Type := "string";
                              rf_Repeated := repeated;
                              rf_DjangoType := PythonType "string" |} ] |} ] |}.

(** ** What a group can hold *)

(** The bytes a pattern can consume. *)
Fixpoint alphabet (r : regex) (c : ascii) : bool :=
  match r with
  | Eps => false
  | Lit x => Ascii.eqb x c
  | Cls k => cclass_mem k c
  | Cat a b => alphabet a c || alphabet b c
  | Quest a | Star a | Plus a | Group _ a => alphabet a c
  end.

(** The bytes group [i] of a pattern can hold. *)
Fixpoint group_alphabet (r : regex) (i : nat) (c : ascii) : bool :=
  match r with
  | Eps | Lit _ | Cls _ => false
  | Cat a b => group_alphabet a i c || group_alphabet b i c
  | Quest a | Star a | Plus a => group_alphabet a i c
  | Group j a => ((i =? j) && alphabet a c) || group_alphabet a i c
  end.

(** [holds q g consumed pos b]: the binding [b] of a group is a part of
    the consumed bytes, made of bytes allowed by [g]. *)
Definition holds (g : nat -> ascii -> bool) (consumed : string) (pos : nat)
    (b : nat * (nat * nat)) : Prop :=
  exists u v w,
    consumed = u +:+ v +:+ w /\
    fst (snd b) = pos + String.length u /\
    snd (snd b) = fst (snd b) + String.length v /\
    forallb_string (g (fst b)) v = true.

(** [consumes q g st st']: as [reaches], and the consumed bytes are
    allowed by [q], the bound groups hold bytes allowed by [g]. *)
Definition consumes (q : ascii -> bool) (g : nat -> ascii -> bool)
    (st st' : mstate) : Prop :=
  exists consumed bound,
    m_rest st = consumed +:+ m_rest st' /\
    m_pos st' = m_pos st + String.length consumed /\
    forallb_string q consumed = true /\
    m_caps st' = bound ++ m_caps st /\
    Forall (holds g consumed (m_pos st)) bound.

(** Every bound group of the match [m] in [text] holds bytes that the
    group of the pattern allows. *)
Definition groups_hold (re : regex) (text : string) (m : submatch_index) : Prop :=
  forall i a b,
    nth (S i) m None = Some (a, b) ->
    forallb_string (group_alphabet re (S i)) (slice text a b) = true.

(** [strings.TrimSpace] on a string of ASCII bytes. *)
Definition trim_ascii (s : string) : string :=
  rev_string (drop_while asciiSpace (rev_string (drop_while asciiSpace s))).

(** * Vocabulary for the properties of whole runs *)

(** The nine paths a run may write. *)
Definition output_paths (dir : string) : list string :=
  map (fun l => Join (dir :: l)) output_names.

(** What rendering an entry of [files] into [path] can fail with: the
    creation of the file, wrapped, or a [Write] on it, as it is. *)
Definition entry_result (os : OS) (path : string) : option error :=
  match os_Create os path with
  | Some e => Some (Errorf "failed to create file: " e)
  | None => file_Write os path
  end.

(** [has_prefix p s]: the string [s] starts with [p]. *)
Definition has_prefix (p s : string) : Prop := exists rest, s = p +:+ rest.

(** A system on which everything works except creating [urls.py] under
    [out/accounts]. *)
Definition no_urls_os (text : string) : OS :=
  {| os_ReadFile := fun _ => inr text;
     os_MkdirAll := fun _ => None;
     os_WriteFile := fun _ => None;
     os_Create := fun p => if (p =? "out/accounts/urls.py")%string
                           then Some (Errno "permission denied") else None;
     file_Write := fun _ => None;
     file_Close := fun _ => None;
     os_WriteFile_wrote := fun _ => None;
     file_Write_index := fun _ => 0;
     file_Write_bytes := fun _ => 0 |}.


(** The four declarations of the scalar cases of [PythonType]. *)
Definition scalar_declarations : list string :=
  ["models.IntegerField()"; "models.CharField(max_length=255)";
   "models.BooleanField()"; "models.FloatField()"].

(** * The command line (main.go, lines 252-268)

    [main] declares two string flags on the default flag set of package
    [flag], whose error handling is [ExitOnError], and parses
    [os.Args[1:]]. *)

(** The variables the two flags are bound to. *)
Record flags : Type := Flags {
  fl_proto : string;      (* protoPath *)
  fl_out : string         (* outputDir *)
}.

(** The defaults of the two [flag.StringVar] calls, lines 255-256. *)
Definition flag_defaults : flags := Flags EmptyString "generated_app".

(** [name\[i+1:\]] and [name\[0:i\]] for the first [=] of [s]. *)
Fixpoint split_at_equals (s : string) : option (string * string) :=
  match s with
  | EmptyString => None
  | String c s' =>
      if Ascii.eqb c "=" then Some (EmptyString, s')
      else match split_at_equals s' with
           | Some (n, v) => Some (String c n, v)
           | None => None
           end
  end.

(** How [FlagSet.parseOne] reads one argument. *)
Inductive flag_syntax : Type :=
| NotAFlag                                   (* ends the flags, stays in the arguments *)
| Terminator                                 (* [--]: ends the flags and is dropped *)
| BadSyntax
| IsFlag (name : string) (value : option string).

Definition flag_name_value (name : string) : flag_syntax :=
  match name with
  | EmptyString => BadSyntax
  | String c rest =>
      if Ascii.eqb c "-" || Ascii.eqb c "=" then BadSyntax
      else
        (* an equals sign cannot be first *)
        match split_at_equals rest with
        | Some (n, v) => IsFlag (String c n) (Some v)
        | None => IsFlag name None
        end
  end.

Definition read_flag (s : string) : flag_syntax :=
  match s with
  | String c0 (String c1 rest) =>
      if negb (Ascii.eqb c0 "-") then NotAFlag
      else if Ascii.eqb c1 "-" then
        if is_empty rest then Terminator else flag_name_value rest
      else flag_name_value (String c1 rest)
  | _ => NotAFlag
  end.

(** How the parsing of the flags can stop early. *)
Inductive flag_error : Type :=
| ErrHelp
| FlagFailure (msg : string).

(** The flags that [main] defines, lines 255-256. *)
Definition formal (name : string) : bool :=
  (name =? "proto")%string || (name =? "out")%string.

(** [Value.Set] of the defined flag [name]: a string flag takes any
    value. *)
Definition flag_Set (name value : string) (fl : flags) : flags :=
  if (name =? "proto")%string then Flags value (fl_out fl)
  else Flags (fl_proto fl) value.

(** The loop of [FlagSet.Parse] around [parseOne]: a flag that is not
    boolean takes its value after the equals sign or from the next
    argument; the first argument that is not a flag ends the loop. *)
Fixpoint flag_Parse (args : list string) (fl : flags) {struct args}
  : flag_error + flags :=
  match args with
  | [] => inr fl
  | s :: rest =>
      match read_flag s with
      | NotAFlag | Terminator => inr fl
      | BadSyntax => inl (FlagFailure ("bad flag syntax: " +:+ s))
      | IsFlag name value =>
          if negb (formal name) then
            if (name =? "help")%string || (name =? "h")%string then inl ErrHelp
            else inl (FlagFailure ("flag provided but not defined: -" +:+ name))
          else
            match value with
            | Some v => flag_Parse rest (flag_Set name v fl)
            | None =>
                match rest with
                | v :: rest' => flag_Parse rest' (flag_Set name v fl)
                | [] => inl (FlagFailure ("flag needs an argument: -" +:+ name))
                end
            end
      end
  end.

(** What the process writes, in order. *)
Inductive output_event : Type :=
| Stdout (text : string)       (* [fmt.Println]: the operands and a newline *)
| LogFatal (msg : string)      (* [log.Fatal], [log.Fatalf]: the message handed to the logger *)
| FlagFail (msg : string)      (* package [flag]: the error, then the usage *)
| FlagUsage.                   (* package [flag]: the usage, for [-h] and [-help] *)

Record outcome : Type := Outcome {
  exit_code : nat;
  outputs : list output_event
}.

Definition usage_message : string :=
  "Please provide a .proto file with -proto flag".

Definition confirmation (outputDir : string) : string :=
  "✅ Django app generated at" +:+ " " +:+ outputDir +:+ nl.

(** [main]: [args] is [os.Args[1:]]. *)
Definition main (os : OS) (order : list (string * string))
    (args : list string) (w : world) : outcome * world :=
  match flag_Parse args flag_defaults with
  | inl ErrHelp => (Outcome 0 [FlagUsage], w)
  | inl (FlagFailure msg) => (Outcome 2 [FlagFail msg], w)
  | inr fl =>
      let protoPath := fl_proto fl in
      let outputDir := fl_out fl in
      if is_empty protoPath then (Outcome 1 [LogFatal usage_message], w)
      else
        match GenerateApp os order protoPath outputDir w with
        | (Some err, w') => (Outcome 1 [LogFatal ("Error: " +:+ Error err)], w')
        | (None, w') => (Outcome 0 [Stdout (confirmation outputDir)], w')
        end
  end.

(** [starts_with p s]: the bytes of [p] are the first bytes of [s]. *)
Fixpoint starts_with (p s : string) : bool :=
  match p, s with
  | EmptyString, _ => true
  | String a p', String b s' => Ascii.eqb a b && starts_with p' s'
  | String _ _, EmptyString => false
  end.

(** An argument that may set the flag [proto]. *)
Definition mentions_proto (arg : string) : bool :=
  starts_with "-proto" arg || starts_with "--proto" arg.

(** * What a pattern matches

    [derives r pos u caps]: the pattern [r] matches the bytes [u] at
    offset [pos] and binds the groups [caps], most recent first.  This is
    the set of all the ways [r] can match; [run] enumerates it in the order
    of preference.  A round of a star consumes at least one byte. *)
Inductive derives : regex -> nat -> string -> list (nat * (nat * nat)) -> Prop :=
| derives_Eps pos : derives Eps pos EmptyString []
| derives_Lit c pos : derives (Lit c) pos (String c EmptyString) []
| derives_Cls k c pos :
    cclass_mem k c = true -> derives (Cls k) pos (String c EmptyString) []
| derives_Cat a b pos u v ca cb :
    derives a pos u ca -> derives b (pos + String.length u) v cb ->
    derives (Cat a b) pos (u +:+ v) (cb ++ ca)
| derives_Quest_none a pos : derives (Quest a) pos EmptyString []
| derives_Quest_some a pos u c : derives a pos u c -> derives (Quest a) pos u c
| derives_Star_stop a pos : derives (Star a) pos EmptyString []
| derives_Star_round a pos u v cu cv :
    is_empty u = false ->
    derives a pos u cu -> derives (Star a) (pos + String.length u) v cv ->
    derives (Star a) pos (u +:+ v) (cv ++ cu)
| derives_Plus a pos u v cu cv :
    derives a pos u cu -> derives (Star a) (pos + String.length u) v cv ->
    derives (Plus a) pos (u +:+ v) (cv ++ cu)
| derives_Group i a pos u c :
    derives a pos u c ->
    derives (Group i a) pos u ((i, (pos, pos + String.length u)) :: c).

(** [st'] is [st] after a match of [r]. *)
Definition arrives (r : regex) (st st' : mstate) : Prop :=
  exists u c,
    m_rest st = u +:+ m_rest st' /\
    m_pos st' = m_pos st + String.length u /\
    m_caps st' = c ++ m_caps st /\
    derives r (m_pos st) u c.

(** [[^}]], the class of the body of a message. *)
Definition not_brace (c : ascii) : bool := negb (Ascii.eqb c "}").

(** [block ws1 name ws2 body]: a message block as [messageRe] reads it. *)
Definition block (ws1 name ws2 body : string) : string :=
  "message" +:+ ws1 +:+ name +:+ ws2 +:+ "{" +:+ body +:+ "}".

Definition well_formed_block (ws1 name ws2 body : string) : Prop :=
  is_empty ws1 = false /\ forallb_string is_space ws1 = true /\
  is_empty name = false /\ forallb_string is_word name = true /\
  forallb_string is_space ws2 = true /\
  forallb_string not_brace body = true.

(** [declaration rep typ ws1 name ws2 ws3 tag]: a field declaration as
    [fieldRe] reads it; [rep] is the optional prefix. *)
Definition declaration (rep typ ws1 name ws2 ws3 tag : string) : string :=
  rep +:+ typ +:+ ws1 +:+ name +:+ ws2 +:+ "=" +:+ ws3 +:+ tag.

Definition well_formed_declaration (typ ws1 name ws2 ws3 tag : string) : Prop :=
  is_empty typ = false /\ forallb_string is_word typ = true /\
  is_empty ws1 = false /\ forallb_string is_space ws1 = true /\
  is_empty name = false /\ forallb_string is_word name = true /\
  forallb_string is_space ws2 = true /\
  forallb_string is_space ws3 = true /\
  is_empty tag = false /\ forallb_string is_digit tag = true.

(** The optional prefix of a declaration: absent, or [repeated] and
    white space. *)
Definition repeated_prefix (rep : string) (repeated : bool) : Prop :=
  if repeated
  then exists ws, rep = "repeated" +:+ ws /\ is_empty ws = false /\
                  forallb_string is_space ws = true
  else rep = EmptyString.

(** The binding of group 1 of [fieldRe], when the prefix is there. *)
Definition prefix_binding (pos : nat) (rep : string) (repeated : bool)
  : list (nat * (nat * nat)) :=
  if repeated then [(1, (pos, pos + String.length rep))] else [].

(** [message_block text m msg]: the match [m] of [messageRe] in [text]
    is a well formed block and [msg] is the message read from it. *)
Definition message_block (text : string) (m : submatch_index) (msg : ProtoMessage)
  : Prop :=
  exists pre ws1 ws2 body post,
    text = pre +:+ block ws1 (pm_Name msg) ws2 body +:+ post /\
    span_of m = (String.length pre,
                 String.length pre
                 + String.length (block ws1 (pm_Name msg) ws2 body)) /\
    well_formed_block ws1 (pm_Name msg) ws2 body /\
    pm_Fields msg = map field_of_match (FindAllStringSubmatch fieldRe body).

(** [field_declaration body d f]: the match [d] of [fieldRe] in [body]
    is a well formed declaration and [f] is the field read from it. *)
Definition field_declaration (body : string) (d : submatch_index) (f : ProtoField)
  : Prop :=
  exists pre rep ws1 ws2 ws3 tag post,
    body = pre +:+ declaration rep (pf_Type f) ws1 (pf_Name f) ws2 ws3 tag +:+ post /\
    span_of d = (String.length pre,
                 String.length pre
                 + String.length (declaration rep (pf_Type f) ws1 (pf_Name f)
                                    ws2 ws3 tag)) /\
    repeated_prefix rep (pf_Repeated f) /\
    well_formed_declaration (pf_Type f) ws1 (pf_Name f) ws2 ws3 tag.

(** [stops p x]: a run of bytes of the class [p] cannot go on into [x]. *)
Definition stops (p : ascii -> bool) (x : string) : Prop :=
  match x with
  | EmptyString => True
  | String c _ => p c = false
  end.

(** The bindings of the groups of a block matched at [pos]. *)
Definition block_bindings (pos : nat) (ws1 name ws2 body : string)
  : list (nat * (nat * nat)) :=
  [(2, (pos + String.length ("message" +:+ ws1 +:+ name +:+ ws2 +:+ "{"),
        pos + String.length ("message" +:+ ws1 +:+ name +:+ ws2 +:+ "{")
            + String.length body));
   (1, (pos + String.length ("message" +:+ ws1),
        pos + String.length ("message" +:+ ws1) + String.length name))].

(** The bindings of the groups of a declaration matched at [pos]. *)
Definition declaration_bindings (pos : nat) (rep : string) (repeated : bool)
    (typ ws1 name : string) : list (nat * (nat * nat)) :=
  [(3, (pos + String.length (rep +:+ typ +:+ ws1),
        pos + String.length (rep +:+ typ +:+ ws1) + String.length name));
   (2, (pos + String.length rep,
        pos + String.length rep + String.length typ))]
  ++ prefix_binding pos rep repeated.

(** * Well formed input

    A text laid out as the two patterns expect it: message blocks
    separated by text in which the keyword does not begin, each body made
    of declarations separated by text without word characters. *)

(** [compatible kw s]: [s] may be the start of an occurrence of [kw],
    complete or cut short by the end of [s]. *)
Fixpoint compatible (kw s : string) : bool :=
  match kw, s with
  | String a kw', String b s' => Ascii.eqb a b && compatible kw' s'
  | _, _ => true
  end.

(** [keyword_free kw gap]: no occurrence of [kw] begins inside [gap]. *)
Fixpoint keyword_free (kw gap : string) : bool :=
  match gap with
  | EmptyString => true
  | String _ gap' => negb (compatible kw gap) && keyword_free kw gap'
  end.

(** Text between declarations: no word character, no closing brace. *)
Definition separator_byte (c : ascii) : bool := negb (is_word c) && not_brace c.

(** A declaration with the text around it. *)
Record laid_field : Type := LaidField {
  lf_field : ProtoField;
  lf_pre : string;         (* before the declaration *)
  lf_ws0 : string;         (* after [repeated], if the field is repeated *)
  lf_ws1 : string;         (* between type and name *)
  lf_ws2 : string;         (* before the equals sign *)
  lf_ws3 : string;         (* after the equals sign *)
  lf_tag : string;
  lf_post : string         (* after the tag: [;] and the like *)
}.

Definition prefix_of (f : laid_field) : string :=
  if pf_Repeated (lf_field f) then "repeated" +:+ lf_ws0 f else EmptyString.

Definition declaration_of (f : laid_field) : string :=
  declaration (prefix_of f) (pf_Type (lf_field f)) (lf_ws1 f)
              (pf_Name (lf_field f)) (lf_ws2 f) (lf_ws3 f) (lf_tag f).

Definition well_laid_field (f : laid_field) : Prop :=
  well_formed_declaration (pf_Type (lf_field f)) (lf_ws1 f)
                          (pf_Name (lf_field f)) (lf_ws2 f) (lf_ws3 f) (lf_tag f) /\
  (pf_Repeated (lf_field f) = true ->
   is_empty (lf_ws0 f) = false /\ forallb_string is_space (lf_ws0 f) = true) /\
  forallb_string separator_byte (lf_pre f) = true /\
  is_empty (lf_post f) = false /\
  forallb_string separator_byte (lf_post f) = true.

Fixpoint fields_text (items : list laid_field) : string :=
  match items with
  | [] => EmptyString
  | f :: rest => lf_pre f +:+ declaration_of f +:+ lf_post f +:+ fields_text rest
  end.

(** A block with its fields and the text that follows it. *)
Record laid_message : Type := LaidMessage {
  lm_ws1 : string;         (* after the keyword *)
  lm_name : string;
  lm_ws2 : string;         (* before the opening brace *)
  lm_pad : string;         (* after the opening brace *)
  lm_fields : list laid_field;
  lm_gap : string          (* after the closing brace *)
}.

Definition body_of (m : laid_message) : string :=
  lm_pad m +:+ fields_text (lm_fields m).

Definition block_of (m : laid_message) : string :=
  block (lm_ws1 m) (lm_name m) (lm_ws2 m) (body_of m).

Definition well_laid_message (m : laid_message) : Prop :=
  is_empty (lm_ws1 m) = false /\ forallb_string is_space (lm_ws1 m) = true /\
  is_empty (lm_name m) = false /\ forallb_string is_word (lm_name m) = true /\
  forallb_string is_space (lm_ws2 m) = true /\
  forallb_string separator_byte (lm_pad m) = true /\
  Forall well_laid_field (lm_fields m) /\
  keyword_free "message" (lm_gap m) = true.

Fixpoint messages_text (items : list laid_message) : string :=
  match items with
  | [] => EmptyString
  | m :: rest => block_of m +:+ lm_gap m +:+ messages_text rest
  end.

(** The message a laid out block stands for. *)
Definition message_of (m : laid_message) : ProtoMessage :=
  {| pm_Name := lm_name m; pm_Fields := map lf_field (lm_fields m) |}.

(** What the groups of the match of a declaration hold. *)
Definition field_strings (f : laid_field) : list string :=
  [declaration_of f; prefix_of f; pf_Type (lf_field f); pf_Name (lf_field f)].

(** What the groups of the match of a block hold. *)
Definition block_strings (m : laid_message) : list string :=
  [block_of m; lm_name m; body_of m].

(** A small well formed file, for the worked instance. *)
Definition sample_layout : list laid_message :=
  [ LaidMessage " " "User" " " nl
      [ LaidField {| pf_Name := "name"; pf_Type := "string"; pf_Repeated := false |}
                  "  " EmptyString " " " " " " "1" (";" +:+ nl);
        LaidField {| pf_Name := "ids"; pf_Type := "int32"; pf_Repeated := true |}
                  "  " " " " " " " " " "2" (";" +:+ nl) ]
      nl;
    LaidMessage " " "Empty" EmptyString EmptyString [] nl ].

(** * The text of a list of messages

    A printer for the messages the program works on, in the usual layout
    of a [.proto] file: a syntax line, then one block per message with one
    declaration per line, the fields numbered from 1. *)

Fixpoint decimal_digits (fuel n : nat) (acc : string) : string :=
  match fuel with
  | 0 => acc
  | S fuel' =>
      let acc' := String (ascii_of_nat (48 + n mod 10)) acc in
      if n <? 10 then acc' else decimal_digits fuel' (n / 10) acc'
  end.

(** The decimal numeral of [n]. *)
Definition decimal (n : nat) : string := decimal_digits (S n) n EmptyString.

Definition double_quote : string := String (ascii_of_nat 34) EmptyString.

Definition proto_header : string :=
  "syntax = " +:+ double_quote +:+ "proto3" +:+ double_quote +:+ ";" +:+ nl +:+ nl.

Definition print_field (i : nat) (f : ProtoField) : string :=
  "  " +:+ (if pf_Repeated f then "repeated " else EmptyString) +:+
  pf_Type f +:+ " " +:+ pf_Name f +:+ " = " +:+ decimal i +:+ ";" +:+ nl.

Fixpoint print_fields (i : nat) (fields : list ProtoField) : string :=
  match fields with
  | [] => EmptyString
  | f :: rest => print_field i f +:+ print_fields (S i) rest
  end.

Definition print_message (m : ProtoMessage) : string :=
  "message " +:+ pm_Name m +:+ " {" +:+ nl +:+
  print_fields 1 (pm_Fields m) +:+ "}" +:+ nl.

Definition print_proto (msgs : list ProtoMessage) : string :=
  proto_header +:+ concat_strings (map print_message msgs).

(** A name that the patterns read as one word. *)
Definition identifier (s : string) : Prop :=
  is_empty s = false /\ forallb_string is_word s = true.

Definition printable (m : ProtoMessage) : Prop :=
  identifier (pm_Name m) /\
  Forall (fun f => identifier (pf_Type f) /\ identifier (pf_Name f)) (pm_Fields m).

(** The layout of the printed text. *)
Definition lay_field (i : nat) (f : ProtoField) : laid_field :=
  LaidField f "  " " " " " " " " " (decimal i) (";" +:+ nl).

Fixpoint lay_fields (i : nat) (fields : list ProtoField) : list laid_field :=
  match fields with
  | [] => []
  | f :: rest => lay_field i f :: lay_fields (S i) rest
  end.

Definition lay_message (m : ProtoMessage) : laid_message :=
  LaidMessage " " (pm_Name m) " " nl (lay_fields 1 (pm_Fields m)) nl.

(** * File handles

    [handles_closed evs]: in the events [evs], every file that is created
    is executed into and closed by the next two events. *)
Fixpoint handles_closed (evs : list event) : Prop :=
  match evs with
  | [] => True
  | ev :: rest =>
      (ev_op ev = OpCreate -> ev_err ev = None ->
       exists r c rest',
         rest = Event OpExecute (ev_path ev) r
                :: Event OpClose (ev_path ev) c :: rest') /\
      handles_closed rest
  end.

(** The files opened and the files closed, in order. *)
Definition opened (evs : list event) : list string :=
  map ev_path
      (List.filter (fun ev => match ev_op ev, ev_err ev with
                         | OpCreate, None => true
                         | _, _ => false
                         end) evs).

Definition closed (evs : list event) : list string :=
  map ev_path
      (List.filter (fun ev => match ev_op ev with OpClose => true | _ => false end)
                   evs).

(** * Properties *)

(** ** Strings *)

Lemma append_nil_r (s : string) : s +:+ EmptyString = s.
Proof. induction s as [|c s IH]; simpl; [reflexivity | now rewrite IH]. Qed.

Lemma append_assoc (a b c : string) : (a +:+ b) +:+ c = a +:+ (b +:+ c).
Proof. induction a as [|x a IH]; simpl; [reflexivity | now rewrite IH]. Qed.

Lemma append_length (a b : string) :
  String.length (a +:+ b) = String.length a + String.length b.
Proof. induction a as [|x a IH]; simpl; [reflexivity | now rewrite IH]. Qed.

Lemma append_inv_head (a b c : string) : a +:+ b = a +:+ c -> b = c.
Proof.
  induction a as [|x a IH]; simpl; intros H; [assumption|].
  injection H as H. now apply IH.
Qed.

Lemma is_empty_true (s : string) : is_empty s = true <-> s = EmptyString.
Proof. destruct s; simpl; split; intros H; congruence. Qed.

Lemma concat_strings_app (l1 l2 : list string) :
  concat_strings (l1 ++ l2) = concat_strings l1 +:+ concat_strings l2.
Proof.
  induction l1 as [|x l1 IH]; simpl; [reflexivity|].
  now rewrite IH, append_assoc.
Qed.

Lemma forallb_string_app (p : ascii -> bool) (a b : string) :
  forallb_string p (a +:+ b) = forallb_string p a && forallb_string p b.
Proof.
  induction a as [|c a IH]; simpl; [reflexivity|].
  now rewrite IH, andb_assoc.
Qed.

Lemma forallb_string_impl (p q : ascii -> bool) (s : string) :
  (forall c, p c = true -> q c = true) ->
  forallb_string p s = true -> forallb_string q s = true.
Proof.
  intros H. induction s as [|c s IH]; simpl; [trivial|].
  intros E. apply andb_true_iff in E. destruct E as [E1 E2].
  now rewrite (H c E1), (IH E2).
Qed.

Lemma rev_string_onto_spec (s : string) :
  forall acc, rev_string_onto s acc = rev_string s +:+ acc.
Proof.
  unfold rev_string. induction s as [|c s IH]; intros acc; simpl; [reflexivity|].
  rewrite (IH (String c acc)), (IH (String c EmptyString)).
  now rewrite append_assoc.
Qed.

Lemma rev_string_cons (c : ascii) (s : string) :
  rev_string (String c s) = rev_string s +:+ String c EmptyString.
Proof. unfold rev_string at 1. simpl. apply rev_string_onto_spec. Qed.

Lemma rev_string_app (a b : string) :
  rev_string (a +:+ b) = rev_string b +:+ rev_string a.
Proof.
  induction a as [|c a IH]; simpl.
  - change (rev_string EmptyString) with EmptyString. now rewrite append_nil_r.
  - rewrite !rev_string_cons, IH. now rewrite append_assoc.
Qed.

Lemma rev_string_involutive (s : string) : rev_string (rev_string s) = s.
Proof.
  induction s as [|c s IH]; [reflexivity|].
  rewrite rev_string_cons, rev_string_app, IH. reflexivity.
Qed.

Lemma forallb_string_rev (p : ascii -> bool) (s : string) :
  forallb_string p (rev_string s) = forallb_string p s.
Proof.
  induction s as [|c s IH]; [reflexivity|].
  rewrite rev_string_cons, forallb_string_app, IH. simpl.
  rewrite andb_true_r. apply andb_comm.
Qed.

Lemma take_drop_while (p : ascii -> bool) (s : string) :
  s = take_while p s +:+ drop_while p s.
Proof.
  induction s as [|c s IH]; simpl; [reflexivity|].
  destruct (p c); simpl; [now rewrite <- IH | reflexivity].
Qed.

Lemma take_while_all (p : ascii -> bool) (s : string) :
  forallb_string p (take_while p s) = true.
Proof.
  induction s as [|c s IH]; simpl; [reflexivity|].
  destruct (p c) eqn:E; simpl; [now rewrite E | reflexivity].
Qed.

Lemma drop_while_head (p : ascii -> bool) (s : string) :
  match drop_while p s with
  | EmptyString => forallb_string p s = true
  | String c _ => p c = false
  end.
Proof.
  induction s as [|c s IH]; simpl; [reflexivity|].
  destruct (p c) eqn:E; simpl; [exact IH | exact E].
Qed.

Lemma drop_while_all (p : ascii -> bool) (s : string) :
  forallb_string p s = true -> drop_while p s = EmptyString.
Proof.
  induction s as [|c s IH]; simpl; [reflexivity|].
  destruct (p c); simpl; [exact IH | discriminate].
Qed.

Lemma forallb_drop_while (p q : ascii -> bool) (s : string) :
  forallb_string p s = true -> forallb_string p (drop_while q s) = true.
Proof.
  induction s as [|c s IH]; simpl; [trivial|].
  intros H. destruct (q c); [|exact H].
  apply andb_true_iff in H. now apply IH.
Qed.

Lemma is_empty_rev (s : string) : is_empty (rev_string s) = is_empty s.
Proof.
  destruct s as [|c s]; [reflexivity|].
  rewrite rev_string_cons. now destruct (rev_string s).
Qed.

Lemma substring_middle (u v w : string) :
  substring (String.length u) (String.length v) (u +:+ v +:+ w) = v.
Proof.
  induction u as [|c u IH]; simpl; [|exact IH].
  induction v as [|c v IHv]; simpl.
  - now destruct w.
  - now rewrite IHv.
Qed.

Lemma contains_refl (s : string) : contains s s.
Proof. exists EmptyString, EmptyString. simpl. now rewrite append_nil_r. Qed.

Lemma contains_append_l (s pre sub : string) :
  contains s sub -> contains (pre +:+ s) sub.
Proof.
  intros (a & b & ->). exists (pre +:+ a), b. now rewrite append_assoc.
Qed.

Lemma contains_append_r (s post sub : string) :
  contains s sub -> contains (s +:+ post) sub.
Proof.
  intros (a & b & ->). exists a, (b +:+ post).
  now rewrite !append_assoc.
Qed.

Lemma contains_middle (a s b sub : string) :
  contains s sub -> contains (a +:+ s +:+ b) sub.
Proof. intros H. apply contains_append_l, contains_append_r, H. Qed.

Lemma contains_concat (l : list string) (x sub : string) :
  In x l -> contains x sub -> contains (concat_strings l) sub.
Proof.
  induction l as [|y l IH]; simpl; [intros []|].
  intros [->|Hin] Hc.
  - now apply contains_append_r.
  - apply contains_append_l. now apply IH.
Qed.

(** ** The matcher only moves forward *)

Lemma reaches_refl (st : mstate) : reaches st st.
Proof.
  split.
  - exists EmptyString. simpl. split; [reflexivity | lia].
  - exists []. split; [reflexivity | constructor].
Qed.

Lemma reaches_pos (st st' : mstate) : reaches st st' -> m_pos st <= m_pos st'.
Proof. intros [(c & _ & ->) _]. lia. Qed.

Lemma span_within_mono (lo hi lo' hi' : nat) (b : nat * (nat * nat)) :
  lo' <= lo -> hi <= hi' -> span_within lo hi b -> span_within lo' hi' b.
Proof. unfold span_within. lia. Qed.

Lemma reaches_trans (a b c : mstate) : reaches a b -> reaches b c -> reaches a c.
Proof.
  intros Hab Hbc.
  pose proof (reaches_pos _ _ Hab) as Pab.
  pose proof (reaches_pos _ _ Hbc) as Pbc.
  destruct Hab as [(c1 & R1 & P1) (b1 & C1 & F1)].
  destruct Hbc as [(c2 & R2 & P2) (b2 & C2 & F2)].
  split.
  - exists (c1 +:+ c2). rewrite R1, R2, append_assoc, append_length.
    split; [reflexivity | lia].
  - exists (b2 ++ b1). split.
    + rewrite C2, C1. now rewrite app_assoc.
    + apply Forall_app. split.
      * eapply Forall_impl; [exact F2|]. intros x. apply span_within_mono; lia.
      * eapply Forall_impl; [exact F1|]. intros x. apply span_within_mono; lia.
Qed.

Lemma step_byte_reaches (p : ascii -> bool) (st st' : mstate) :
  In st' (step_byte p st) -> reaches st st' /\ m_pos st < m_pos st'.
Proof.
  destruct st as [pos rest caps]. unfold step_byte. simpl.
  destruct rest as [|c s']; simpl; [intros []|].
  destruct (p c); simpl; [|intros []].
  intros [<-|[]]. simpl. split; [|lia]. split; simpl.
  - exists (String c EmptyString). simpl. split; [reflexivity | lia].
  - exists []. split; [reflexivity | constructor].
Qed.

Lemma iterate_reaches (body : mstate -> list mstate) :
  (forall x y, In y (body x) -> reaches x y) ->
  forall fuel st st', In st' (iterate body fuel st) -> reaches st st'.
Proof.
  intros Hbody. induction fuel as [|fuel IH]; simpl; intros st st' Hin.
  - destruct Hin as [<-|[]]. apply reaches_refl.
  - apply in_app_iff in Hin. destruct Hin as [Hin|[<-|[]]].
    + apply in_flat_map in Hin. destruct Hin as (mid & Hmid & Hin).
      destruct (m_pos st <? m_pos mid); [|destruct Hin].
      eapply reaches_trans; [apply Hbody; eassumption | apply IH; assumption].
    + apply reaches_refl.
Qed.

Lemma run_reaches (r : regex) :
  forall st st', In st' (run r st) -> reaches st st'.
Proof.
  induction r as [| c | k | a IHa b IHb | a IHa | a IHa | a IHa | i a IHa];
    simpl; intros st st' Hin.
  - destruct Hin as [<-|[]]. apply reaches_refl.
  - now apply step_byte_reaches in Hin.
  - now apply step_byte_reaches in Hin.
  - apply in_flat_map in Hin. destruct Hin as (mid & Hmid & Hin).
    eapply reaches_trans; eauto.
  - apply in_app_iff in Hin. destruct Hin as [Hin|[<-|[]]]; auto using reaches_refl.
  - eapply iterate_reaches; eauto.
  - apply in_flat_map in Hin. destruct Hin as (mid & Hmid & Hin).
    eapply reaches_trans; [eauto|]. eapply iterate_reaches; eauto.
  - apply in_map_iff in Hin. destruct Hin as (x & <- & Hin).
    pose proof (IHa _ _ Hin) as Hr.
    pose proof (reaches_pos _ _ Hr) as Hp.
    destruct Hr as [Hc (bound & C & F)]. split; simpl; [exact Hc|].
    exists ((i, (m_pos st, m_pos x)) :: bound). split.
    + simpl. now rewrite C.
    + constructor; [|exact F]. unfold span_within. simpl. lia.
Qed.

Lemma flat_map_ext_in {A B : Type} (f g : A -> list B) (l : list A) :
  (forall a, In a l -> f a = g a) -> flat_map f l = flat_map g l.
Proof.
  induction l as [|x l IH]; simpl; intros H; [reflexivity|].
  rewrite (H x) by now left. rewrite IH; [reflexivity|].
  intros a Ha. apply H. now right.
Qed.

Lemma flat_map_nil {A B : Type} (l : list A) :
  flat_map (fun _ : A => @nil B) l = [].
Proof. induction l; simpl; trivial. Qed.

(** The fuel of [iterate] is never the reason to stop: once it covers the
    remaining input, more fuel gives the same matches. *)
Lemma iterate_more_fuel (body : mstate -> list mstate) :
  (forall x y, In y (body x) -> reaches x y) ->
  forall fuel st,
    String.length (m_rest st) <= fuel ->
    iterate body (S fuel) st = iterate body fuel st.
Proof.
  intros Hbody. induction fuel as [|fuel IH]; intros st Hlen.
  - change (iterate body 0 st) with ([] ++ [st]).
    change (iterate body 1 st)
      with (flat_map (fun st' => if m_pos st <? m_pos st'
                                 then iterate body 0 st' else []) (body st)
            ++ [st]).
    f_equal. transitivity (flat_map (fun _ : mstate => @nil mstate) (body st));
      [|apply flat_map_nil].
    apply flat_map_ext_in. intros y Hy.
    destruct (Hbody _ _ Hy) as [(c & R & P) _].
    assert (String.length c = 0).
    { apply (f_equal String.length) in R. rewrite append_length in R. lia. }
    replace (m_pos st <? m_pos y) with false; [reflexivity|].
    symmetry. apply Nat.ltb_ge. lia.
  - change (iterate body (S (S fuel)) st)
      with (flat_map (fun st' => if m_pos st <? m_pos st'
                                 then iterate body (S fuel) st' else []) (body st)
            ++ [st]).
    change (iterate body (S fuel) st)
      with (flat_map (fun st' => if m_pos st <? m_pos st'
                                 then iterate body fuel st' else []) (body st)
            ++ [st]).
    f_equal. apply flat_map_ext_in. intros y Hy.
    destruct (m_pos st <? m_pos y) eqn:E; [|reflexivity].
    apply Nat.ltb_lt in E. apply IH.
    destruct (Hbody _ _ Hy) as [(c & R & P) _].
    apply (f_equal String.length) in R. rewrite append_length in R. lia.
Qed.

Lemma iterate_enough_fuel (body : mstate -> list mstate) :
  (forall x y, In y (body x) -> reaches x y) ->
  forall extra st,
    iterate body (String.length (m_rest st) + extra) st =
    iterate body (String.length (m_rest st)) st.
Proof.
  intros Hbody. induction extra as [|extra IH]; intros st.
  - now rewrite Nat.add_0_r.
  - rewrite Nat.add_succ_r, iterate_more_fuel by (assumption || lia).
    apply IH.
Qed.

(** A pattern that is not [nullable] consumes at least one byte on every
    path. *)
Lemma run_consumes (r : regex) :
  nullable r = false ->
  forall st st', In st' (run r st) -> m_pos st < m_pos st'.
Proof.
  induction r as [| c | k | a IHa b IHb | a IHa | a IHa | a IHa | i a IHa];
    simpl; intros Hn st st' Hin; try discriminate.
  - now apply step_byte_reaches in Hin.
  - now apply step_byte_reaches in Hin.
  - apply in_flat_map in Hin. destruct Hin as (mid & Hmid & Hin).
    pose proof (reaches_pos _ _ (run_reaches _ _ _ Hmid)).
    pose proof (reaches_pos _ _ (run_reaches _ _ _ Hin)).
    apply andb_false_iff in Hn. destruct Hn as [Hn|Hn].
    + specialize (IHa Hn _ _ Hmid). lia.
    + specialize (IHb Hn _ _ Hin). lia.
  - apply in_flat_map in Hin. destruct Hin as (mid & Hmid & Hin).
    specialize (IHa Hn _ _ Hmid).
    pose proof (reaches_pos _ _
      (iterate_reaches _ (run_reaches a) _ _ _ Hin)). lia.
  - apply in_map_iff in Hin. destruct Hin as (x & <- & Hin). simpl.
    now apply (IHa Hn).
Qed.

Lemma exec_at_reaches (re : regex) (pos : nat) (s : string) stop caps :
  exec_at re pos s = Some (stop, caps) ->
  pos <= stop /\ stop <= pos + String.length s /\
  Forall (span_within pos stop) caps.
Proof.
  unfold exec_at. destruct (run re (MState pos s [])) as [|st l] eqn:E; [discriminate|].
  intros [= <- <-].
  assert (Hin : In st (run re (MState pos s []))) by (rewrite E; now left).
  apply run_reaches in Hin.
  pose proof (reaches_pos _ _ Hin) as Hp. simpl in Hp.
  destruct Hin as [(c & R & P) (bound & C & F)]. simpl in *.
  split; [lia|]. split.
  - rewrite R, append_length. lia.
  - rewrite C, app_nil_r. exact F.
Qed.

Lemma exec_at_consumes (re : regex) (pos : nat) (s : string) stop caps :
  nullable re = false -> exec_at re pos s = Some (stop, caps) -> pos < stop.
Proof.
  intros Hn. unfold exec_at.
  destruct (run re (MState pos s [])) as [|st l] eqn:E; [discriminate|].
  intros [= <- <-].
  apply (run_consumes re Hn (MState pos s []) st). rewrite E. now left.
Qed.

(** Neither pattern of the program has an empty match. *)
Lemma messageRe_nonempty : nullable messageRe = false.
Proof. reflexivity. Qed.

Lemma fieldRe_nonempty : nullable fieldRe = false.
Proof. reflexivity. Qed.

(** ** FindAll reports the matches from left to right *)

Lemma cap_get_within (lo hi i : nat) caps x y :
  Forall (span_within lo hi) caps -> cap_get i caps = Some (x, y) ->
  lo <= x /\ x <= y /\ y <= hi.
Proof.
  induction caps as [|[j sp] caps IH]; simpl; intros F H; [discriminate|].
  apply Forall_cons in F. destruct F as [Hsp F].
  destruct (i =? j).
  - injection H as ->. exact Hsp.
  - now apply IH.
Qed.

Lemma mk_submatch_within (re : regex) (pos stop : nat) caps :
  Forall (span_within pos stop) caps ->
  groups_within (mk_submatch re pos stop caps).
Proof.
  intros F. unfold mk_submatch, groups_within.
  apply Forall_forall. intros g Hg.
  apply list_elem_of_In, in_map_iff in Hg. destruct Hg as (i & <- & _).
  destruct (cap_get i caps) as [[x y]|] eqn:E; [|exact I].
  eapply cap_get_within; eassumption.
Qed.

Lemma laid_out_from_le (from from' upto : nat) spans :
  from' <= from -> laid_out from spans upto -> laid_out from' spans upto.
Proof.
  destruct spans as [|[a b] rest]; simpl; [trivial|].
  intros Hle (H1 & H2 & H3 & H4). repeat split; try assumption; lia.
Qed.

Lemma scan_laid_out (re : regex) :
  nullable re = false ->
  forall s pos skip prev,
    laid_out (pos + skip) (map span_of (scan re s pos skip prev))
             (pos + String.length s) /\
    Forall groups_within (scan re s pos skip prev) /\
    Forall (fun m => length m = S (num_cap re)) (scan re s pos skip prev).
Proof.
  intros Hn. induction s as [|c s IH]; intros pos skip prev.
  - destruct skip; simpl; [|repeat split; constructor].
    destruct (exec_at re pos EmptyString) as [[stop caps]|] eqn:E;
      [|repeat split; constructor].
    pose proof (exec_at_consumes _ _ _ _ _ Hn E).
    pose proof (exec_at_reaches _ _ _ _ _ E) as (_ & Hle & _).
    simpl in Hle. lia.
  - destruct skip as [|skip]; simpl.
    + destruct (exec_at re pos (String c s)) as [[stop caps]|] eqn:E.
      * pose proof (exec_at_consumes _ _ _ _ _ Hn E) as Hlt.
        pose proof (exec_at_reaches _ _ _ _ _ E) as (_ & Hle & Hcaps).
        simpl in Hle.
        replace (stop =? pos) with false by (symmetry; apply Nat.eqb_neq; lia).
        simpl.
        destruct (IH (S pos) (stop - pos - 1) (Some stop)) as (L & G & N).
        replace (S pos + (stop - pos - 1)) with stop in L by lia.
        replace (S pos + String.length s) with (pos + S (String.length s)) in L by lia.
        repeat split; try assumption; try lia.
        -- constructor; [now apply mk_submatch_within | assumption].
        -- constructor; [|assumption].
           unfold mk_submatch. simpl. now rewrite length_map, length_seq.
      * destruct (IH (S pos) 0 prev) as (L & G & N).
        replace (S pos + String.length s) with (pos + S (String.length s)) in L by lia.
        repeat split; try assumption.
        eapply laid_out_from_le; [|exact L]. lia.
    + destruct (IH (S pos) skip prev) as (L & G & N).
      replace (S pos + skip) with (pos + S skip) in L by lia.
      replace (S pos + String.length s) with (pos + S (String.length s)) in L by lia.
      repeat split; assumption.
Qed.

Lemma FindAll_laid_out (re : regex) (text : string) :
  nullable re = false ->
  laid_out 0 (map span_of (FindAllStringSubmatchIndex re text))
           (String.length text) /\
  Forall groups_within (FindAllStringSubmatchIndex re text) /\
  Forall (fun m => length m = S (num_cap re))
         (FindAllStringSubmatchIndex re text).
Proof. intros Hn. exact (scan_laid_out re Hn text 0 0 None). Qed.

(** No match in the result exactly when the pattern matches at no offset
    of the subject. *)
Lemma scan_nil_iff (re : regex) :
  nullable re = false ->
  forall s pos prev,
    scan re s pos 0 prev = [] <->
    (forall k, k <= String.length s ->
               exec_at re (pos + k) (drop_string k s) = None).
Proof.
  intros Hn. induction s as [|c s IH]; intros pos prev; simpl.
  - destruct (exec_at re pos EmptyString) as [[stop caps]|] eqn:E.
    + pose proof (exec_at_consumes _ _ _ _ _ Hn E).
      pose proof (exec_at_reaches _ _ _ _ _ E) as (_ & Hle & _).
      simpl in Hle. lia.
    + split; [|reflexivity]. intros _ k Hk.
      replace k with 0 by lia. simpl. now rewrite Nat.add_0_r.
  - destruct (exec_at re pos (String c s)) as [[stop caps]|] eqn:E.
    + pose proof (exec_at_consumes _ _ _ _ _ Hn E) as Hlt.
      replace (stop =? pos) with false by (symmetry; apply Nat.eqb_neq; lia).
      simpl. split; [discriminate|].
      intros H. specialize (H 0 (Nat.le_0_l _)). simpl in H.
      rewrite Nat.add_0_r in H. congruence.
    + rewrite IH. split; intros H k Hk.
      * destruct k as [|k]; simpl.
        -- now rewrite Nat.add_0_r.
        -- replace (pos + S k) with (S pos + k) by lia. apply H. lia.
      * specialize (H (S k)). simpl in H.
        replace (pos + S k) with (S pos + k) in H by lia. apply H. lia.
Qed.

(** ** What the groups of a match hold *)

Lemma holds_impl (g g' : nat -> ascii -> bool) (consumed : string) (pos : nat) b :
  (forall i c, g i c = true -> g' i c = true) ->
  holds g consumed pos b -> holds g' consumed pos b.
Proof.
  intros H (u & v & w & E & A & B & F). exists u, v, w.
  repeat split; try assumption. eapply forallb_string_impl; [apply H | exact F].
Qed.

Lemma holds_before (g : nat -> ascii -> bool) (c1 c2 : string) (pos : nat) b :
  holds g c1 pos b -> holds g (c1 +:+ c2) pos b.
Proof.
  intros (u & v & w & -> & A & B & F). exists u, v, (w +:+ c2).
  repeat split; try assumption. now rewrite !append_assoc.
Qed.

Lemma holds_after (g : nat -> ascii -> bool) (c1 c2 : string) (pos : nat) b :
  holds g c2 (pos + String.length c1) b -> holds g (c1 +:+ c2) pos b.
Proof.
  intros (u & v & w & -> & A & B & F). exists (c1 +:+ u), v, w.
  repeat split; try assumption.
  - now rewrite append_assoc.
  - rewrite append_length. lia.
Qed.

Lemma consumes_refl (q : ascii -> bool) (g : nat -> ascii -> bool) (st : mstate) :
  consumes q g st st.
Proof.
  exists EmptyString, []. simpl. repeat split; try reflexivity; [lia | constructor].
Qed.

Lemma consumes_impl (q q' : ascii -> bool) (g g' : nat -> ascii -> bool)
    (st st' : mstate) :
  (forall c, q c = true -> q' c = true) ->
  (forall i c, g i c = true -> g' i c = true) ->
  consumes q g st st' -> consumes q' g' st st'.
Proof.
  intros Hq Hg (consumed & bound & R & P & Fq & C & Fg).
  exists consumed, bound. repeat split; try assumption.
  - eapply forallb_string_impl; eassumption.
  - eapply Forall_impl; [exact Fg|]. intros b. now apply holds_impl.
Qed.

Lemma consumes_trans (q : ascii -> bool) (g : nat -> ascii -> bool)
    (a b c : mstate) :
  consumes q g a b -> consumes q g b c -> consumes q g a c.
Proof.
  intros (c1 & b1 & R1 & P1 & Q1 & C1 & F1) (c2 & b2 & R2 & P2 & Q2 & C2 & F2).
  exists (c1 +:+ c2), (b2 ++ b1). repeat split.
  - now rewrite R1, R2, append_assoc.
  - rewrite append_length. lia.
  - now rewrite forallb_string_app, Q1, Q2.
  - now rewrite C2, C1, app_assoc.
  - apply Forall_app. split.
    + eapply Forall_impl; [exact F2|]. intros x Hx.
      apply holds_after. now rewrite <- P1.
    + eapply Forall_impl; [exact F1|]. intros x. apply holds_before.
Qed.

Lemma step_byte_consumes (p : ascii -> bool) (g : nat -> ascii -> bool)
    (st st' : mstate) :
  In st' (step_byte p st) -> consumes p g st st'.
Proof.
  destruct st as [pos rest caps]. unfold step_byte. simpl.
  destruct rest as [|c s']; simpl; [intros []|].
  destruct (p c) eqn:E; simpl; [|intros []].
  intros [<-|[]]. exists (String c EmptyString), []. simpl.
  repeat split; try reflexivity; [lia | now rewrite E | constructor].
Qed.

Lemma iterate_consumes (q : ascii -> bool) (g : nat -> ascii -> bool)
    (body : mstate -> list mstate) :
  (forall x y, In y (body x) -> consumes q g x y) ->
  forall fuel st st', In st' (iterate body fuel st) -> consumes q g st st'.
Proof.
  intros Hbody. induction fuel as [|fuel IH]; simpl; intros st st' Hin.
  - destruct Hin as [<-|[]]. apply consumes_refl.
  - apply in_app_iff in Hin. destruct Hin as [Hin|[<-|[]]].
    + apply in_flat_map in Hin. destruct Hin as (mid & Hmid & Hin).
      destruct (m_pos st <? m_pos mid); [|destruct Hin].
      eapply consumes_trans; [apply Hbody; eassumption | apply IH; assumption].
    + apply consumes_refl.
Qed.

Lemma run_consumes_alphabet (r : regex) :
  forall st st',
    In st' (run r st) -> consumes (alphabet r) (group_alphabet r) st st'.
Proof.
  induction r as [| c | k | a IHa b IHb | a IHa | a IHa | a IHa | i a IHa];
    simpl; intros st st' Hin.
  - destruct Hin as [<-|[]]. apply consumes_refl.
  - eapply consumes_impl; [| |eapply step_byte_consumes; exact Hin];
      [trivial | intros ? ? H; exact H].
  - eapply consumes_impl; [| |eapply step_byte_consumes; exact Hin];
      [trivial | intros ? ? H; exact H].
  - apply in_flat_map in Hin. destruct Hin as (mid & Hmid & Hin).
    eapply consumes_trans.
    + eapply consumes_impl; [| |apply (IHa _ _ Hmid)]; simpl.
      * intros c ->. reflexivity.
      * intros j c ->. reflexivity.
    + eapply consumes_impl; [| |apply (IHb _ _ Hin)]; simpl.
      * intros c ->. apply orb_true_r.
      * intros j c ->. apply orb_true_r.
  - apply in_app_iff in Hin. destruct Hin as [Hin|[<-|[]]];
      [now apply IHa | apply consumes_refl].
  - eapply iterate_consumes; eauto.
  - apply in_flat_map in Hin. destruct Hin as (mid & Hmid & Hin).
    eapply consumes_trans; [eauto|]. eapply iterate_consumes; eauto.
  - apply in_map_iff in Hin. destruct Hin as (x & <- & Hin).
    destruct (IHa _ _ Hin) as (consumed & bound & R & P & Q & C & F).
    exists consumed, ((i, (m_pos st, m_pos x)) :: bound). simpl.
    repeat split; try assumption.
    + now rewrite C.
    + constructor.
      * exists EmptyString, consumed, EmptyString. simpl.
        rewrite append_nil_r, Nat.eqb_refl. simpl.
        repeat split; try lia.
        eapply forallb_string_impl; [|exact Q].
        intros c ->. reflexivity.
      * eapply Forall_impl; [exact F|]. intros b. apply holds_impl.
        intros j c ->. apply orb_true_r.
Qed.

Lemma cap_get_holds (g : nat -> ascii -> bool) (consumed : string) (pos i : nat)
    caps (span : nat * nat) :
  Forall (holds g consumed pos) caps -> cap_get i caps = Some span ->
  holds g consumed pos (i, span).
Proof.
  induction caps as [|[j sp] caps IH]; simpl; intros F H; [discriminate|].
  apply Forall_cons in F. destruct F as [Hsp F].
  destruct (Nat.eqb_spec i j) as [->|_].
  - injection H as ->. exact Hsp.
  - now apply IH.
Qed.

(** The text of a bound group of the preferred match at [pos], where the
    subject is [prefix] followed by [s]. *)
Lemma exec_at_group (re : regex) (prefix s : string) stop caps (i a b : nat) :
  exec_at re (String.length prefix) s = Some (stop, caps) ->
  cap_get i caps = Some (a, b) ->
  forallb_string (group_alphabet re i) (slice (prefix +:+ s) a b) = true.
Proof.
  unfold exec_at.
  destruct (run re (MState (String.length prefix) s [])) as [|st l] eqn:E;
    [discriminate|].
  intros [= <- <-] Hc.
  assert (Hin : In st (run re (MState (String.length prefix) s [])))
    by (rewrite E; now left).
  destruct (run_consumes_alphabet _ _ _ Hin)
    as (consumed & bound & R & P & Q & C & F). simpl in *.
  rewrite app_nil_r in C. subst bound.
  destruct (cap_get_holds _ _ _ _ _ _ F Hc) as (u & v & w & -> & A & B & Fv).
  simpl in A, B. subst a b s. unfold slice.
  replace (String.length prefix + String.length u + String.length v
           - (String.length prefix + String.length u))
    with (String.length v) by lia.
  rewrite <- append_length.
  replace (prefix +:+ (u +:+ v +:+ w) +:+ m_rest st)
    with ((prefix +:+ u) +:+ v +:+ (w +:+ m_rest st))
    by (now rewrite !append_assoc).
  now rewrite substring_middle.
Qed.

Lemma mk_submatch_nth (re : regex) (pos stop : nat) caps (k : nat) span :
  nth (S k) (mk_submatch re pos stop caps) None = Some span ->
  cap_get (S k) caps = Some span.
Proof.
  unfold mk_submatch. simpl.
  destruct (Nat.lt_ge_cases k (num_cap re)) as [Hlt|Hge].
  - rewrite (nth_indep _ None (cap_get 0 caps))
      by (now rewrite length_map, length_seq).
    rewrite (map_nth (fun i => cap_get i caps)), seq_nth by assumption.
    trivial.
  - rewrite nth_overflow by (now rewrite length_map, length_seq).
    discriminate.
Qed.

Lemma scan_groups_hold (re : regex) :
  forall s prefix skip prev,
    Forall (groups_hold re (prefix +:+ s))
           (scan re s (String.length prefix) skip prev).
Proof.
  induction s as [|c s IH]; intros prefix skip prev.
  - destruct skip; simpl; [|constructor].
    destruct (exec_at re (String.length prefix) EmptyString) as [[stop caps]|] eqn:E;
      [|constructor].
    destruct ((stop =? String.length prefix) && _); constructor; [|constructor].
    intros i a b H. apply mk_submatch_nth in H.
    eapply exec_at_group; eassumption.
  - assert (Hnext : forall skip' prev',
               Forall (groups_hold re (prefix +:+ String c s))
                      (scan re s (S (String.length prefix)) skip' prev')).
    { intros skip' prev'.
      specialize (IH (prefix +:+ String c EmptyString) skip' prev').
      rewrite append_length, append_assoc in IH. simpl in IH.
      now rewrite Nat.add_1_r in IH. }
    destruct skip as [|skip]; simpl; [|apply Hnext].
    destruct (exec_at re (String.length prefix) (String c s)) as [[stop caps]|] eqn:E;
      [|apply Hnext].
    destruct ((stop =? String.length prefix) && _); [apply Hnext|].
    constructor; [|apply Hnext].
    intros i a b H. apply mk_submatch_nth in H.
    eapply exec_at_group; eassumption.
Qed.

Lemma FindAll_groups_hold (re : regex) (text : string) :
  Forall (groups_hold re text) (FindAllStringSubmatchIndex re text).
Proof. exact (scan_groups_hold re text EmptyString 0 None). Qed.

Lemma group_text (re : regex) (text : string) (m : submatch_index) (i : nat)
    (q : ascii -> bool) :
  groups_hold re text m ->
  (forall c, group_alphabet re (S i) c = true -> q c = true) ->
  forallb_string q (submatch_string text (nth (S i) m None)) = true.
Proof.
  intros H Hq. destruct (nth (S i) m None) as [[a b]|] eqn:E; [|reflexivity].
  simpl. eapply forallb_string_impl; [exact Hq|]. now apply H.
Qed.

Ltac by_cases_on_byte c :=
  destruct c as [[] [] [] [] [] [] [] []]; vm_compute; intros; congruence.

Lemma messageRe_name_alphabet (c : ascii) :
  group_alphabet messageRe 1 c = true -> is_word c = true.
Proof. by_cases_on_byte c. Qed.

Lemma fieldRe_repeated_alphabet (c : ascii) :
  group_alphabet fieldRe 1 c = true -> is_ascii c = true.
Proof. by_cases_on_byte c. Qed.

Lemma fieldRe_type_alphabet (c : ascii) :
  group_alphabet fieldRe 2 c = true -> is_word c = true.
Proof. by_cases_on_byte c. Qed.

Lemma fieldRe_name_alphabet (c : ascii) :
  group_alphabet fieldRe 3 c = true -> is_word c = true.
Proof. by_cases_on_byte c. Qed.

Lemma is_word_ascii (c : ascii) : is_word c = true -> is_ascii c = true.
Proof. by_cases_on_byte c. Qed.

(** ** ToLower and TrimSpace on ASCII text *)

(** On such a name [strings.ToLower] is the ASCII lowering. *)
Lemma ToLower_word (s : string) :
  forallb_string is_word s = true -> ToLower s = map_string lower_byte s.
Proof.
  intros H. unfold ToLower.
  now rewrite (forallb_string_impl _ _ _ is_word_ascii H).
Qed.

Lemma trim_ascii_space_ascii (s : string) :
  forallb_string is_ascii s = true ->
  trim_ascii_space s = inr (drop_while asciiSpace s).
Proof.
  induction s as [|c s IH]; simpl; [reflexivity|].
  intros H. apply andb_true_iff in H. destruct H as [Hc Hs].
  rewrite Hc. simpl. destruct (asciiSpace c); [now apply IH | reflexivity].
Qed.

(** On ASCII text [strings.TrimSpace] never leaves its fast path. *)
Lemma TrimSpace_ascii (s : string) :
  forallb_string is_ascii s = true -> TrimSpace s = trim_ascii s.
Proof.
  intros H. unfold TrimSpace, trim_ascii.
  rewrite (trim_ascii_space_ascii s H).
  rewrite trim_ascii_space_ascii; [reflexivity|].
  rewrite forallb_string_rev. now apply forallb_drop_while.
Qed.

(** ** Paths: distinct names under one directory are distinct files *)

Lemma split_path_nonnil (s : string) : split_path s <> [].
Proof.
  destruct s as [|c s]; simpl; [discriminate|].
  destruct (is_sep c); [discriminate|].
  destruct (split_path s); discriminate.
Qed.

Lemma split_path_append (a b : string) :
  split_path (a +:+ String Separator b) = split_path a ++ split_path b.
Proof.
  induction a as [|c a IH]; simpl.
  - reflexivity.
  - destruct (is_sep c); rewrite IH; [reflexivity|].
    pose proof (split_path_nonnil a).
    destruct (split_path a); [congruence | reflexivity].
Qed.

Lemma split_path_slash_free (s : string) :
  slash_free s = true -> split_path s = [s].
Proof.
  unfold slash_free. induction s as [|c s IH]; simpl; [reflexivity|].
  intros H. apply andb_true_iff in H. destruct H as [Hc Hs].
  apply negb_true_iff in Hc. rewrite Hc, (IH Hs). reflexivity.
Qed.

Lemma split_path_parts (s : string) :
  Forall (fun e => slash_free e = true) (split_path s).
Proof.
  induction s as [|c s IH]; simpl.
  - repeat constructor.
  - destruct (is_sep c) eqn:E.
    + constructor; [reflexivity | assumption].
    + destruct (split_path s) as [|x xs].
      * repeat constructor. unfold slash_free. simpl. now rewrite E.
      * apply Forall_cons in IH. destruct IH as [Hx Hxs].
        constructor; [|assumption]. unfold slash_free in *. simpl.
        now rewrite E, Hx.
Qed.

Lemma join_path_cons (e e' : string) (rest : list string) :
  join_path (e :: e' :: rest) = e +:+ String Separator (join_path (e' :: rest)).
Proof. reflexivity. Qed.

Lemma split_join_path (l : list string) :
  l <> [] -> Forall (fun e => slash_free e = true) l ->
  split_path (join_path l) = l.
Proof.
  induction l as [|e l IH]; [congruence|]. intros _ F.
  apply Forall_cons in F. destruct F as [He F].
  destruct l as [|e' rest].
  - simpl. now apply split_path_slash_free.
  - rewrite join_path_cons, split_path_append, split_path_slash_free by assumption.
    rewrite IH by (assumption || discriminate). reflexivity.
Qed.

Lemma join_path_inj (l1 l2 : list string) :
  l1 <> [] -> l2 <> [] ->
  Forall (fun e => slash_free e = true) l1 ->
  Forall (fun e => slash_free e = true) l2 ->
  join_path l1 = join_path l2 -> l1 = l2.
Proof.
  intros N1 N2 F1 F2 E.
  rewrite <- (split_join_path l1 N1 F1), <- (split_join_path l2 N2 F2).
  now rewrite E.
Qed.

Lemma simple_name_spec (n : string) :
  simple_name n = true ->
  is_empty n = false /\ slash_free n = true /\
  (n =? ".")%string = false /\ (n =? "..")%string = false.
Proof.
  unfold simple_name. intros H.
  repeat (apply andb_true_iff in H; destruct H as [H ?]).
  repeat split; try assumption; now apply negb_true_iff.
Qed.

Lemma clean_step_simple (rooted : bool) (stack : list string) (n : string) :
  simple_name n = true -> clean_step rooted stack n = n :: stack.
Proof.
  intros H. apply simple_name_spec in H. destruct H as (E & _ & D1 & D2).
  unfold clean_step. now rewrite E, D1, D2.
Qed.

Lemma clean_fold_simple (rooted : bool) (names : list string) :
  Forall (fun n => simple_name n = true) names ->
  forall stack,
    fold_left (clean_step rooted) names stack = rev names ++ stack.
Proof.
  induction names as [|n names IH]; intros F stack; simpl; [reflexivity|].
  apply Forall_cons in F. destruct F as [Hn F].
  rewrite clean_step_simple, IH by assumption.
  now rewrite <- app_assoc.
Qed.

Lemma clean_step_slash_free (rooted : bool) (stack : list string) (e : string) :
  slash_free e = true ->
  Forall (fun x => slash_free x = true) stack ->
  Forall (fun x => slash_free x = true) (clean_step rooted stack e).
Proof.
  intros He F. unfold clean_step.
  destruct (is_empty e || (e =? ".")%string); [assumption|].
  destruct (e =? "..")%string.
  - destruct stack as [|top below].
    + destruct rooted; repeat constructor. assumption.
    + destruct (top =? "..")%string.
      * constructor; assumption.
      * apply Forall_cons in F. now destruct F.
  - constructor; assumption.
Qed.

Lemma clean_fold_slash_free (rooted : bool) (elems : list string) :
  Forall (fun x => slash_free x = true) elems ->
  forall stack,
    Forall (fun x => slash_free x = true) stack ->
    Forall (fun x => slash_free x = true)
           (fold_left (clean_step rooted) elems stack).
Proof.
  induction elems as [|e elems IH]; intros F stack Fs; simpl; [assumption|].
  apply Forall_cons in F. destruct F as [He F].
  apply IH; [assumption|]. now apply clean_step_slash_free.
Qed.

Lemma join_path_nonempty (l names : list string) :
  names <> [] -> Forall (fun n => simple_name n = true) names ->
  is_empty (join_path (l ++ names)) = false.
Proof.
  intros N F. induction l as [|e l IH].
  - simpl. destruct names as [|n rest]; [congruence|].
    apply Forall_cons in F. destruct F as [Hn _].
    apply simple_name_spec in Hn. destruct Hn as (E & _).
    destruct rest; simpl; [assumption|].
    destruct n; [discriminate | reflexivity].
  - destruct (l ++ names) as [|x xs] eqn:E.
    + apply app_eq_nil in E. destruct E. congruence.
    + change ((e :: l) ++ names) with (e :: (l ++ names)). rewrite E.
      rewrite join_path_cons. destruct e; reflexivity.
Qed.

(** The shape of a joined path: a prefix and a list of cleaned elements
    that depend on the directory only, followed by the names. *)
Lemma Join_simple_names (dir : string) :
  exists (pre : string) (elems : list string),
    Forall (fun e => slash_free e = true) elems /\
    forall names,
      names <> [] -> Forall (fun n => simple_name n = true) names ->
      Join (dir :: names) = pre +:+ join_path (elems ++ names).
Proof.
  destruct dir as [|c dir].
  - exists EmptyString, []. split; [constructor|].
    intros names N F. simpl.
    destruct names as [|n rest]; [congruence|].
    pose proof F as F'. apply Forall_cons in F'. destruct F' as [Hn _].
    apply simple_name_spec in Hn. destruct Hn as (E & SF & _).
    cbn [Join]. rewrite E. unfold Clean.
    assert (Fs : Forall (fun e => slash_free e = true) (n :: rest)).
    { eapply Forall_impl; [exact F|]. intros x Hx.
      now apply simple_name_spec in Hx. }
    destruct (join_path (n :: rest)) as [|c0 s0] eqn:J.
    { pose proof (join_path_nonempty [] (n :: rest) N F) as Hne.
      simpl app in Hne. rewrite J in Hne. discriminate. }
    assert (Hroot : is_sep c0 = false).
    { destruct n as [|c1 n1]; [discriminate|].
      unfold slash_free in SF. simpl in SF.
      apply andb_true_iff in SF. destruct SF as [SF _].
      apply negb_true_iff in SF.
      destruct rest; simpl in J; injection J as -> _; assumption. }
    rewrite Hroot, <- J, split_join_path by assumption.
    rewrite clean_fold_simple by assumption.
    rewrite app_nil_r, rev_involutive.
    pose proof (join_path_nonempty [] (n :: rest) N F) as Hne.
    simpl app in Hne. now rewrite Hne.
  - set (rooted := is_sep c).
    set (stack := fold_left (clean_step rooted) (split_path (String c dir)) []).
    exists (if rooted then String Separator EmptyString else EmptyString),
           (rev stack).
    split.
    { apply Forall_rev. apply clean_fold_slash_free; [|constructor].
      apply split_path_parts. }
    intros names N F.
    assert (Fs : Forall (fun e => slash_free e = true) names).
    { eapply Forall_impl; [exact F|]. intros x Hx.
      now apply simple_name_spec in Hx. }
    cbn [Join is_empty]. unfold Clean.
    destruct names as [|n rest]; [congruence|].
    rewrite join_path_cons.
    change (String c dir +:+ String Separator (join_path (n :: rest)))
      with (String c (dir +:+ String Separator (join_path (n :: rest)))).
    cbv iota. fold rooted.
    change (String c (dir +:+ String Separator (join_path (n :: rest))))
      with (String c dir +:+ String Separator (join_path (n :: rest))).
    rewrite split_path_append, split_join_path by assumption.
    rewrite fold_left_app. fold stack.
    rewrite clean_fold_simple by assumption.
    rewrite rev_app_distr, rev_involutive.
    destruct rooted; [reflexivity|].
    now rewrite (join_path_nonempty (rev stack) (n :: rest) N F).
Qed.

Lemma Join_inj (dir : string) (l1 l2 : list string) :
  l1 <> [] -> l2 <> [] ->
  Forall (fun n => simple_name n = true) l1 ->
  Forall (fun n => simple_name n = true) l2 ->
  Join (dir :: l1) = Join (dir :: l2) -> l1 = l2.
Proof.
  intros N1 N2 F1 F2 E.
  destruct (Join_simple_names dir) as (pre & elems & Fe & J).
  rewrite (J l1 N1 F1), (J l2 N2 F2) in E.
  apply append_inv_head in E.
  assert (S1 : Forall (fun e => slash_free e = true) l1).
  { eapply Forall_impl; [exact F1|]. intros x Hx. now apply simple_name_spec in Hx. }
  assert (S2 : Forall (fun e => slash_free e = true) l2).
  { eapply Forall_impl; [exact F2|]. intros x Hx. now apply simple_name_spec in Hx. }
  apply join_path_inj in E.
  - now apply app_inv_head in E.
  - intros H. apply app_eq_nil in H. destruct H. congruence.
  - intros H. apply app_eq_nil in H. destruct H. congruence.
  - apply Forall_app. now split.
  - apply Forall_app. now split.
Qed.

Lemma output_names_simple :
  Forall (fun l => l <> [] /\ Forall (fun n => simple_name n = true) l)
         output_names.
Proof. repeat constructor; discriminate. Qed.

Lemma output_names_NoDup : NoDup output_names.
Proof. apply NoDup_ListNoDup. repeat constructor; simpl; intuition discriminate. Qed.

(** The nine output paths of a run are pairwise distinct. *)
Lemma output_paths_NoDup (dir : string) :
  NoDup (map (fun l => Join (dir :: l)) output_names).
Proof.
  apply (NoDup_fmap_2_strong (fun l => Join (dir :: l))); [|apply output_names_NoDup].
  intros l1 l2 H1 H2 E.
  pose proof output_names_simple as F. rewrite Forall_forall in F.
  destruct (F _ H1) as [N1 S1], (F _ H2) as [N2 S2].
  eapply Join_inj; eassumption.
Qed.

(** ** Base is the final segment of the path *)

Lemma Base_final_segment (path : string) :
  forallb_string is_sep path = false -> final_segment path (Base path).
Proof.
  intros Hns.
  assert (Hne : is_empty path = false) by (destruct path; [discriminate | reflexivity]).
  unfold Base. rewrite Hne.
  set (r := rev_string path).
  set (stripped := drop_while is_sep r).
  set (nonsep := fun c => negb (is_sep c)).
  set (seg := take_while nonsep stripped).
  assert (Hr : r = take_while is_sep r +:+ (seg +:+ drop_while nonsep stripped)).
  { unfold seg. rewrite <- (take_drop_while nonsep stripped). apply take_drop_while. }
  assert (Hseg : is_empty seg = false).
  { pose proof (drop_while_head is_sep r) as H. fold stripped in H.
    subst seg. destruct stripped as [|c s].
    - unfold r in H. rewrite forallb_string_rev in H. congruence.
    - simpl. unfold nonsep at 1. now rewrite H. }
  rewrite is_empty_rev, Hseg.
  split; [now rewrite is_empty_rev|]. split.
  - unfold slash_free. rewrite forallb_string_rev. apply take_while_all.
  - exists (rev_string (drop_while nonsep stripped)),
           (rev_string (take_while is_sep r)).
    split; [|split].
    + rewrite <- (rev_string_involutive path). fold r. rewrite Hr at 1.
      rewrite !rev_string_app. now rewrite append_assoc.
    + rewrite forallb_string_rev. apply take_while_all.
    + pose proof (drop_while_head nonsep stripped) as H.
      destruct (drop_while nonsep stripped) as [|c s]; [now left|].
      right. exists (rev_string s). rewrite rev_string_cons.
      unfold nonsep in H. apply negb_false_iff in H.
      unfold is_sep in H. apply Ascii.eqb_eq in H. now subst c.
Qed.

Lemma Base_degenerate (path : string) :
  forallb_string is_sep path = true ->
  Base path = if is_empty path then "." else String Separator EmptyString.
Proof.
  intros H. unfold Base. destruct (is_empty path); [reflexivity|].
  rewrite drop_while_all by (now rewrite forallb_string_rev).
  reflexivity.
Qed.

(** ** The six templates *)

Lemma parse_modelsTemplate : template_Parse modelsTemplate = inr modelsTree.
Proof. vm_compute. reflexivity. Qed.

Lemma parse_serializersTemplate :
  template_Parse serializersTemplate = inr serializersTree.
Proof. vm_compute. reflexivity. Qed.

Lemma parse_viewsetsTemplate : template_Parse viewsetsTemplate = inr viewsetsTree.
Proof. vm_compute. reflexivity. Qed.

Lemma parse_urlsTemplate : template_Parse urlsTemplate = inr urlsTree.
Proof. vm_compute. reflexivity. Qed.

Lemma parse_adminTemplate : template_Parse adminTemplate = inr adminTree.
Proof. vm_compute. reflexivity. Qed.

Lemma parse_appsTemplate : template_Parse appsTemplate = inr appsTree.
Proof. vm_compute. reflexivity. Qed.

Lemma walkList_cons (n : node) (l : list node) (dot : value) :
  walkList (n :: l) dot = out_seq (walk n dot) (walkList l dot).
Proof. reflexivity. Qed.

Lemma walk_IfNode (pipe : pipeline) (l e : list node) (dot : value) :
  walk (IfNode pipe l e) dot =
  match evalPipeline dot pipe with
  | inl err => out_error err
  | inr v => if truth v then walkList l dot else walkList e dot
  end.
Proof. reflexivity. Qed.

Lemma walk_RangeNode (pipe : pipeline) (l e : list node) (dot : value) :
  walk (RangeNode pipe l e) dot =
  match evalPipeline dot pipe with
  | inl err => out_error err
  | inr (VSlice []) => walkList e dot
  | inr (VSlice elems) => walkRange (walkList l) elems
  | inr _ => out_error (unsupported "range over a value that is not a slice")
  end.
Proof. reflexivity. Qed.

Lemma renders_nil (dot : value) : renders [] dot EmptyString.
Proof. exists []. split; reflexivity. Qed.

Lemma renders_eq (tree : list node) (dot : value) (s s' : string) :
  renders tree dot s -> s = s' -> renders tree dot s'.
Proof. now intros H <-. Qed.

Lemma renders_text (text : string) (l : list node) (dot : value) (s : string) :
  renders l dot s -> renders (TextNode text :: l) dot (text +:+ s).
Proof.
  intros (chunks & W & <-). exists (text :: chunks). split; [|reflexivity].
  rewrite walkList_cons, W. reflexivity.
Qed.

Lemma renders_action (pipe : pipeline) (l : list node) (dot : value) (x s : string) :
  evalPipeline dot pipe = inr (VString x) ->
  renders l dot s -> renders (ActionNode pipe :: l) dot (x +:+ s).
Proof.
  intros E (chunks & W & <-). exists (x :: chunks). split; [|reflexivity].
  rewrite walkList_cons, W. simpl. rewrite E. reflexivity.
Qed.

Lemma renders_if (pipe : pipeline) (a b l : list node) (dot v : value)
    (s1 s : string) :
  evalPipeline dot pipe = inr v ->
  renders (if truth v then a else b) dot s1 ->
  renders l dot s -> renders (IfNode pipe a b :: l) dot (s1 +:+ s).
Proof.
  intros E (c1 & W1 & <-) (chunks & W & <-). exists (c1 ++ chunks).
  split; [|apply concat_strings_app].
  rewrite walkList_cons, walk_IfNode, E, W.
  destruct (truth v); rewrite W1; reflexivity.
Qed.

Lemma walkRange_sections {A : Type} (body : list node) (f : A -> value)
    (section : A -> string) (xs : list A) :
  (forall x, renders body (f x) (section x)) ->
  exists chunks,
    walkRange (walkList body) (map f xs) = (chunks, None) /\
    concat_strings chunks = sections section xs.
Proof.
  intros Hbody. induction xs as [|x xs (chunks & W & C)]; simpl.
  - exists []. split; reflexivity.
  - destruct (Hbody x) as (c1 & W1 & C1). exists (c1 ++ chunks).
    rewrite W1, W. split; [reflexivity|].
    rewrite concat_strings_app, C1, C. reflexivity.
Qed.

Lemma renders_range {A : Type} (pipe : pipeline) (body l : list node)
    (dot : value) (f : A -> value) (section : A -> string) (xs : list A)
    (s : string) :
  evalPipeline dot pipe = inr (VSlice (map f xs)) ->
  (forall x, renders body (f x) (section x)) ->
  renders l dot s ->
  renders (RangeNode pipe body [] :: l) dot (sections section xs +:+ s).
Proof.
  intros E Hbody (chunks & W & <-).
  destruct (walkRange_sections body f section xs Hbody) as (c1 & W1 & <-).
  exists (c1 ++ chunks). split; [|apply concat_strings_app].
  rewrite walkList_cons, walk_RangeNode, E, W.
  destruct xs as [|x xs]; simpl in *.
  - injection W1 as <-. reflexivity.
  - rewrite W1. reflexivity.
Qed.

(** One step of a rendering proof: the lemma for the first node, with the
    value of its pipeline found by computation. *)
Ltac render_step :=
  first
    [ apply renders_nil
    | apply renders_text
    | eapply renders_action; [reflexivity|]
    | eapply renders_range; [reflexivity| |] ].

Ltac render_string :=
  unfold sections; simpl; rewrite ?append_nil_r; reflexivity.

Lemma renders_model_class (m : RenderedMessage) :
  renders [TextNode (nl +:+ "class "); ActionNode (field_ "Name");
           TextNode "(models.Model):";
           IfNode [[OIdent "not"; OField ["Fields"]]]
             [TextNode (nl +:+ "    pass")]
             [RangeNode (field_ "Fields")
                [TextNode (nl +:+ "    "); ActionNode (field_ "Name");
                 TextNode " = "; ActionNode (field_ "DjangoType")]
                []];
           TextNode nl]
          (value_of_message m) (model_class m).
Proof.
  destruct m as [name fields]. unfold model_class. simpl rm_Name. simpl rm_Fields.
  eapply renders_eq.
  - do 3 render_step.
    eapply renders_if with (s1 := model_body fields); [reflexivity| |].
    + destruct fields as [|f fs]; simpl truth; cbv iota.
      * eapply renders_eq; [repeat render_step | render_string].
      * eapply renders_eq.
        -- eapply renders_range with (xs := f :: fs) (section := model_field_line);
             [reflexivity| |apply renders_nil].
           intros x. eapply renders_eq; [repeat render_step | render_string].
        -- render_string.
    + repeat render_step.
  - render_string.
Qed.

Lemma renders_models (d : TemplateData) :
  renders modelsTree (value_of_data d) (models_py d).
Proof.
  eapply renders_eq.
  - unfold modelsTree. render_step.
    eapply renders_range with (section := model_class); [reflexivity| |].
    + apply renders_model_class.
    + repeat render_step.
  - unfold models_py. render_string.
Qed.

Ltac render_range sec :=
  eapply renders_range with (section := sec);
  [ reflexivity
  | intros [? ?]; eapply renders_eq; [repeat render_step | render_string]
  | ].

Lemma renders_serializers (d : TemplateData) :
  renders serializersTree (value_of_data d) (serializers_py d).
Proof.
  eapply renders_eq.
  - unfold serializersTree. render_step. render_range import_model.
    render_step. render_range serializer_class. repeat render_step.
  - unfold serializers_py. render_string.
Qed.

Lemma renders_viewsets (d : TemplateData) :
  renders viewsetsTree (value_of_data d) (viewsets_py d).
Proof.
  eapply renders_eq.
  - unfold viewsetsTree. render_step. render_range import_model_and_serializer.
    render_step. render_range viewset_class. repeat render_step.
  - unfold viewsets_py. render_string.
Qed.

Lemma renders_urls (d : TemplateData) :
  renders urlsTree (value_of_data d) (urls_py d).
Proof.
  eapply renders_eq.
  - unfold urlsTree. render_step. render_range import_viewset.
    render_step. render_range router_registration. repeat render_step.
  - unfold urls_py. render_string.
Qed.

Lemma renders_admin (d : TemplateData) :
  renders adminTree (value_of_data d) (admin_py d).
Proof.
  eapply renders_eq.
  - unfold adminTree. render_step. render_range import_model.
    render_step. render_range admin_registration. repeat render_step.
  - unfold admin_py. render_string.
Qed.

Lemma renders_apps (d : TemplateData) :
  renders appsTree (value_of_data d) (apps_py d).
Proof.
  destruct d as [name title msgs].
  eapply renders_eq.
  - unfold appsTree. repeat render_step.
  - unfold apps_py. render_string.
Qed.

(** Every entry of [files] parses, and its tree renders the closed form. *)
Lemma rendered_files_correct (d : TemplateData) :
  Forall2 (fun nt r =>
             fst nt = fst (fst r) /\
             template_Parse (snd nt) = inr (snd (fst r)) /\
             renders (snd (fst r)) (value_of_data d) (snd r d))
          files rendered_files.
Proof.
  unfold files, rendered_files.
  repeat constructor; unfold fst, snd;
    auto using parse_modelsTemplate, parse_serializersTemplate,
      parse_viewsetsTemplate, parse_urlsTemplate, parse_adminTemplate,
      parse_appsTemplate.
  - apply renders_models.
  - apply renders_serializers.
  - apply renders_viewsets.
  - apply renders_urls.
  - apply renders_admin.
  - apply renders_apps.
Qed.

Lemma sections_ext {A : Type} (f g : A -> string) (l : list A) :
  (forall x, f x = g x) -> sections f l = sections g l.
Proof.
  intros H. unfold sections. induction l as [|x l IH]; simpl; [reflexivity|].
  now rewrite H, IH.
Qed.

Lemma sections_map {A B : Type} (f : B -> string) (g : A -> B) (l : list A) :
  sections f (map g l) = sections (fun x => f (g x)) l.
Proof. unfold sections. now rewrite map_map. Qed.

Lemma sections_contains {A : Type} (section : A -> string) (l : list A) (x : A) :
  In x l -> contains (sections section l) (section x).
Proof.
  intros Hin. unfold sections.
  apply (contains_concat _ (section x)); [|apply contains_refl].
  apply in_map_iff. now exists x.
Qed.

(** Find, in a concatenation, the sections that hold the wanted one. *)
Ltac in_sections C :=
  first [ exact C
        | apply contains_append_r; exact C
        | apply contains_append_l; in_sections C ].

Lemma model_class_forget (m : RenderedMessage) :
  model_class (forget_repeated_message m) = model_class m.
Proof.
  unfold model_class. simpl. f_equal. f_equal. f_equal. f_equal.
  destruct (rm_Fields m) as [|f fs]; [reflexivity|].
  change (model_body (map forget_repeated_field (f :: fs)))
    with (sections model_field_line (map forget_repeated_field (f :: fs))).
  rewrite sections_map. reflexivity.
Qed.

Lemma closed_forms_forget (d : TemplateData) :
  Forall (fun r => snd r (forget_repeated d) = snd r d) rendered_files.
Proof.
  repeat constructor; simpl.
  - unfold models_py. simpl. rewrite sections_map.
    now rewrite (sections_ext _ _ _ model_class_forget).
  - unfold serializers_py. simpl. now rewrite !sections_map.
  - unfold viewsets_py. simpl. now rewrite !sections_map.
  - unfold urls_py. simpl. now rewrite !sections_map.
  - unfold admin_py. simpl. now rewrite !sections_map.
Qed.

Lemma same_rendering (d d' : TemplateData)
    (entries : list (string * string))
    (forms : list (string * list node * (TemplateData -> string))) :
  Forall2 (fun nt r =>
             fst nt = fst (fst r) /\
             template_Parse (snd nt) = inr (snd (fst r)) /\
             renders (snd (fst r)) (value_of_data d) (snd r d))
          entries forms ->
  Forall2 (fun nt r =>
             fst nt = fst (fst r) /\
             template_Parse (snd nt) = inr (snd (fst r)) /\
             renders (snd (fst r)) (value_of_data d') (snd r d'))
          entries forms ->
  Forall (fun r => snd r d = snd r d') forms ->
  Forall (fun nt =>
            exists tree s,
              template_Parse (snd nt) = inr tree /\
              renders tree (value_of_data d) s /\
              renders tree (value_of_data d') s)
         entries.
Proof.
  intros F. induction F as [|nt r l l' (_ & Hp & Hr) F IH]; intros F' E.
  - constructor.
  - inversion F' as [|? ? ? ? (_ & _ & Hr') F'']; subst.
    apply Forall_cons in E. destruct E as [E1 E].
    constructor; [|now apply IH].
    exists (snd (fst r)), (snd r d). repeat split; try assumption.
    now rewrite E1.
Qed.

Lemma class_declaration_rendered (m : ProtoMessage) :
  model_class (render_message m) = class_declaration m.
Proof.
  unfold model_class, class_declaration. simpl.
  destruct (pm_Fields m) as [|f fs]; [reflexivity|].
  change (model_body (map render_field (f :: fs)))
    with (sections model_field_line (map render_field (f :: fs))).
  now rewrite sections_map.
Qed.

(** ** Parsing *)

Lemma FindAll_nil_iff (re : regex) (text : string) :
  nullable re = false ->
  FindAllStringSubmatch re text = [] <-> matches_nowhere re text.
Proof.
  intros Hn. unfold FindAllStringSubmatch, FindAllStringSubmatchIndex, matches_nowhere.
  rewrite <- (scan_nil_iff re Hn text 0 None). simpl.
  destruct (scan re text 0 0 None); simpl; split; congruence.
Qed.

Lemma nth_submatch (text : string) (i : nat) (b : submatch_index) :
  nth i (map (submatch_string text) b) EmptyString =
  submatch_string text (nth i b None).
Proof. apply (map_nth (submatch_string text) b None i). Qed.

Lemma parse_text_index (text : string) :
  parse_text text =
  map (fun b => message_of_match (map (submatch_string text) b))
      (FindAllStringSubmatchIndex messageRe text).
Proof. unfold parse_text, FindAllStringSubmatch. now rewrite map_map. Qed.

Lemma fields_index (body : string) :
  map field_of_match (FindAllStringSubmatch fieldRe body) =
  map (fun d => field_of_match (map (submatch_string body) d))
      (FindAllStringSubmatchIndex fieldRe body).
Proof. unfold FindAllStringSubmatch. now rewrite map_map. Qed.

Lemma Forall2_map_diag {A B : Type} (P : A -> B -> Prop) (f : A -> B) (l : list A) :
  (forall x, P x (f x)) -> Forall2 P l (map f l).
Proof. intros H. induction l; simpl; constructor; auto. Qed.

Lemma ParseProto_loaded (os : OS) (protoPath text : string) (w : world) :
  os_ReadFile os protoPath = inr text ->
  fst (ParseProto os protoPath w) = inr (parse_text text).
Proof. intros R. unfold ParseProto. now rewrite R. Qed.

(** The names and types the parser returns are made of word characters. *)
Lemma parsed_identifiers (text : string) :
  Forall (fun m =>
            forallb_string is_word (pm_Name m) = true /\
            Forall (fun f => forallb_string is_word (pf_Name f) = true /\
                             forallb_string is_word (pf_Type f) = true)
                   (pm_Fields m))
         (parse_text text).
Proof.
  rewrite parse_text_index. apply Forall_map.
  eapply Forall_impl; [apply (FindAll_groups_hold messageRe text)|].
  intros b Hb. unfold message_of_match. simpl. rewrite !nth_submatch. split.
  - eapply group_text; [exact Hb | apply messageRe_name_alphabet].
  - rewrite fields_index. apply Forall_map.
    eapply Forall_impl; [apply FindAll_groups_hold|].
    intros d Hd. unfold field_of_match. simpl. rewrite !nth_submatch. split.
    + eapply group_text; [exact Hd | apply fieldRe_name_alphabet].
    + eapply group_text; [exact Hd | apply fieldRe_type_alphabet].
Qed.

(** The parser in terms of the matches and their groups; the Unicode
    fall-backs of [strings.TrimSpace] play no part in it. *)
Lemma parse_text_groups (text : string) :
  parse_text text =
  map (fun b =>
         let body := submatch_string text (nth 2 b None) in
         {| pm_Name := submatch_string text (nth 1 b None);
            pm_Fields :=
              map (fun d =>
                     {| pf_Name := submatch_string body (nth 3 d None);
                        pf_Type := submatch_string body (nth 2 d None);
                        pf_Repeated :=
                          (trim_ascii (submatch_string body (nth 1 d None))
                           =? "repeated")%string |})
                  (FindAllStringSubmatchIndex fieldRe body) |})
      (FindAllStringSubmatchIndex messageRe text).
Proof.
  rewrite parse_text_index. apply map_ext. intros b.
  unfold message_of_match. rewrite !nth_submatch. cbv zeta. f_equal.
  rewrite fields_index. apply map_ext_in. intros d Hd.
  unfold field_of_match. rewrite !nth_submatch. cbv zeta. f_equal.
  rewrite TrimSpace_ascii; [reflexivity|].
  pose proof (FindAll_groups_hold fieldRe
                (submatch_string text (nth 2 b None))) as F.
  rewrite Forall_forall in F.
  eapply group_text; [apply F; now apply list_elem_of_In|].
  apply fieldRe_repeated_alphabet.
Qed.

(** ** Writing and rendering files *)

(** From here on paths are compared, not computed. *)
Arguments Join : simpl never.

Lemma write_chunks_ok (os : OS) (path : string) (chunks : list string) :
  forall index written written',
    write_chunks os path chunks index written = (written', None) ->
    written' = written +:+ concat_strings chunks.
Proof.
  induction chunks as [|c chunks IH]; simpl; intros index written written' H.
  - injection H as <-. now rewrite append_nil_r.
  - destruct (file_Write os path).
    + destruct index as [|index]; [discriminate|].
      destruct chunks as [|c' chunks]; [discriminate|].
      rewrite (IH _ _ _ H). now rewrite append_assoc.
    + rewrite (IH _ _ _ H). now rewrite append_assoc.
Qed.

Lemma write_chunks_writable (os : OS) (path : string) (chunks : list string) :
  file_Write os path = None ->
  forall index written,
    write_chunks os path chunks index written =
    (written +:+ concat_strings chunks, None).
Proof.
  intros W. induction chunks as [|c chunks IH]; simpl; intros index written.
  - now rewrite append_nil_r.
  - rewrite W, IH. now rewrite append_assoc.
Qed.

Lemma Execute_ok (os : OS) (tmpl : list node) (path : string) (data : value) written :
  Execute os tmpl path data = (written, None) ->
  snd (walkList tmpl data) = None /\
  written = concat_strings (fst (walkList tmpl data)).
Proof.
  unfold Execute. destruct (walkList tmpl data) as [chunks exec_err]. simpl.
  destruct (write_chunks os path chunks (file_Write_index os path) EmptyString)
    as [wr [e|]] eqn:W.
  - discriminate.
  - intros [= <- ->]. split; [reflexivity|].
    now apply write_chunks_ok in W.
Qed.

Lemma Execute_renders (os : OS) (tmpl : list node) (path : string)
    (data : value) (s : string) :
  renders tmpl data s -> file_Write os path = None ->
  Execute os tmpl path data = (s, None).
Proof.
  intros (chunks & W & <-) F. unfold Execute. rewrite W.
  now rewrite write_chunks_writable.
Qed.

Lemma disk_log (o : op) (path : string) (err : option error) (w : world) :
  disk (log o path err w) = disk w.
Proof. reflexivity. Qed.

Lemma writeFile_disk (os : OS) (path content : string) (w : world) :
  disk (writeFile os path content w) =
  put path (written_content os path content) (disk w).
Proof.
  unfold writeFile, written_content.
  destruct (os_WriteFile os path); [|reflexivity].
  destruct (os_WriteFile_wrote os path); reflexivity.
Qed.

Lemma renderToFile_disk (os : OS) (content : string) (data : TemplateData)
    (path : string) (w : world) :
  disk (snd (renderToFile os content data path w)) =
  put path (rendered_content os content data path) (disk w).
Proof.
  unfold renderToFile, rendered_content.
  destruct (template_Parse content) as [e|tmpl]; [reflexivity|].
  destruct (os_Create os path) as [e|]; [reflexivity|].
  destruct (Execute os tmpl path (value_of_data data)) as [written result].
  simpl. apply insert_insert_eq.
Qed.

Lemma renderToFile_result (os : OS) (content : string) (data : TemplateData)
    (path : string) (w : world) :
  fst (renderToFile os content data path w) = render_result os content data path.
Proof.
  unfold render_result, renderToFile.
  destruct (template_Parse content) as [e|tmpl]; [reflexivity|].
  destruct (os_Create os path) as [e|]; [reflexivity|].
  destruct (Execute os tmpl path (value_of_data data)) as [written result].
  reflexivity.
Qed.

Lemma render_result_ok (os : OS) (content : string) (data : TemplateData)
    (path : string) :
  render_result os content data path = None ->
  exists tmpl,
    template_Parse content = inr tmpl /\
    os_Create os path = None /\
    snd (walkList tmpl (value_of_data data)) = None /\
    rendered_content os content data path =
      Some (concat_strings (fst (walkList tmpl (value_of_data data)))).
Proof.
  unfold render_result, renderToFile, rendered_content.
  destruct (template_Parse content) as [e|tmpl]; [discriminate|].
  destruct (os_Create os path) as [e|]; [discriminate|].
  destruct (Execute os tmpl path (value_of_data data)) as [written result] eqn:E.
  simpl. intros ->. apply Execute_ok in E. destruct E as [E1 E2].
  exists tmpl. repeat split; try assumption. now rewrite E2.
Qed.

Lemma render_result_renders (os : OS) (d : TemplateData) (path tmpl : string)
    (tree : list node) (s : string) :
  template_Parse tmpl = inr tree ->
  renders tree (value_of_data d) s ->
  os_Create os path = None -> file_Write os path = None ->
  render_result os tmpl d path = None.
Proof.
  intros P R C W. unfold render_result, renderToFile.
  rewrite P, C, (Execute_renders os tree path _ s R W). reflexivity.
Qed.

Lemma rendered_entry_content (os : OS) (d : TemplateData) (path tmpl : string)
    (tree : list node) (s : string) :
  template_Parse tmpl = inr tree ->
  renders tree (value_of_data d) s ->
  render_result os tmpl d path = None ->
  rendered_content os tmpl d path = Some s.
Proof.
  intros P (chunks & W & <-) R.
  destruct (render_result_ok _ _ _ _ R) as (tree' & P' & _ & _ & C).
  rewrite P in P'. injection P' as <-. rewrite C, W. reflexivity.
Qed.

(** The loop over the entries: a path holds what it held before, or what
    one of the entries rendered into it. *)
Lemma render_files_lookup (os : OS) (data : TemplateData) (dir : string)
    (order : list (string * string)) :
  forall w r w',
    render_files os data dir order w = (r, w') ->
    forall p,
      disk w' !! p = disk w !! p \/
      exists name tmpl c,
        (name, tmpl) ∈ order /\ p = Join [dir; name] /\
        rendered_content os tmpl data p = Some c /\
        disk w' !! p = Some c.
Proof.
  induction order as [|[name tmpl] order IH]; simpl; intros w r w' H p.
  - simplify_eq. now left.
  - pose proof (renderToFile_disk os tmpl data (Join [dir; name]) w) as Hf.
    destruct (renderToFile os tmpl data (Join [dir; name]) w) as [[err|] w1].
    + simpl in H. injection H as _ <-. simpl in Hf. rewrite Hf.
      destruct (rendered_content os tmpl data (Join [dir; name])) as [c|] eqn:C;
        simpl; [|now left].
      destruct (decide (Join [dir; name] = p)) as [<-|Hne].
      * right. exists name, tmpl, c. rewrite lookup_insert_eq.
        repeat split; try assumption. apply list_elem_of_here.
      * left. now rewrite lookup_insert_ne.
    + simpl in H. destruct (IH _ _ _ H p) as [Hsame|(n & t & c & Hin & Hp & Hc & Hl)].
      * rewrite Hsame. simpl in Hf. rewrite Hf.
        destruct (rendered_content os tmpl data (Join [dir; name])) as [c|] eqn:C;
          simpl; [|now left].
        destruct (decide (Join [dir; name] = p)) as [<-|Hne].
        -- right. exists name, tmpl, c. rewrite lookup_insert_eq.
           repeat split; try assumption. apply list_elem_of_here.
        -- left. now rewrite lookup_insert_ne.
      * right. exists n, t, c. repeat split; try assumption.
        now apply list_elem_of_further.
Qed.

Lemma render_files_result (os : OS) (data : TemplateData) (dir : string)
    (order : list (string * string)) :
  forall w,
    fst (render_files os data dir order w) = None <->
    Forall (fun nt => render_result os (snd nt) data (Join [dir; fst nt]) = None)
           order.
Proof.
  induction order as [|[name tmpl] order IH]; simpl; intros w.
  - split; [constructor | reflexivity].
  - pose proof (renderToFile_result os tmpl data (Join [dir; name]) w) as Hr.
    destruct (renderToFile os tmpl data (Join [dir; name]) w) as [[err|] w1];
      simpl in Hr.
    + simpl. split; [discriminate|]. intros F. apply Forall_cons in F.
      simpl in F. destruct F as [F _]. congruence.
    + rewrite IH. split.
      * intros F. constructor; [now simpl | assumption].
      * intros F. apply Forall_cons in F. now destruct F.
Qed.

(** After a loop that succeeded, every entry's file holds what the entry
    rendered, provided no two entries share a path. *)
Lemma render_files_success (os : OS) (data : TemplateData) (dir : string)
    (order : list (string * string)) :
  NoDup (map (fun nt => Join [dir; fst nt]) order) ->
  forall w w',
    render_files os data dir order w = (None, w') ->
    forall name tmpl,
      (name, tmpl) ∈ order ->
      render_result os tmpl data (Join [dir; name]) = None /\
      disk w' !! Join [dir; name] = rendered_content os tmpl data (Join [dir; name]).
Proof.
  induction order as [|[n t] order IH]; simpl; intros ND w w' H name tmpl Hin.
  - inversion Hin.
  - apply NoDup_cons in ND. destruct ND as [Hnotin ND].
    pose proof (renderToFile_disk os t data (Join [dir; n]) w) as Hf.
    pose proof (renderToFile_result os t data (Join [dir; n]) w) as Hr.
    destruct (renderToFile os t data (Join [dir; n]) w) as [[err|] w1];
      [discriminate|].
    simpl in Hf, Hr.
    apply elem_of_cons in Hin. destruct Hin as [[= -> ->]|Hin].
    + split; [now symmetry|].
      destruct (render_result_ok _ _ _ _ (eq_sym Hr)) as (tm & _ & _ & _ & Hc).
      destruct (render_files_lookup _ _ _ _ _ _ _ H (Join [dir; n]))
        as [Hsame|(n' & t' & c & Hin' & Hp & _)].
      * rewrite Hsame, Hf, Hc. simpl. now rewrite lookup_insert_eq.
      * exfalso. apply Hnotin. rewrite Hp.
        apply (list_elem_of_fmap_2 (fun nt => Join [dir; fst nt]) _ (n', t')).
        assumption.
    + eapply IH; eassumption.
Qed.

(** ** The outcomes of GenerateApp *)

Lemma GenerateApp_cases (os : OS) (order : list (string * string))
    (protoPath dir : string) (w : world) :
  (exists e,
      os_ReadFile os protoPath = inl e /\
      GenerateApp os order protoPath dir w =
      (Some (Errorf "failed to read proto file: " e),
       log OpReadFile protoPath (Some e) w)) \/
  (exists text e,
      os_ReadFile os protoPath = inr text /\
      os_MkdirAll os (Join [dir; "migrations"]) = Some e /\
      GenerateApp os order protoPath dir w =
      (Some (Errorf "failed to create migrations directory: " e),
       log OpMkdirAll (Join [dir; "migrations"]) (Some e)
           (log OpReadFile protoPath None w))) \/
  (exists text,
      os_ReadFile os protoPath = inr text /\
      os_MkdirAll os (Join [dir; "migrations"]) = None /\
      GenerateApp os order protoPath dir w =
      render_files os (template_data dir (parse_text text)) dir order
        (static_files os dir
           (log OpMkdirAll (Join [dir; "migrations"]) None
                (log OpReadFile protoPath None w)))).
Proof.
  unfold GenerateApp, ParseProto.
  destruct (os_ReadFile os protoPath) as [e|text].
  - left. exists e. split; reflexivity.
  - right. destruct (os_MkdirAll os (Join [dir; "migrations"])) as [e|].
    + left. exists text, e. repeat split; reflexivity.
    + right. exists text. repeat split; reflexivity.
Qed.

Ltac solve_In :=
  apply list_elem_of_In; simpl; repeat (first [left; reflexivity | right]).

Lemma Join_ne (dir : string) (l1 l2 : list string) :
  l1 ∈ output_names -> l2 ∈ output_names -> l1 <> l2 ->
  Join (dir :: l1) <> Join (dir :: l2).
Proof.
  intros H1 H2 Hne E. apply Hne.
  pose proof output_names_simple as F. rewrite Forall_forall in F.
  destruct (F _ H1) as [N1 S1], (F _ H2) as [N2 S2].
  eapply Join_inj; eassumption.
Qed.

Lemma rendered_paths_NoDup (dir : string) (order : list (string * string)) :
  order ≡ₚ files ->
  NoDup (map (fun nt => Join [dir; fst nt]) order).
Proof.
  intros P. rewrite P.
  pose proof (output_paths_NoDup dir) as ND.
  unfold output_names in ND. rewrite map_app in ND.
  apply NoDup_app in ND. destruct ND as (_ & _ & ND).
  rewrite map_map in ND. exact ND.
Qed.

Lemma put_lookup_ne (path p : string) (c : option string) (fs : gmap string string) :
  path <> p -> put path c fs !! p = fs !! p.
Proof. intros Hne. destruct c; simpl; [now apply lookup_insert_ne | reflexivity]. Qed.

Lemma put_lookup_eq (path : string) (c : option string) (fs : gmap string string) :
  put path c fs !! path = match c with Some x => Some x | None => fs !! path end.
Proof. destruct c; simpl; [apply lookup_insert_eq | reflexivity]. Qed.

(** The store after the three static files, path by path. *)
Lemma static_files_lookup (os : OS) (dir : string) (w : world) (p : string) :
  disk (static_files os dir w) !! p =
  if decide (p = Join [dir; "tests.py"]) then
    match written_content os p ("# placeholder" +:+ nl) with
    | Some c => Some c
    | None => disk w !! p
    end
  else if decide (p = Join [dir; "__init__.py"]) then
    match written_content os p EmptyString with
    | Some c => Some c
    | None => disk w !! p
    end
  else if decide (p = Join [dir; "migrations"; "__init__.py"]) then
    match written_content os p EmptyString with
    | Some c => Some c
    | None => disk w !! p
    end
  else disk w !! p.
Proof.
  assert (N1 : Join [dir; "tests.py"] <> Join [dir; "__init__.py"])
    by (apply Join_ne; [solve_In | solve_In | discriminate]).
  assert (N2 : Join [dir; "tests.py"] <> Join [dir; "migrations"; "__init__.py"])
    by (apply Join_ne; [solve_In | solve_In | discriminate]).
  assert (N3 : Join [dir; "__init__.py"] <> Join [dir; "migrations"; "__init__.py"])
    by (apply Join_ne; [solve_In | solve_In | discriminate]).
  unfold static_files. rewrite !writeFile_disk.
  destruct (decide (p = Join [dir; "tests.py"])) as [->|D1].
  { rewrite put_lookup_eq.
    destruct (written_content os (Join [dir; "tests.py"]) _); [reflexivity|].
    now rewrite !put_lookup_ne by congruence. }
  rewrite put_lookup_ne by congruence.
  destruct (decide (p = Join [dir; "__init__.py"])) as [->|D2].
  { rewrite put_lookup_eq.
    destruct (written_content os (Join [dir; "__init__.py"]) _); [reflexivity|].
    now rewrite !put_lookup_ne by congruence. }
  rewrite put_lookup_ne by congruence.
  destruct (decide (p = Join [dir; "migrations"; "__init__.py"])) as [->|D3].
  { now rewrite put_lookup_eq. }
  now rewrite put_lookup_ne by congruence.
Qed.

Lemma static_files_written (os : OS) (dir : string) (w : world) :
  (forall p, os_WriteFile os p = None) ->
  disk (static_files os dir w) !! Join [dir; "migrations"; "__init__.py"]
    = Some EmptyString /\
  disk (static_files os dir w) !! Join [dir; "__init__.py"] = Some EmptyString /\
  disk (static_files os dir w) !! Join [dir; "tests.py"]
    = Some ("# placeholder" +:+ nl).
Proof.
  intros W.
  assert (N1 : Join [dir; "__init__.py"] <> Join [dir; "tests.py"])
    by (apply Join_ne; [solve_In | solve_In | discriminate]).
  assert (N2 : Join [dir; "migrations"; "__init__.py"] <> Join [dir; "tests.py"])
    by (apply Join_ne; [solve_In | solve_In | discriminate]).
  assert (N3 : Join [dir; "migrations"; "__init__.py"] <> Join [dir; "__init__.py"])
    by (apply Join_ne; [solve_In | solve_In | discriminate]).
  rewrite !static_files_lookup. unfold written_content. rewrite !W.
  repeat split; repeat case_decide; congruence.
Qed.


Lemma files_output_name (n t : string) :
  (n, t) ∈ files -> [n] ∈ output_names.
Proof.
  intros H. unfold output_names. apply elem_of_app. right.
  apply (list_elem_of_fmap_2 (fun nt => [fst nt]) _ (n, t)). exact H.
Qed.



(** A run that succeeds leaves in each of the six rendered files the
    closed form of its template. *)
Lemma GenerateApp_rendered (os : OS) (order : list (string * string))
    (protoPath dir text : string) (w w' : world) :
  order ≡ₚ files ->
  os_ReadFile os protoPath = inr text ->
  GenerateApp os order protoPath dir w = (None, w') ->
  Forall (fun r =>
            disk w' !! Join [dir; fst (fst r)] =
            Some (snd r (template_data dir (parse_text text))))
         rendered_files.
Proof.
  intros P R G.
  destruct (GenerateApp_cases os order protoPath dir w)
    as [(e & R' & _)|[(t & e & _ & _ & G')|(t & R' & _ & G')]];
    try congruence.
  rewrite R in R'. injection R' as <-. rewrite G' in G. clear G'.
  apply Forall_forall. intros r Hr.
  apply list_elem_of_lookup in Hr. destruct Hr as [i Hi].
  destruct (Forall2_lookup_r _ _ _ _ _
              (rendered_files_correct (template_data dir (parse_text text))) Hi)
    as ([name tmpl] & Hnt & Hname & Hparse & Hrenders).
  simpl in Hname, Hparse. subst name.
  assert (Hin : (fst (fst r), tmpl) ∈ order).
  { rewrite P. eapply list_elem_of_lookup_2. exact Hnt. }
  destruct (render_files_success _ _ _ _ (rendered_paths_NoDup dir order P)
              _ _ G _ _ Hin) as [Hres Hfile].
  rewrite Hfile. eapply rendered_entry_content; eassumption.
Qed.

(** The loop over the entries leaves the static files alone. *)
Lemma render_files_static (os : OS) (data : TemplateData) (dir : string)
    (order : list (string * string)) (w w' : world) (r : option error)
    (names : list string) :
  order ≡ₚ files ->
  names ∈ map fst static_outputs ->
  render_files os data dir order w = (r, w') ->
  disk w' !! Join (dir :: names) = disk w !! Join (dir :: names).
Proof.
  intros P Hn H.
  destruct (render_files_lookup _ _ _ _ _ _ _ H (Join (dir :: names)))
    as [Hsame|(n & t & c & Hin & Hp & _)]; [assumption|].
  exfalso. revert Hp. apply Join_ne.
  - unfold output_names. apply elem_of_app. now left.
  - unfold output_names. apply elem_of_app. right.
    rewrite P in Hin.
    apply (list_elem_of_fmap_2 (fun nt => [fst nt]) _ (n, t)). assumption.
  - intros ->. rewrite P in Hin.
    apply list_elem_of_In in Hn. apply list_elem_of_In in Hin.
    simpl in Hn, Hin.
    repeat (destruct Hn as [Hn|Hn]; [
      injection Hn as <-;
      repeat (destruct Hin as [Hin|Hin]; [discriminate|]); destruct Hin |]).
    destruct Hn.
Qed.

(** On a writable system, a run fails only if the input cannot be read. *)
Lemma GenerateApp_writable (os : OS) (order : list (string * string))
    (protoPath dir text : string) (w : world) :
  writable os -> order ≡ₚ files ->
  os_ReadFile os protoPath = inr text ->
  fst (GenerateApp os order protoPath dir w) = None.
Proof.
  intros (M & _ & C & W) P R.
  destruct (GenerateApp_cases os order protoPath dir w)
    as [(e & R' & _)|[(t & e & _ & M' & _)|(t & R' & _ & G)]].
  - congruence.
  - rewrite M in M'. discriminate.
  - rewrite G. apply render_files_result. rewrite P.
    rewrite R in R'. injection R' as <-. clear P G.
    pose proof (rendered_files_correct (template_data dir (parse_text text))) as F.
    induction F as [|[name tmpl] r l l' (Hn & Hp & Hr) F IH]; constructor.
    + simpl in *. eapply render_result_renders; eauto.
    + exact IH.
Qed.





(** ** Failures are terminal and reported *)

Lemma wraps_refl (e : error) : wraps e e.
Proof. destruct e; simpl; now left. Qed.

Lemma wraps_Errorf (p : string) (e c : error) : wraps e c -> wraps (Errorf p e) c.
Proof. intros H. simpl. now right. Qed.

Lemma report_wraps (o : op) (name : string) (e : error) :
  wraps (report o name e) e.
Proof.
  destruct o; simpl; auto using wraps_refl;
    right; try (simpl; right); apply wraps_refl.
Qed.

Lemma failure_shape_app (R : op -> error -> error -> Prop)
    (evs1 evs2 : list event) (r : option error) :
  quiet evs1 -> failure_shape R evs2 r -> failure_shape R (evs1 ++ evs2) r.
Proof.
  intros Q. destruct r as [err|]; simpl.
  - intros (good & ev & post & e & -> & Qg & He & Hd & Hc & HR).
    exists (evs1 ++ good), ev, post, e. rewrite app_assoc.
    repeat split; try assumption. now apply Forall_app.
  - intros Q2. now apply Forall_app.
Qed.

Lemma failure_shape_impl (R R' : op -> error -> error -> Prop)
    (evs : list event) (r : option error) :
  (forall o e err, R o e err -> R' o e err) ->
  failure_shape R evs r -> failure_shape R' evs r.
Proof.
  intros HR. destruct r as [err|]; simpl; [|trivial].
  intros (good & ev & post & e & H1 & H2 & H3 & H4 & H5 & H6).
  exists good, ev, post, e. repeat split; auto.
Qed.

(** The failure that counts is the only one of its kind in the events. *)
Lemma failure_unique (pre good post post0 : list event) (ev ev0 : event) e :
  pre ++ ev :: post = good ++ ev0 :: post0 ->
  quiet good -> only_closes post0 ->
  ev_err ev = Some e -> dropped (ev_op ev) = false ->
  pre = good /\ ev = ev0 /\ post = post0.
Proof.
  intros E Q C He Hd. revert good E Q.
  induction pre as [|x pre IH]; intros [|g good] E Q; simpl in E.
  - injection E as -> ->. auto.
  - injection E as -> _. apply Forall_cons in Q. destruct Q as [[Q|Q] _]; congruence.
  - injection E as -> <-. unfold only_closes in C. rewrite Forall_app in C.
    destruct C as [_ C]. apply Forall_cons in C. destruct C as [C _].
    rewrite C in Hd. discriminate.
  - injection E as -> E. apply Forall_cons in Q. destruct Q as [_ Q].
    destruct (IH good E Q) as (-> & -> & ->). auto.
Qed.

Lemma failure_shape_elim (R : op -> error -> error -> Prop)
    (evs : list event) (r : option error) (pre post : list event)
    (ev : event) (e : error) :
  failure_shape R evs r ->
  evs = pre ++ ev :: post ->
  ev_err ev = Some e -> dropped (ev_op ev) = false ->
  only_closes post /\ exists err, r = Some err /\ R (ev_op ev) e err.
Proof.
  intros S -> He Hd. destruct r as [err|]; simpl in S.
  - destruct S as (good & ev0 & post0 & e0 & E & Q & He0 & Hd0 & C & HR).
    destruct (failure_unique _ _ _ _ _ _ _ E Q C He Hd) as (-> & -> & ->).
    split; [assumption|]. exists err. split; [reflexivity|].
    assert (e0 = e) as <- by congruence. exact HR.
  - unfold quiet in S. rewrite Forall_app in S. destruct S as [_ S].
    apply Forall_cons in S. destruct S as [[S|S] _]; congruence.
Qed.

Lemma trace_log (o : op) (path : string) (err : option error) (w : world) :
  trace (log o path err w) = trace w ++ [Event o path err].
Proof. reflexivity. Qed.

Lemma writeFile_trace (os : OS) (path content : string) (w : world) :
  trace (writeFile os path content w) =
  trace w ++ [Event OpWriteFile path (os_WriteFile os path)].
Proof.
  unfold writeFile. destruct (os_WriteFile os path); [|reflexivity].
  now destruct (os_WriteFile_wrote os path).
Qed.

Ltac solve_quiet :=
  unfold quiet, only_closes;
  repeat (apply Forall_cons_2; [first [reflexivity | now right | now left]|]);
  apply Forall_nil_2.

Lemma renderToFile_shape (os : OS) (content : string) (data : TemplateData)
    (path : string) (w : world) :
  exists evs,
    trace (snd (renderToFile os content data path w)) = trace w ++ evs /\
    failure_shape
      (fun o e err => render_op o = true /\ err = render_report o e) evs
      (fst (renderToFile os content data path w)).
Proof.
  unfold renderToFile.
  destruct (template_Parse content) as [e|tmpl].
  { exists [Event OpParse path (Some e)]. split; [reflexivity|].
    exists [], (Event OpParse path (Some e)), [], e.
    repeat split; solve_quiet. }
  destruct (os_Create os path) as [e|].
  { exists [Event OpParse path None; Event OpCreate path (Some e)].
    split; [simpl; now rewrite <- app_assoc|].
    exists [Event OpParse path None], (Event OpCreate path (Some e)), [], e.
    repeat split; solve_quiet. }
  destruct (Execute os tmpl path (value_of_data data)) as [written [e|]].
  - exists [Event OpParse path None; Event OpCreate path None;
            Event OpExecute path (Some e);
            Event OpClose path (file_Close os path)].
    split; [simpl; now rewrite <- !app_assoc|].
    exists [Event OpParse path None; Event OpCreate path None],
           (Event OpExecute path (Some e)),
           [Event OpClose path (file_Close os path)], e.
    repeat split; solve_quiet.
  - exists [Event OpParse path None; Event OpCreate path None;
            Event OpExecute path None;
            Event OpClose path (file_Close os path)].
    split; [simpl; now rewrite <- !app_assoc|].
    simpl. solve_quiet.
Qed.

Lemma render_files_shape (os : OS) (data : TemplateData) (dir : string)
    (order : list (string * string)) :
  forall w,
  exists evs,
    trace (snd (render_files os data dir order w)) = trace w ++ evs /\
    failure_shape
      (fun o e err =>
         render_op o = true /\
         exists name, In name (map fst order) /\ err = report o name e)
      evs (fst (render_files os data dir order w)).
Proof.
  induction order as [|[name tmpl] order IH]; intros w; simpl.
  - exists []. split; [now rewrite app_nil_r | constructor].
  - destruct (renderToFile_shape os tmpl data (Join [dir; name]) w)
      as (evs1 & T1 & S1).
    destruct (renderToFile os tmpl data (Join [dir; name]) w) as [[err|] w1];
      simpl in T1, S1.
    + exists evs1. split; [exact T1|]. simpl.
      destruct S1 as (good & ev & post & e & E & Q & He & Hd & C & Ho & ->).
      exists good, ev, post, e. repeat split; try assumption.
      exists name. split; [now left|]. now destruct (ev_op ev).
    + destruct (IH w1) as (evs2 & T2 & S2).
      exists (evs1 ++ evs2). split; [now rewrite T2, T1, app_assoc|].
      apply failure_shape_app; [exact S1|].
      eapply failure_shape_impl; [|exact S2].
      intros o e err (Ho & n & Hn & ->). split; [exact Ho|].
      exists n. split; [now right | reflexivity].
Qed.

Lemma static_files_trace (os : OS) (dir : string) (w : world) :
  exists evs,
    trace (static_files os dir w) = trace w ++ evs /\
    Forall (fun ev => ev_op ev = OpWriteFile) evs.
Proof.
  unfold static_files. rewrite !writeFile_trace, <- !app_assoc. simpl.
  eexists. split; [reflexivity|]. repeat constructor.
Qed.

Lemma GenerateApp_shape (os : OS) (order : list (string * string))
    (protoPath dir : string) (w : world) :
  exists evs,
    trace (snd (GenerateApp os order protoPath dir w)) = trace w ++ evs /\
    failure_shape
      (fun o e err =>
         exists name,
           err = report o name e /\
           (render_op o = true -> In name (map fst order)))
      evs (fst (GenerateApp os order protoPath dir w)).
Proof.
  destruct (GenerateApp_cases os order protoPath dir w)
    as [(e & R & G)|[(t & e & R & M & G)|(t & R & M & G)]]; rewrite G.
  - exists [Event OpReadFile protoPath (Some e)]. split; [reflexivity|].
    exists [], (Event OpReadFile protoPath (Some e)), [], e.
    repeat split; try solve_quiet.
    exists EmptyString. split; [reflexivity | discriminate].
  - exists [Event OpReadFile protoPath None;
            Event OpMkdirAll (Join [dir; "migrations"]) (Some e)].
    split; [simpl; now rewrite <- app_assoc|].
    exists [Event OpReadFile protoPath None],
           (Event OpMkdirAll (Join [dir; "migrations"]) (Some e)), [], e.
    repeat split; try solve_quiet.
    exists EmptyString. split; [reflexivity | discriminate].
  - set (w2 := log OpMkdirAll _ None _).
    destruct (static_files_trace os dir w2) as (evs1 & T1 & F1).
    destruct (render_files_shape os (template_data dir (parse_text t)) dir order
                (static_files os dir w2)) as (evs2 & T2 & S2).
    exists ([Event OpReadFile protoPath None;
             Event OpMkdirAll (Join [dir; "migrations"]) None] ++ evs1 ++ evs2).
    split.
    + rewrite T2, T1. unfold w2. simpl. now rewrite <- !app_assoc.
    + apply failure_shape_app; [solve_quiet|].
      apply failure_shape_app.
      * eapply Forall_impl; [exact F1|]. intros ev ->. now left.
      * eapply failure_shape_impl; [|exact S2].
        intros o e err (Ho & n & Hn & ->). exists n. now split.
Qed.

(** ** Worked examples *)

Example messageRe_example :
  FindAllStringSubmatch messageRe
    ("message User { string name = 1; int32 age = 2; }" +:+ nl +:+
     "message  Empty{}")
  = [ ["message User { string name = 1; int32 age = 2; }";
       "User"; " string name = 1; int32 age = 2; "];
      ["message  Empty{}"; "Empty"; EmptyString] ].
Proof. vm_compute. reflexivity. Qed.

Example fieldRe_example :
  FindAllStringSubmatch fieldRe
    " repeated string tags = 1; int32 age=22; junk; repeated x = 3"
  = [ ["repeated string tags = 1"; "repeated "; "string"; "tags"];
      ["int32 age=22"; EmptyString; "int32"; "age"];
      ["repeated x = 3"; EmptyString; "repeated"; "x"] ].
Proof. vm_compute. reflexivity. Qed.

Example Base_examples :
  map Base ["generated_app"; "out/accounts"; "/srv/apps/blog/"; EmptyString; "///"; "a/.."]
  = ["generated_app"; "accounts"; "blog"; "."; "/"; ".."].
Proof. vm_compute. reflexivity. Qed.

Example Join_examples :
  [Join ["out/accounts"; "migrations"; "__init__.py"];
   Join ["/srv//apps/./blog/"; "models.py"];
   Join [EmptyString; "tests.py"];
   Join ["a/../.."; "urls.py"];
   Join ["/.."; "apps.py"]]
  = ["out/accounts/migrations/__init__.py"; "/srv/apps/blog/models.py";
     "tests.py"; "../urls.py"; "/apps.py"].
Proof. vm_compute. reflexivity. Qed.

Example parse_text_skips_unmatched :
  parse_text ("message { int32 lost = 1; }" +:+ nl +:+
              "message Ok { int32 a = 1;" +:+ nl +:+
              "  not a declaration;" +:+ nl +:+
              "  string b = 2; }" +:+ nl +:+
              "message Open { int32 c = 3;")
  = [ {| pm_Name := "Ok";
         pm_Fields := [ {| pf_Name := "a"; pf_Type := "int32"; pf_Repeated := false |};
                        {| pf_Name := "b"; pf_Type := "string"; pf_Repeated := false |} ] |} ].
Proof. vm_compute. reflexivity. Qed.

Example user_scenario :
  fst (GenerateApp (sound_os user_proto) files "schema.proto"
                   "out/accounts" empty_world) = None /\
  disk (snd (GenerateApp (sound_os user_proto) files "schema.proto"
                          "out/accounts" empty_world))
    !! "out/accounts/models.py" =
    Some ("from django.db import models" +:+ nl +:+
          "class User(models.Model):" +:+ nl +:+
          "    name = models.CharField(max_length=255)" +:+ nl +:+
          "    age = models.IntegerField()" +:+ nl +:+ nl) /\
  disk (snd (GenerateApp (sound_os user_proto) files "schema.proto"
                          "out/accounts" empty_world))
    !! "out/accounts/admin.py" =
    Some ("from django.contrib import admin" +:+ nl +:+ nl +:+
          "from .models import User" +:+ nl +:+ nl +:+ nl +:+ nl +:+
          "admin.site.register(User)" +:+ nl +:+ nl) /\
  disk (snd (GenerateApp (sound_os user_proto) files "schema.proto"
                          "out/accounts" empty_world))
    !! "out/accounts/urls.py" =
    Some ("from django.urls import path, include" +:+ nl +:+
          "from rest_framework.routers import DefaultRouter" +:+ nl +:+ nl +:+
          "from .viewsets import UserViewSet" +:+ nl +:+ nl +:+ nl +:+
          "router = DefaultRouter()" +:+ nl +:+ nl +:+
          "router.register(r'user', UserViewSet)" +:+ nl +:+ nl +:+ nl +:+
          "urlpatterns = [" +:+ nl +:+
          "    path('', include(router.urls))," +:+ nl +:+
          "]" +:+ nl) /\
  AppTitle (template_data "out/accounts" (parse_text user_proto)) =
    caser_String "accounts".
Proof. vm_compute. repeat split. Qed.

(** ** The claims *)

(** C1. The type mapper is total: it returns a non-empty declaration for
    every type string; the six scalar types map as tabulated ([int32] and
    [int64] to the integer field, [string] to the character field of
    maximum length 255, [bool] to the boolean field, [float] and [double]
    to the floating-point field); every other string maps to the
    foreign-key declaration that embeds the string verbatim, with cascading
    delete. *)
Theorem PythonType_total_and_tabulated :
  (forall t, PythonType t <> EmptyString) /\
  PythonType "int32" = "models.IntegerField()" /\
  PythonType "int64" = "models.IntegerField()" /\
  PythonType "string" = "models.CharField(max_length=255)" /\
  PythonType "bool" = "models.BooleanField()" /\
  PythonType "float" = "models.FloatField()" /\
  PythonType "double" = "models.FloatField()" /\
  (forall t, ~ In t scalar_types ->
             PythonType t =
             "models.ForeignKey(" +:+ t +:+ ", on_delete=models.CASCADE)").
Proof.
  split; [|repeat split; try reflexivity].
  - intros t. unfold PythonType.
    repeat match goal with
           | |- context [if ?b then _ else _] => destruct b
           end; discriminate.
  - intros t Hn. unfold PythonType, scalar_types in *.
    repeat match goal with
           | |- context [(t =? ?s)%string] =>
               destruct (String.eqb_spec t s) as [->|_];
               [exfalso; apply Hn; simpl; auto 10|]
           end.
    reflexivity.
Qed.

(** C2. The matches of the message pattern lie in the text from left to
    right without overlap, and the messages are their names and bodies in
    that order; in each body the matches of the field pattern lie from
    left to right without overlap, and the fields are their types and
    names in that order; in a run that succeeds, [models.py] holds the
    classes in the order of the messages, each with one line per field in
    the order of the fields. *)
Theorem order_preserved (text : string) :
  laid_out 0 (map span_of (FindAllStringSubmatchIndex messageRe text))
           (String.length text) /\
  Forall groups_within (FindAllStringSubmatchIndex messageRe text) /\
  Forall2 (fun b m =>
             pm_Name m = submatch_string text (nth 1 b None) /\
             laid_out 0
               (map span_of (FindAllStringSubmatchIndex fieldRe
                               (submatch_string text (nth 2 b None))))
               (String.length (submatch_string text (nth 2 b None))) /\
             Forall2 (declares (submatch_string text (nth 2 b None)))
               (FindAllStringSubmatchIndex fieldRe
                  (submatch_string text (nth 2 b None)))
               (pm_Fields m))
          (FindAllStringSubmatchIndex messageRe text) (parse_text text) /\
  (forall os order protoPath dir w w',
      order ≡ₚ files ->
      os_ReadFile os protoPath = inr text ->
      GenerateApp os order protoPath dir w = (None, w') ->
      disk w' !! Join [dir; "models.py"] =
      Some ("from django.db import models" +:+
            sections class_declaration (parse_text text) +:+ nl)).
Proof.
  destruct (FindAll_laid_out messageRe text messageRe_nonempty) as (L & G & _).
  split; [exact L|]. split; [exact G|]. split.
  - rewrite parse_text_index. apply Forall2_map_diag. intros b.
    unfold message_of_match. simpl. rewrite !nth_submatch.
    split; [reflexivity|].
    destruct (FindAll_laid_out fieldRe (submatch_string text (nth 2 b None))
                fieldRe_nonempty) as (L' & _ & _).
    split; [exact L'|].
    rewrite fields_index. apply Forall2_map_diag. intros d.
    unfold declares, field_of_match. simpl. now rewrite !nth_submatch.
  - intros os order protoPath dir w w' P R Gen.
    pose proof (GenerateApp_rendered _ _ _ _ _ _ _ P R Gen) as F.
    apply Forall_cons in F. destruct F as [F _]. simpl in F.
    rewrite F. unfold models_py. simpl Messages.
    rewrite sections_map.
    now rewrite (sections_ext _ _ _ class_declaration_rendered).
Qed.

(** C3, amended. Every failure of reading the input, creating the
    directory, parsing a template, creating a rendered file or executing
    a template ends the run: nothing follows it but the deferred closing of
    the file, and the run returns the error wrapped with the message of
    the stage, and for the rendering stages also of the file.  The errors
    of [os.WriteFile] on the three static files and of [file.Close] are
    the only ones dropped.  A run that returns an error returns the report
    of such a failure. *)
Theorem stage_failures_terminal_and_reported (os : OS)
    (order : list (string * string)) (protoPath dir : string) (w : world) :
  exists evs,
    trace (snd (GenerateApp os order protoPath dir w)) = trace w ++ evs /\
    (forall pre ev post e,
        evs = pre ++ ev :: post ->
        ev_err ev = Some e -> dropped (ev_op ev) = false ->
        only_closes post /\
        exists name,
          fst (GenerateApp os order protoPath dir w)
            = Some (report (ev_op ev) name e) /\
          wraps (report (ev_op ev) name e) e /\
          (render_op (ev_op ev) = true -> In name (map fst order))) /\
    (forall err,
        fst (GenerateApp os order protoPath dir w) = Some err ->
        exists pre ev post e name,
          evs = pre ++ ev :: post /\ ev_err ev = Some e /\
          dropped (ev_op ev) = false /\ err = report (ev_op ev) name e) /\
    (fst (GenerateApp os order protoPath dir w) = None -> quiet evs).
Proof.
  destruct (GenerateApp_shape os order protoPath dir w) as (evs & T & S).
  exists evs. split; [exact T|]. split; [|split].
  - intros pre ev post e E He Hd.
    destruct (failure_shape_elim _ _ _ _ _ _ _ S E He Hd)
      as (C & err & Hr & name & -> & Hn).
    split; [exact C|]. exists name. repeat split; try assumption.
    apply report_wraps.
  - intros err Hr. rewrite Hr in S. simpl in S.
    destruct S as (good & ev & post & e & E & _ & He & Hd & _ & name & -> & _).
    now exists good, ev, post, e, name.
  - intros Hr. rewrite Hr in S. exact S.
Qed.

(** C4. [ParseProto] returns an error exactly when the file cannot be
    read, and then the read error wrapped; for every text that is read it
    returns messages: one per match of the message pattern, none where the
    pattern matches nowhere, each with one field per match of the field
    pattern in its body and none where that pattern matches nowhere. *)
Theorem ParseProto_fails_only_on_read (os : OS) (protoPath : string) (w : world) :
  ((exists err, fst (ParseProto os protoPath w) = inl err) <->
   (exists e, os_ReadFile os protoPath = inl e)) /\
  (forall e, os_ReadFile os protoPath = inl e ->
             fst (ParseProto os protoPath w) =
             inl (Errorf "failed to read proto file: " e)) /\
  (forall text,
      os_ReadFile os protoPath = inr text ->
      fst (ParseProto os protoPath w) = inr (parse_text text) /\
      length (parse_text text) =
        length (FindAllStringSubmatchIndex messageRe text) /\
      (matches_nowhere messageRe text <-> parse_text text = []) /\
      Forall2 (fun b m =>
                 pm_Name m = submatch_string text (nth 1 b None) /\
                 length (pm_Fields m) =
                   length (FindAllStringSubmatchIndex fieldRe
                             (submatch_string text (nth 2 b None))) /\
                 (matches_nowhere fieldRe (submatch_string text (nth 2 b None))
                  <-> pm_Fields m = []))
              (FindAllStringSubmatchIndex messageRe text) (parse_text text)).
Proof.
  unfold ParseProto. split; [|split].
  - destruct (os_ReadFile os protoPath) as [e|text]; simpl; split.
    + intros _. now exists e.
    + intros _. eexists. reflexivity.
    + intros [err H]. discriminate.
    + intros [e H]. discriminate.
  - intros e ->. reflexivity.
  - intros text ->. split; [reflexivity|]. split; [|split].
    + rewrite parse_text_index. apply length_map.
    + rewrite <- (FindAll_nil_iff messageRe text messageRe_nonempty).
      unfold parse_text.
      destruct (FindAllStringSubmatch messageRe text); simpl; split; congruence.
    + rewrite parse_text_index. apply Forall2_map_diag. intros b.
      unfold message_of_match. simpl. rewrite !nth_submatch.
      split; [reflexivity|]. split.
      * rewrite fields_index. apply length_map.
      * rewrite <- (FindAll_nil_iff fieldRe _ fieldRe_nonempty).
        destruct (FindAllStringSubmatch fieldRe _); simpl; split; congruence.
Qed.

(** C5. The declaration of a field is [PythonType] of its type, whatever
    its repetition flag; the flag is parsed and copied to the mapped
    field, and two data that differ in repetition flags only render the
    same text in each of the six files. *)
Theorem repeated_flag_not_rendered :
  (forall f,
      rf_Repeated (render_field f) = pf_Repeated f /\
      rf_DjangoType (render_field f) = PythonType (pf_Type f)) /\
  (forall d d',
      forget_repeated d = forget_repeated d' ->
      Forall (fun nt =>
                exists tree s,
                  template_Parse (snd nt) = inr tree /\
                  renders tree (value_of_data d) s /\
                  renders tree (value_of_data d') s)
             files) /\
  parse_text "message Post { repeated string tags = 1; }" =
    [ {| pm_Name := "Post";
         pm_Fields := [ {| pf_Name := "tags"; pf_Type := "string";
                           pf_Repeated := true |} ] |} ] /\
  parse_text "message Post { string tags = 1; }" =
    [ {| pm_Name := "Post";
         pm_Fields := [ {| pf_Name := "tags"; pf_Type := "string";
                           pf_Repeated := false |} ] |} ].
Proof.
  split; [intros f; split; reflexivity|].
  split; [|split; vm_compute; reflexivity].
  intros d d' E.
  apply (same_rendering d d' files rendered_files).
  - apply rendered_files_correct.
  - apply rendered_files_correct.
  - pose proof (closed_forms_forget d) as C. pose proof (closed_forms_forget d') as C'.
    rewrite E in C. clear E.
    induction rendered_files as [|r l IH]; [constructor|].
    apply Forall_cons in C, C'. destruct C as [C1 C], C' as [C1' C'].
    constructor; [congruence | now apply IH].
Qed.

(** C6. A message block whose body has no match of the field pattern
    parses, without error, to a message with no fields, and in a run that
    succeeds its class in [models.py] has the body [pass]. *)
Theorem empty_message_renders_pass (os : OS) (order : list (string * string))
    (protoPath dir text : string) (w w' : world) (block : list string) :
  order ≡ₚ files ->
  os_ReadFile os protoPath = inr text ->
  GenerateApp os order protoPath dir w = (None, w') ->
  In block (FindAllStringSubmatch messageRe text) ->
  FindAllStringSubmatch fieldRe (nth 2 block EmptyString) = [] ->
  fst (ParseProto os protoPath w) = inr (parse_text text) /\
  In (message_of_match block) (parse_text text) /\
  pm_Name (message_of_match block) = nth 1 block EmptyString /\
  pm_Fields (message_of_match block) = [] /\
  exists c,
    disk w' !! Join [dir; "models.py"] = Some c /\
    contains c
      (nl +:+ "class " +:+ nth 1 block EmptyString +:+ "(models.Model):" +:+ nl +:+
       "    pass" +:+ nl).
Proof.
  intros P R G Hin Hnone.
  assert (Hm : In (message_of_match block) (parse_text text)).
  { unfold parse_text. apply in_map_iff. now exists block. }
  assert (Hf : pm_Fields (message_of_match block) = []).
  { unfold message_of_match. simpl. now rewrite Hnone. }
  split; [now apply ParseProto_loaded|].
  split; [exact Hm|]. split; [reflexivity|]. split; [exact Hf|].
  pose proof (GenerateApp_rendered _ _ _ _ _ _ _ P R G) as F.
  apply Forall_cons in F. destruct F as [F _]. simpl in F.
  eexists. split; [exact F|].
  unfold models_py. apply contains_middle.
  assert (Hr : In (render_message (message_of_match block))
                  (Messages (template_data dir (parse_text text)))).
  { simpl. apply in_map_iff. now exists (message_of_match block). }
  pose proof (sections_contains model_class _ _ Hr) as C.
  unfold model_class in C at 2. simpl rm_Name in C. simpl rm_Fields in C.
  rewrite Hnone in C. exact C.
Qed.

(** C7. In a run that succeeds, every parsed message gets a serializer
    class named after it, a model view-set class bound to that serializer,
    a router registration under the lower-cased message name, and an admin
    registration.  The name is made of word characters, so lower-casing
    it is lowering its ASCII letters. *)
Theorem GenerateApp_per_message_artifacts (os : OS)
    (order : list (string * string)) (protoPath dir text : string)
    (w w' : world) (m : ProtoMessage) :
  order ≡ₚ files ->
  os_ReadFile os protoPath = inr text ->
  GenerateApp os order protoPath dir w = (None, w') ->
  In m (parse_text text) ->
  forallb_string is_word (pm_Name m) = true /\
  ToLower (pm_Name m) = map_string lower_byte (pm_Name m) /\
  (exists c,
      disk w' !! Join [dir; "serializers.py"] = Some c /\
      contains c
        (nl +:+ "class " +:+ pm_Name m +:+
         "Serializer(serializers.ModelSerializer):" +:+ nl +:+
         "    class Meta:" +:+ nl +:+
         "        model = " +:+ pm_Name m +:+ nl +:+
         "        fields = '__all__'" +:+ nl)) /\
  (exists c,
      disk w' !! Join [dir; "viewsets.py"] = Some c /\
      contains c
        (nl +:+ "class " +:+ pm_Name m +:+
         "ViewSet(viewsets.ModelViewSet):" +:+ nl +:+
         "    queryset = " +:+ pm_Name m +:+ ".objects.all()" +:+ nl +:+
         "    serializer_class = " +:+ pm_Name m +:+ "Serializer" +:+ nl)) /\
  (exists c,
      disk w' !! Join [dir; "urls.py"] = Some c /\
      contains c
        (nl +:+ "router.register(r'" +:+ ToLower (pm_Name m) +:+ "', " +:+
         pm_Name m +:+ "ViewSet)" +:+ nl)) /\
  (exists c,
      disk w' !! Join [dir; "admin.py"] = Some c /\
      contains c (nl +:+ "admin.site.register(" +:+ pm_Name m +:+ ")" +:+ nl)).
Proof.
  intros P R G Hin.
  pose proof (GenerateApp_rendered _ _ _ _ _ _ _ P R G) as F.
  repeat (apply Forall_cons in F; destruct F as [? F]).
  simpl in * |-.
  assert (Hr : In (render_message m)
                  (Messages (template_data dir (parse_text text)))).
  { simpl. apply in_map_iff. now exists m. }
  assert (Hw : forallb_string is_word (pm_Name m) = true).
  { pose proof (parsed_identifiers text) as W. rewrite Forall_forall in W.
    apply W. now apply list_elem_of_In. }
  split; [exact Hw|]. split; [now apply ToLower_word|].
  repeat split; eexists; (split; [eassumption|]).
  - unfold serializers_py.
    in_sections (sections_contains serializer_class _ _ Hr).
  - unfold viewsets_py.
    in_sections (sections_contains viewset_class _ _ Hr).
  - unfold urls_py.
    in_sections (sections_contains router_registration _ _ Hr).
  - unfold admin_py.
    in_sections (sections_contains admin_registration _ _ Hr).
Qed.

(** C8. The application identifier of the rendering context is the final
    segment of the output directory ([filepath.Base]), the title is the
    title-cased identifier, and neither is validated: the context is built
    for every path, and on a writable system the run succeeds whatever the
    path is. *)
Theorem template_data_names (outputDir : string) (msgs : list ProtoMessage) :
  AppName (template_data outputDir msgs) = Base outputDir /\
  AppTitle (template_data outputDir msgs) =
    caser_String (AppName (template_data outputDir msgs)) /\
  Messages (template_data outputDir msgs) = map render_message msgs /\
  (forallb_string is_sep outputDir = false ->
   final_segment outputDir (AppName (template_data outputDir msgs))) /\
  (forallb_string is_sep outputDir = true ->
   AppName (template_data outputDir msgs) =
   if is_empty outputDir then "." else String Separator EmptyString) /\
  (forall os order protoPath text w,
      writable os -> order ≡ₚ files ->
      os_ReadFile os protoPath = inr text ->
      fst (GenerateApp os order protoPath outputDir w) = None).
Proof.
  repeat split; try reflexivity.
  - simpl. now apply Base_final_segment.
  - simpl. now apply Base_final_segment.
  - simpl. now apply Base_final_segment.
  - simpl. now apply Base_degenerate.
  - intros. now apply (GenerateApp_writable os order protoPath outputDir text w).
Qed.


(** C10. When no message block matches (the empty file included), a run
    on a writable system succeeds and leaves all nine files: the two empty
    package markers, the one-line test stub, and the six rendered files
    with their fixed headers and boilerplate only. *)
Theorem GenerateApp_without_messages (os : OS) (order : list (string * string))
    (protoPath dir text : string) (w : world) :
  writable os -> order ≡ₚ files ->
  os_ReadFile os protoPath = inr text ->
  FindAllStringSubmatch messageRe text = [] ->
  exists w',
    GenerateApp os order protoPath dir w = (None, w') /\
    disk w' !! Join [dir; "migrations"; "__init__.py"] = Some EmptyString /\
    disk w' !! Join [dir; "__init__.py"] = Some EmptyString /\
    disk w' !! Join [dir; "tests.py"] = Some ("# placeholder" +:+ nl) /\
    disk w' !! Join [dir; "models.py"] =
      Some ("from django.db import models" +:+ nl) /\
    disk w' !! Join [dir; "serializers.py"] =
      Some ("from rest_framework import serializers" +:+ nl +:+ nl +:+ nl +:+ nl) /\
    disk w' !! Join [dir; "viewsets.py"] =
      Some ("from rest_framework import viewsets" +:+ nl +:+ nl +:+ nl +:+ nl) /\
    disk w' !! Join [dir; "urls.py"] =
      Some ("from django.urls import path, include" +:+ nl +:+
            "from rest_framework.routers import DefaultRouter" +:+ nl +:+
            nl +:+ nl +:+
            "router = DefaultRouter()" +:+ nl +:+
            nl +:+ nl +:+
            "urlpatterns = [" +:+ nl +:+
            "    path('', include(router.urls))," +:+ nl +:+
            "]" +:+ nl) /\
    disk w' !! Join [dir; "admin.py"] =
      Some ("from django.contrib import admin" +:+ nl +:+ nl +:+ nl +:+ nl) /\
    disk w' !! Join [dir; "apps.py"] =
      Some ("from django.apps import AppConfig" +:+ nl +:+ nl +:+
            "class " +:+ caser_String (Base dir) +:+ "Config(AppConfig):" +:+ nl +:+
            "    default_auto_field = 'django.db.models.BigAutoField'" +:+ nl +:+
            "    name = '" +:+ Base dir +:+ "'" +:+ nl).
Proof.
  intros Hw P R Hnone.
  pose proof (GenerateApp_writable os order protoPath dir text w Hw P R) as Hok.
  destruct (GenerateApp os order protoPath dir w) as [r w'] eqn:G.
  simpl in Hok. subst r. exists w'. split; [reflexivity|].
  pose proof (GenerateApp_rendered _ _ _ _ _ _ _ P R G) as F.
  assert (Hparse : parse_text text = []) by (unfold parse_text; now rewrite Hnone).
  rewrite Hparse in F.
  destruct (GenerateApp_cases os order protoPath dir w)
    as [(e & R' & _)|[(t & e & _ & M' & _)|(t & R' & _ & G')]].
  - congruence.
  - destruct Hw as (M & _). rewrite M in M'. discriminate.
  - rewrite G in G'. symmetry in G'.
    destruct Hw as (_ & W & _).
    destruct (static_files_written os dir
                (log OpMkdirAll (Join [dir; "migrations"]) None
                     (log OpReadFile protoPath None w)) W) as (S1 & S2 & S3).
    rewrite <- (render_files_static _ _ _ _ _ _ _ ["migrations"; "__init__.py"] P
                  ltac:(solve_In) G') in S1.
    rewrite <- (render_files_static _ _ _ _ _ _ _ ["__init__.py"] P
                  ltac:(solve_In) G') in S2.
    rewrite <- (render_files_static _ _ _ _ _ _ _ ["tests.py"] P
                  ltac:(solve_In) G') in S3.
    repeat (apply Forall_cons in F; destruct F as [? F]).
    simpl in *. repeat split; assumption.
Qed.

(** * Further properties of the program *)

(** ** Which files a run touches *)

Lemma files_output_path (dir n t : string) :
  (n, t) ∈ files -> Join [dir; n] ∈ output_paths dir.
Proof.
  intros H. unfold output_paths.
  apply (list_elem_of_fmap_2 (fun l => Join (dir :: l)) _ [n]).
  eapply files_output_name. exact H.
Qed.

Lemma static_files_footprint (os : OS) (dir : string) (w : world) (p : string) :
  disk (static_files os dir w) !! p = disk w !! p \/
  p ∈ output_paths dir /\ is_Some (disk (static_files os dir w) !! p).
Proof.
  rewrite static_files_lookup.
  repeat case_decide; subst;
    try (now left);
    (destruct (written_content os _ _); [|now left]; right; split; [|eauto]);
    unfold output_paths.
  - apply (list_elem_of_fmap_2 (fun l => Join (dir :: l)) _ ["tests.py"]). solve_In.
  - apply (list_elem_of_fmap_2 (fun l => Join (dir :: l)) _ ["__init__.py"]). solve_In.
  - apply (list_elem_of_fmap_2 (fun l => Join (dir :: l)) _
             ["migrations"; "__init__.py"]). solve_In.
Qed.

Lemma GenerateApp_lookup (os : OS) (order : list (string * string))
    (protoPath dir : string) (w : world) (p : string) :
  order ≡ₚ files ->
  disk (snd (GenerateApp os order protoPath dir w)) !! p = disk w !! p \/
  p ∈ output_paths dir /\
  is_Some (disk (snd (GenerateApp os order protoPath dir w)) !! p).
Proof.
  intros P.
  destruct (GenerateApp_cases os order protoPath dir w)
    as [(e & R & G)|[(t & e & R & M & G)|(t & R & M & G)]]; rewrite G.
  - now left.
  - now left.
  - set (w2 := log OpMkdirAll _ None _).
    destruct (render_files os (template_data dir (parse_text t)) dir order
                (static_files os dir w2)) as [r w'] eqn:E.
    destruct (render_files_lookup _ _ _ _ _ _ _ E p)
      as [Hsame|(n & tm & c & Hin & Hp & _ & Hl)].
    + simpl. rewrite Hsame.
      destruct (static_files_footprint os dir w2 p) as [S|[S1 S2]].
      * left. rewrite S. reflexivity.
      * right. split; [exact S1 | exact S2].
    + right. simpl. split; [|rewrite Hl; eauto].
      rewrite Hp. apply (files_output_path dir n tm). now rewrite <- P.
Qed.

(** X1. A run changes no file other than the nine output paths, removes
    no file, and leaves the store as it was when the input cannot be read
    or the migrations directory cannot be created. *)
Theorem GenerateApp_footprint (os : OS) (order : list (string * string))
    (protoPath dir : string) (w : world) :
  order ≡ₚ files ->
  (forall p, p ∉ output_paths dir ->
             disk (snd (GenerateApp os order protoPath dir w)) !! p = disk w !! p) /\
  (forall p, is_Some (disk w !! p) ->
             is_Some (disk (snd (GenerateApp os order protoPath dir w)) !! p)) /\
  ((exists e, os_ReadFile os protoPath = inl e) \/
   (exists e, os_MkdirAll os (Join [dir; "migrations"]) = Some e) ->
   disk (snd (GenerateApp os order protoPath dir w)) = disk w).
Proof.
  intros P. split; [|split].
  - intros p Hp.
    destruct (GenerateApp_lookup os order protoPath dir w p P) as [H|[H _]];
      [exact H | contradiction].
  - intros p Hp.
    destruct (GenerateApp_lookup os order protoPath dir w p P) as [H|[_ H]];
      [now rewrite H | exact H].
  - intros H.
    destruct (GenerateApp_cases os order protoPath dir w)
      as [(e & R & G)|[(t & e & R & M & G)|(t & R & M & G)]].
    + now rewrite G.
    + now rewrite G.
    + destruct H as [[e H]|[e H]]; congruence.
Qed.

(** X2. Whatever the output directory is, the nine output paths are
    pairwise distinct, so that no file of the generated application
    overwrites another, and none of them is the path of the migrations
    directory that [MkdirAll] creates. *)
Theorem output_paths_distinct (dir : string) :
  NoDup (output_paths dir) /\ length (output_paths dir) = 9 /\
  Forall (fun p => p <> Join [dir; "migrations"]) (output_paths dir).
Proof.
  split; [apply output_paths_NoDup|]. split; [reflexivity|].
  unfold output_paths. apply Forall_map. apply Forall_forall. intros l Hl E.
  pose proof output_names_simple as F. rewrite Forall_forall in F.
  destruct (F l Hl) as [N S].
  apply (Join_inj dir l ["migrations"]) in E;
    [| exact N | discriminate | exact S | now repeat constructor].
  subst l. apply list_elem_of_In in Hl. simpl in Hl.
  repeat (destruct Hl as [Hl|Hl]; [discriminate|]). exact Hl.
Qed.

(** ** When a run succeeds, and what it reports when it does not *)

Lemma walkList_text_first (text : string) (l : list node) (dot : value) :
  fst (walkList (TextNode text :: l) dot) = text :: fst (walkList l dot).
Proof. rewrite walkList_cons. simpl. reflexivity. Qed.

Lemma take_bytes_prefix (n : nat) (s : string) :
  exists tail, s = take_bytes n s +:+ tail.
Proof.
  revert n. induction s as [|c s IH]; intros [|n]; simpl; eauto.
  destruct (IH n) as (tail & E). exists tail. now rewrite <- E.
Qed.

(** A failing [Write] ends the execution with its error, and the file
    holds the bytes written before it. *)
Lemma write_chunks_fails (os : OS) (path : string) (chunks : list string)
    (e : error) :
  file_Write os path = Some e -> chunks <> [] ->
  forall index written,
  exists written' tail,
    write_chunks os path chunks index written = (written', Some e) /\
    written +:+ concat_strings chunks = written' +:+ tail.
Proof.
  intros W. induction chunks as [|c chunks IH]; [congruence|].
  intros _ index written. simpl. rewrite W.
  assert (Here : exists written' tail,
             (written +:+ take_bytes (file_Write_bytes os path) c, Some e)
             = (written', Some e) /\
             written +:+ c +:+ concat_strings chunks = written' +:+ tail).
  { destruct (take_bytes_prefix (file_Write_bytes os path) c) as (t & E).
    exists (written +:+ take_bytes (file_Write_bytes os path) c),
           (t +:+ concat_strings chunks).
    split; [reflexivity|]. rewrite E at 1. now rewrite !append_assoc. }
  destruct index as [|index]; [exact Here|].
  destruct chunks as [|c' chunks]; [exact Here|].
  destruct (IH ltac:(discriminate) index (written +:+ c)) as (written' & tail & E1 & E2).
  exists written', tail. split; [exact E1|].
  rewrite <- E2. now rewrite append_assoc.
Qed.

Lemma rendered_files_text_first :
  Forall (fun r => exists text l, snd (fst r) = TextNode text :: l) rendered_files.
Proof. repeat constructor; simpl; eauto. Qed.


(** For the six entries of [files], parsing and executing the template
    never fails: the result is that of creating and writing the file, and
    a file that was created holds its rendering, or a prefix of it when a
    write failed. *)
Lemma render_result_entry (os : OS) (d : TemplateData) (path name tmpl : string) :
  (name, tmpl) ∈ files ->
  render_result os tmpl d path = entry_result os path /\
  (entry_result os path = None ->
   exists tree s, template_Parse tmpl = inr tree /\
                  renders tree (value_of_data d) s /\
                  rendered_content os tmpl d path = Some s) /\
  (os_Create os path = None ->
   exists tree s c, template_Parse tmpl = inr tree /\
                    renders tree (value_of_data d) s /\
                    rendered_content os tmpl d path = Some c /\
                    has_prefix c s).
Proof.
  intros Hin. apply list_elem_of_lookup in Hin. destruct Hin as [i Hi].
  destruct (Forall2_lookup_l _ _ _ _ _ (rendered_files_correct d) Hi)
    as (r & Hr & _ & Hparse & Hrenders).
  simpl in Hparse.
  pose proof rendered_files_text_first as T. rewrite Forall_forall in T.
  destruct (T r (list_elem_of_lookup_2 _ _ _ Hr)) as (text & l & Htree).
  assert (Hchunks : forall chunks,
             walkList (snd (fst r)) (value_of_data d) = (chunks, None) ->
             chunks <> []).
  { intros chunks Hw.
    pose proof (walkList_text_first text l (value_of_data d)) as F.
    rewrite <- Htree, Hw in F. simpl in F. rewrite F. discriminate. }
  assert (R : render_result os tmpl d path = entry_result os path).
  { unfold render_result, renderToFile, entry_result. rewrite Hparse.
    destruct (os_Create os path) as [e|]; [reflexivity|].
    destruct (file_Write os path) as [e|] eqn:W.
    - destruct Hrenders as (chunks & Hw & _). unfold Execute. rewrite Hw.
      destruct (write_chunks_fails os path chunks e W (Hchunks _ Hw)
                  (file_Write_index os path) EmptyString)
        as (written' & tail & -> & _).
      reflexivity.
    - rewrite (Execute_renders os _ path _ _ Hrenders W). reflexivity. }
  split; [exact R|]. split.
  - intros E. exists (snd (fst r)), (snd r d).
    split; [exact Hparse|]. split; [exact Hrenders|].
    eapply rendered_entry_content; [exact Hparse | exact Hrenders |].
    now rewrite R.
  - intros C. exists (snd (fst r)), (snd r d).
    unfold rendered_content. rewrite Hparse, C.
    destruct (file_Write os path) as [e|] eqn:W.
    + pose proof Hrenders as (chunks & Hw & Hs). unfold Execute. rewrite Hw.
      destruct (write_chunks_fails os path chunks e W (Hchunks _ Hw)
                  (file_Write_index os path) EmptyString)
        as (written' & tail & -> & E).
      exists written'. split; [reflexivity|]. split; [exact Hrenders|].
      split; [reflexivity|]. exists tail. now rewrite <- Hs, <- E.
    + rewrite (Execute_renders os _ path _ _ Hrenders W).
      exists (snd r d). split; [reflexivity|]. split; [exact Hrenders|].
      split; [reflexivity|]. exists EmptyString. now rewrite append_nil_r.
Qed.

(** X3. A run succeeds exactly when the input can be read, the
    migrations directory can be created, and each of the six rendered
    files can be created and written: the templates themselves never fail
    to parse or to execute, whatever the input holds, and the three static
    files play no part. *)
Theorem GenerateApp_succeeds_iff (os : OS) (order : list (string * string))
    (protoPath dir : string) (w : world) :
  order ≡ₚ files ->
  (fst (GenerateApp os order protoPath dir w) = None <->
   (exists text, os_ReadFile os protoPath = inr text) /\
   os_MkdirAll os (Join [dir; "migrations"]) = None /\
   Forall (fun name =>
             os_Create os (Join [dir; name]) = None /\
             file_Write os (Join [dir; name]) = None)
          (map fst files)).
Proof.
  intros P.
  assert (E : forall data,
             Forall (fun nt => render_result os (snd nt) data (Join [dir; fst nt]) = None)
                    order <->
             Forall (fun name =>
                       os_Create os (Join [dir; name]) = None /\
                       file_Write os (Join [dir; name]) = None)
                    (map fst files)).
  { intros data. rewrite P. rewrite Forall_fmap.
    rewrite !Forall_forall.
    assert (A : forall nt, nt ∈ files ->
                  render_result os (snd nt) data (Join [dir; fst nt]) = None <->
                  os_Create os (Join [dir; fst nt]) = None /\
                  file_Write os (Join [dir; fst nt]) = None).
    { intros [name tmpl] Hin. simpl.
      destruct (render_result_entry os data (Join [dir; name]) name tmpl Hin)
        as (-> & _).
      unfold entry_result.
      destruct (os_Create os (Join [dir; name])).
      - split; [discriminate | now intros [? _]].
      - split; [now split | now intros [_ ?]]. }
    split; intros F nt Hin; apply (A nt Hin), F, Hin. }
  destruct (GenerateApp_cases os order protoPath dir w)
    as [(e & R & G)|[(t & e & R & M & G)|(t & R & M & G)]]; rewrite G.
  - simpl. split; [discriminate|]. intros ([t Ht] & _). congruence.
  - simpl. split; [discriminate|]. intros (_ & M' & _). congruence.
  - rewrite render_files_result, E. split.
    + intros F. split; [now exists t|]. now split.
    + now intros (_ & _ & F).
Qed.

Lemma render_files_error (os : OS) (data : TemplateData) (dir : string)
    (order : list (string * string)) :
  forall w err,
    fst (render_files os data dir order w) = Some err ->
    exists name tmpl e,
      (name, tmpl) ∈ order /\
      render_result os tmpl data (Join [dir; name]) = Some e /\
      err = Errorf ("failed to render " +:+ name +:+ ": ") e.
Proof.
  induction order as [|[name tmpl] order IH]; simpl; intros w err H.
  - discriminate.
  - pose proof (renderToFile_result os tmpl data (Join [dir; name]) w) as Hr.
    destruct (renderToFile os tmpl data (Join [dir; name]) w) as [[e|] w1];
      simpl in Hr.
    + simpl in H. injection H as <-. exists name, tmpl, e.
      split; [apply list_elem_of_here|]. now split.
    + destruct (IH _ _ H) as (n & t & e & Hin & He & ->).
      exists n, t, e. split; [now apply list_elem_of_further|]. now split.
Qed.

Lemma has_prefix_failed (s : string) : has_prefix "failed to " ("failed to " +:+ s).
Proof. now exists s. Qed.

(** X4. The message of an error that a run returns starts with
    [failed to] and names the stage: reading the input, creating the
    migrations directory, or rendering one of the six files, and there
    either creating the file or writing it.  No other error is ever
    returned: the templates always parse and execute. *)
Theorem GenerateApp_error_message (os : OS) (order : list (string * string))
    (protoPath dir : string) (w : world) (err : error) :
  order ≡ₚ files ->
  fst (GenerateApp os order protoPath dir w) = Some err ->
  has_prefix "failed to " (Error err) /\
  ((exists e, os_ReadFile os protoPath = inl e /\
              Error err = "failed to read proto file: " +:+ Error e) \/
   (exists e, os_MkdirAll os (Join [dir; "migrations"]) = Some e /\
              Error err = "failed to create migrations directory: " +:+ Error e) \/
   (exists name e,
       In name (map fst files) /\
       (os_Create os (Join [dir; name]) = Some e /\
        Error err = "failed to render " +:+ name +:+ ": " +:+
                    "failed to create file: " +:+ Error e
        \/
        os_Create os (Join [dir; name]) = None /\
        file_Write os (Join [dir; name]) = Some e /\
        Error err = "failed to render " +:+ name +:+ ": " +:+ Error e))).
Proof.
  intros P H.
  destruct (GenerateApp_cases os order protoPath dir w)
    as [(e & R & G)|[(t & e & R & M & G)|(t & R & M & G)]]; rewrite G in H.
  - injection H as <-. split; [apply has_prefix_failed|].
    left. now exists e.
  - injection H as <-. split; [apply has_prefix_failed|].
    right. left. now exists e.
  - apply render_files_error in H. destruct H as (name & tmpl & e & Hin & Hr & ->).
    split; [simpl; rewrite !append_assoc; apply has_prefix_failed|].
    right. right. rewrite P in Hin.
    destruct (render_result_entry os (template_data dir (parse_text t))
                (Join [dir; name]) name tmpl Hin) as (E & _).
    rewrite E in Hr. unfold entry_result in Hr.
    assert (Hname : In name (map fst files)).
    { apply list_elem_of_In.
      apply (list_elem_of_fmap_2 fst _ (name, tmpl)). exact Hin. }
    destruct (os_Create os (Join [dir; name])) as [c|] eqn:C.
    + injection Hr as <-. exists name, c. split; [exact Hname|]. left.
      split; [exact C|]. simpl. now rewrite !append_assoc.
    + exists name, e. split; [exact Hname|]. right.
      split; [exact C|]. split; [exact Hr|]. simpl. now rewrite !append_assoc.
Qed.

(** ** What a failed run leaves behind *)



(** ** PythonType keeps the types apart *)

Lemma append_inv_tail (a b c : string) : a +:+ c = b +:+ c -> a = b.
Proof.
  intros H. apply (f_equal rev_string) in H. rewrite !rev_string_app in H.
  apply append_inv_head in H. apply (f_equal rev_string) in H.
  now rewrite !rev_string_involutive in H.
Qed.

Lemma PythonType_cases (t : string) :
  In t scalar_types /\ In (PythonType t) scalar_declarations \/
  ~ In t scalar_types /\
  PythonType t = "models.ForeignKey(" +:+ t +:+ ", on_delete=models.CASCADE)".
Proof.
  unfold PythonType.
  repeat match goal with
         | |- context [(t =? ?s)%string] =>
             destruct (String.eqb_spec t s) as [->|?];
             [left; split; simpl; auto 10|]
         end.
  right. split; [|reflexivity].
  simpl. intros H. repeat (destruct H as [H|H]; [congruence|]). exact H.
Qed.

(** X6. [PythonType] keeps scalar and message types apart and loses no
    message type: the declaration is one of the four scalar declarations
    exactly when the type is one of the six scalar keywords, and two types
    with the same declaration, one of them not scalar, are the same
    type. *)
Theorem PythonType_separates :
  (forall t, In t scalar_types <-> In (PythonType t) scalar_declarations) /\
  (forall t1 t2, ~ In t1 scalar_types ->
                 PythonType t1 = PythonType t2 -> t1 = t2).
Proof.
  assert (A : forall t,
             ~ In ("models.ForeignKey(" +:+ t +:+ ", on_delete=models.CASCADE)")
                  scalar_declarations).
  { intros t H. simpl in H.
    repeat (destruct H as [H|H]; [discriminate|]). exact H. }
  split.
  - intros t. destruct (PythonType_cases t) as [[S D]|[S D]].
    + now split.
    + split; [contradiction|]. rewrite D. intros H. now apply A in H.
  - intros t1 t2 N E.
    destruct (PythonType_cases t1) as [[S1 _]|[_ D1]]; [contradiction|].
    destruct (PythonType_cases t2) as [[_ D2]|[_ D2]].
    + exfalso. rewrite <- E, D1 in D2. now apply A in D2.
    + rewrite D1, D2 in E. apply append_inv_head in E.
      now apply append_inv_tail in E.
Qed.

(** ** The command line *)

Lemma split_at_equals_spec (s n v : string) :
  split_at_equals s = Some (n, v) -> s = n +:+ "=" +:+ v.
Proof.
  revert n. induction s as [|c s IH]; simpl; intros n H; [discriminate|].
  destruct (Ascii.eqb_spec c "=") as [->|_].
  - now injection H as <- <-.
  - destruct (split_at_equals s) as [[n' v']|]; [|discriminate].
    injection H as <- <-. now rewrite (IH n' eq_refl).
Qed.

Lemma flag_name_value_proto (name : string) (value : option string) :
  flag_name_value name = IsFlag "proto" value -> starts_with "proto" name = true.
Proof.
  destruct name as [|c rest]; simpl; [discriminate|].
  destruct (Ascii.eqb c "-" || Ascii.eqb c "="); [discriminate|].
  destruct (split_at_equals rest) as [[n v]|] eqn:E.
  - intros [= -> -> _]. apply split_at_equals_spec in E. now subst rest.
  - now intros [= -> ->].
Qed.

Lemma read_flag_proto (s : string) (value : option string) :
  read_flag s = IsFlag "proto" value -> mentions_proto s = true.
Proof.
  unfold read_flag, mentions_proto.
  destruct s as [|c0 [|c1 rest]]; try discriminate.
  destruct (Ascii.eqb_spec c0 "-") as [->|_]; [|discriminate]. simpl negb. cbv iota.
  destruct (Ascii.eqb_spec c1 "-") as [->|_].
  - destruct (is_empty rest); [discriminate|]. intros H.
    apply flag_name_value_proto in H.
    apply orb_true_iff. right. simpl. exact H.
  - intros H. apply flag_name_value_proto in H.
    apply orb_true_iff. left. exact H.
Qed.

(** Parsing arguments none of which mentions the flag leaves the
    variable of the flag as it was. *)
Lemma flag_Parse_proto (n : nat) :
  forall args fl fl',
    length args <= n ->
    Forall (fun a => mentions_proto a = false) args ->
    flag_Parse args fl = inr fl' -> fl_proto fl' = fl_proto fl.
Proof.
  induction n as [|n IH]; intros args fl fl' L F H.
  - destruct args; [|simpl in L; lia]. now injection H as <-.
  - destruct args as [|s rest]; [now injection H as <-|].
    simpl in L. apply Forall_cons in F. destruct F as [Fs F].
    simpl in H.
    destruct (read_flag s) as [| | |name value] eqn:R;
      try (now injection H as <-); try discriminate.
    assert (Hn : (name =? "proto")%string = false).
    { destruct (String.eqb_spec name "proto") as [->|]; [|reflexivity].
      apply read_flag_proto in R. congruence. }
    assert (Hset : forall v, fl_proto (flag_Set name v fl) = fl_proto fl).
    { intros v. unfold flag_Set. now rewrite Hn. }
    destruct (negb (formal name)).
    { destruct ((name =? "help")%string || (name =? "h")%string); discriminate. }
    destruct value as [v|].
    + rewrite <- (Hset v). apply (IH rest); [lia | exact F | exact H].
    + destruct rest as [|v rest']; [discriminate|].
      apply Forall_cons in F. destruct F as [_ F]. simpl in L.
      rewrite <- (Hset v). apply (IH rest'); [lia | exact F | exact H].
Qed.

(** X7. Without an argument that starts with [-proto] or [--proto], a
    positional argument included, the program reads and writes nothing,
    prints nothing on its standard output and ends with the usage message
    and status 1, unless the flags themselves are in error (status 2) or
    help was asked for (status 0). *)
Theorem main_without_proto_flag (os : OS) (order : list (string * string))
    (args : list string) (w : world) :
  Forall (fun a => mentions_proto a = false) args ->
  snd (main os order args w) = w /\
  (fst (main os order args w) = Outcome 1 [LogFatal usage_message] \/
   fst (main os order args w) = Outcome 0 [FlagUsage] \/
   exists msg, fst (main os order args w) = Outcome 2 [FlagFail msg]).
Proof.
  intros F. unfold main.
  destruct (flag_Parse args flag_defaults) as [[|msg]|fl] eqn:P.
  - split; [reflexivity|]. right. now left.
  - split; [reflexivity|]. right. right. now exists msg.
  - apply (flag_Parse_proto (length args)) in P; [|lia|exact F].
    simpl in P. rewrite P. simpl. split; [reflexivity | now left].
Qed.

Lemma main_parsed (os : OS) (order : list (string * string))
    (args args' : list string) (w : world) :
  flag_Parse args flag_defaults = flag_Parse args' flag_defaults ->
  main os order args w = main os order args' w.
Proof. unfold main. now intros ->. Qed.

(** X8. The two flags may be written with one dash or two, with the
    value after an equals sign or as the next argument, and in either
    order; what follows [--] is ignored; without [-out] the output
    directory is [generated_app]; and the values are taken as they are,
    so that the program run with [-proto p -out d] is [GenerateApp p d]
    followed by the report of its result. *)
Theorem main_flag_forms (os : OS) (order : list (string * string))
    (p d : string) (rest : list string) (w : world) :
  main os order ["--proto"; p; "--out"; d] w =
    main os order ["-proto"; p; "-out"; d] w /\
  main os order ["-proto=" +:+ p; "--out=" +:+ d] w =
    main os order ["-proto"; p; "-out"; d] w /\
  main os order ["-out"; d; "-proto"; p] w =
    main os order ["-proto"; p; "-out"; d] w /\
  main os order (["-proto"; p; "-out"; d; "--"] ++ rest) w =
    main os order ["-proto"; p; "-out"; d] w /\
  main os order ["-proto"; p] w =
    main os order ["-proto"; p; "-out"; "generated_app"] w /\
  main os order ["-proto"; p; "-out"; d] w =
    if is_empty p then (Outcome 1 [LogFatal usage_message], w)
    else match GenerateApp os order p d w with
         | (Some err, w') => (Outcome 1 [LogFatal ("Error: " +:+ Error err)], w')
         | (None, w') => (Outcome 0 [Stdout (confirmation d)], w')
         end.
Proof.
  repeat split; try (apply main_parsed; reflexivity).
Qed.



(** ** What the patterns match *)

Lemma iterate_self (body : mstate -> list mstate) (fuel : nat) (st : mstate) :
  In st (iterate body fuel st).
Proof.
  destruct fuel; simpl; [now left|]. apply in_or_app. right. now left.
Qed.

Lemma is_empty_length (u : string) : is_empty u = false <-> 0 < String.length u.
Proof. destruct u; simpl; split; intros H; (discriminate || lia || reflexivity). Qed.

Lemma arrives_refl_Star (a : regex) (st : mstate) : arrives (Star a) st st.
Proof.
  exists EmptyString, []. simpl. repeat split; [lia | constructor].
Qed.

Lemma iterate_sound (a : regex) :
  (forall st st', In st' (run a st) -> arrives a st st') ->
  forall fuel st st', In st' (iterate (run a) fuel st) -> arrives (Star a) st st'.
Proof.
  intros Ha. induction fuel as [|fuel IH]; simpl; intros st st' Hin.
  - destruct Hin as [<-|[]]. apply arrives_refl_Star.
  - apply in_app_iff in Hin. destruct Hin as [Hin|[<-|[]]];
      [|apply arrives_refl_Star].
    apply in_flat_map in Hin. destruct Hin as (mid & Hmid & Hin).
    destruct (m_pos st <? m_pos mid) eqn:Lt; [|destruct Hin].
    apply Nat.ltb_lt in Lt.
    destruct (Ha _ _ Hmid) as (u & cu & R1 & P1 & C1 & D1).
    destruct (IH _ _ Hin) as (v & cv & R2 & P2 & C2 & D2).
    exists (u +:+ v), (cv ++ cu). split; [|split; [|split]].
    + now rewrite R1, R2, append_assoc.
    + rewrite P2, P1, append_length. lia.
    + now rewrite C2, C1, app_assoc.
    + apply derives_Star_round.
      * apply is_empty_length. lia.
      * exact D1.
      * now rewrite <- P1.
Qed.

(** Every way [run] finds is a match of the pattern. *)
Lemma run_sound (r : regex) :
  forall st st', In st' (run r st) -> arrives r st st'.
Proof.
  induction r as [| c | k | a IHa b IHb | a IHa | a IHa | a IHa | i a IHa];
    simpl; intros st st' Hin.
  - destruct Hin as [<-|[]]. exists EmptyString, []. simpl.
    repeat split; [lia | constructor].
  - unfold step_byte in Hin. destruct (m_rest st) as [|x s'] eqn:R; [destruct Hin|].
    destruct (Ascii.eqb_spec c x) as [<-|_]; [|destruct Hin].
    destruct Hin as [<-|[]]. exists (String c EmptyString), []. simpl.
    split; [exact R|]. split; [lia|]. split; [reflexivity | constructor].
  - unfold step_byte in Hin. destruct (m_rest st) as [|x s'] eqn:R; [destruct Hin|].
    destruct (cclass_mem k x) eqn:M; [|destruct Hin].
    destruct Hin as [<-|[]]. exists (String x EmptyString), []. simpl.
    split; [exact R|]. split; [lia|]. split; [reflexivity | now constructor].
  - apply in_flat_map in Hin. destruct Hin as (mid & Hmid & Hin).
    destruct (IHa _ _ Hmid) as (u & cu & R1 & P1 & C1 & D1).
    destruct (IHb _ _ Hin) as (v & cv & R2 & P2 & C2 & D2).
    exists (u +:+ v), (cv ++ cu). split; [|split; [|split]].
    + now rewrite R1, R2, append_assoc.
    + rewrite P2, P1, append_length. lia.
    + now rewrite C2, C1, app_assoc.
    + constructor; [exact D1 | now rewrite <- P1].
  - apply in_app_iff in Hin. destruct Hin as [Hin|[<-|[]]].
    + destruct (IHa _ _ Hin) as (u & cu & R1 & P1 & C1 & D1).
      exists u, cu. repeat split; try assumption. now constructor.
    + exists EmptyString, []. simpl. repeat split; [lia | constructor].
  - eapply iterate_sound; eassumption.
  - apply in_flat_map in Hin. destruct Hin as (mid & Hmid & Hin).
    destruct (IHa _ _ Hmid) as (u & cu & R1 & P1 & C1 & D1).
    destruct (iterate_sound a IHa _ _ _ Hin) as (v & cv & R2 & P2 & C2 & D2).
    exists (u +:+ v), (cv ++ cu). split; [|split; [|split]].
    + now rewrite R1, R2, append_assoc.
    + rewrite P2, P1, append_length. lia.
    + now rewrite C2, C1, app_assoc.
    + constructor; [exact D1 | now rewrite <- P1].
  - apply in_map_iff in Hin. destruct Hin as (x & <- & Hin).
    destruct (IHa _ _ Hin) as (u & cu & R1 & P1 & C1 & D1). simpl.
    exists u, ((i, (m_pos st, m_pos st + String.length u)) :: cu).
    split; [exact R1|]. split; [exact P1|]. split.
    + simpl. now rewrite C1, P1.
    + now constructor.
Qed.

(** Every match of the pattern is one of the ways [run] finds. *)
Lemma run_complete (r : regex) (pos : nat) (u : string) c :
  derives r pos u c ->
  forall rest caps,
    In (MState (pos + String.length u) rest (c ++ caps))
       (run r (MState pos (u +:+ rest) caps)).
Proof.
  induction 1 as [pos | x pos | k x pos M
                  | a b pos u v ca cb Da IHa Db IHb
                  | a pos | a pos u c Da IHa
                  | a pos | a pos u v cu cv N Da IHa Ds IHs
                  | a pos u v cu cv Da IHa Ds IHs
                  | i a pos u c Da IHa]; intros rest caps.
  - simpl. left. now rewrite Nat.add_0_r.
  - simpl. unfold step_byte. simpl. rewrite Ascii.eqb_refl. left.
    now rewrite Nat.add_1_r.
  - simpl. unfold step_byte. simpl. rewrite M. left. now rewrite Nat.add_1_r.
  - simpl. apply in_flat_map.
    exists (MState (pos + String.length u) (v +:+ rest) (ca ++ caps)). split.
    + rewrite append_assoc. apply IHa.
    + rewrite append_length, Nat.add_assoc, <- app_assoc. apply IHb.
  - simpl. apply in_or_app. right. left. now rewrite Nat.add_0_r.
  - simpl. apply in_or_app. left. apply IHa.
  - simpl. rewrite Nat.add_0_r. apply iterate_self.
  - apply is_empty_length in N.
    assert (E : String.length (u +:+ (v +:+ rest)) =
                S (String.length (v +:+ rest) + (String.length u - 1)))
      by (rewrite append_length; lia).
    rewrite append_assoc.
    change (run (Star a) (MState pos (u +:+ (v +:+ rest)) caps))
      with (iterate (run a) (String.length (u +:+ (v +:+ rest)))
              (MState pos (u +:+ (v +:+ rest)) caps)).
    rewrite E. simpl. apply in_or_app. left. apply in_flat_map.
    exists (MState (pos + String.length u) (v +:+ rest) (cu ++ caps)). split.
    + apply IHa.
    + simpl. replace (pos <? pos + String.length u) with true
        by (symmetry; apply Nat.ltb_lt; lia).
      pose proof (iterate_enough_fuel (run a) (run_reaches a) (String.length u - 1)
                    (MState (pos + String.length u) (v +:+ rest) (cu ++ caps))) as F.
      unfold m_rest in F. rewrite F.
      rewrite append_length, Nat.add_assoc, <- app_assoc. apply IHs.
  - simpl. apply in_flat_map.
    exists (MState (pos + String.length u) (v +:+ rest) (cu ++ caps)). split.
    + rewrite append_assoc. apply IHa.
    + simpl. rewrite append_length, Nat.add_assoc, <- app_assoc. apply IHs.
  - simpl. apply in_map_iff.
    exists (MState (pos + String.length u) rest (c ++ caps)). split.
    + reflexivity.
    + apply IHa.
Qed.

(** The pieces the two patterns are made of. *)

Lemma derives_lits (s : string) (pos : nat) (u : string) c :
  derives (lits s) pos u c <-> u = s /\ c = [].
Proof.
  split.
  - revert pos u c. induction s as [|x s IH]; simpl; intros pos u c D.
    + inversion D. now split.
    + inversion D as [| | |a b p u1 v1 ca cb Da Db| | | | | |]; subst.
      inversion Da; subst. apply IH in Db. destruct Db as [-> ->]. now split.
  - intros [-> ->]. revert pos. induction s as [|x s IH]; simpl; intros pos.
    + constructor.
    + apply (derives_Cat (Lit x) (lits s) pos (String x EmptyString) s [] []).
      * constructor.
      * apply IH.
Qed.

Lemma derives_Star_Cls (k : cclass) (pos : nat) (u : string) c :
  derives (Star (Cls k)) pos u c <->
  forallb_string (cclass_mem k) u = true /\ c = [].
Proof.
  split.
  - intros D. remember (Star (Cls k)) as r eqn:Er. revert Er.
    induction D as [| | | | | | a pos | a pos u v cu cv N Da _ Ds IHs| |];
      intros Er; try discriminate.
    + now split.
    + injection Er as ->. inversion Da; subst.
      destruct (IHs eq_refl) as [F ->]. simpl. split; [|reflexivity].
      apply andb_true_iff. now split.
  - intros [F ->]. revert pos. induction u as [|x u IH]; intros pos.
    + constructor.
    + simpl in F. apply andb_true_iff in F. destruct F as [Fx F].
      apply (derives_Star_round (Cls k) pos (String x EmptyString) u [] []).
      * reflexivity.
      * now constructor.
      * now apply IH.
Qed.

Lemma derives_Plus_Cls (k : cclass) (pos : nat) (u : string) c :
  derives (Plus (Cls k)) pos u c <->
  is_empty u = false /\ forallb_string (cclass_mem k) u = true /\ c = [].
Proof.
  split.
  - intros D. inversion D as [| | | | | | | |a p u1 v1 cu cv Da Ds|]; subst.
    inversion Da; subst. apply derives_Star_Cls in Ds. destruct Ds as [F ->].
    simpl. split; [reflexivity|]. split; [|reflexivity].
    apply andb_true_iff. now split.
  - intros (N & F & ->). destruct u as [|x u]; [discriminate|].
    simpl in F. apply andb_true_iff in F. destruct F as [Fx F].
    apply (derives_Plus (Cls k) pos (String x EmptyString) u [] []).
    + now constructor.
    + apply derives_Star_Cls. now split.
Qed.

Lemma derives_Cat_iff (a b : regex) (pos : nat) (w : string) c :
  derives (Cat a b) pos w c <->
  exists u v ca cb,
    w = u +:+ v /\ c = cb ++ ca /\
    derives a pos u ca /\ derives b (pos + String.length u) v cb.
Proof.
  split.
  - intros D. inversion D; subst. eauto 10.
  - intros (u & v & ca & cb & -> & -> & Da & Db). now constructor.
Qed.

Lemma derives_Group_iff (i : nat) (a : regex) (pos : nat) (u : string) c :
  derives (Group i a) pos u c <->
  exists c', c = (i, (pos, pos + String.length u)) :: c' /\ derives a pos u c'.
Proof.
  split.
  - intros D. inversion D; subst. eauto.
  - intros (c' & -> & D). now constructor.
Qed.

Lemma derives_Lit_iff (x : ascii) (pos : nat) (u : string) c :
  derives (Lit x) pos u c <-> u = String x EmptyString /\ c = [].
Proof.
  split.
  - intros D. inversion D; subst. now split.
  - intros [-> ->]. constructor.
Qed.

Lemma derives_Quest_iff (a : regex) (pos : nat) (u : string) c :
  derives (Quest a) pos u c <->
  (u = EmptyString /\ c = []) \/ derives a pos u c.
Proof.
  split.
  - intros D. inversion D; subst; [left; now split | now right].
  - intros [[-> ->]|D]; now constructor.
Qed.

Lemma derives_caps_eq (r : regex) (pos : nat) (u : string) c c' :
  derives r pos u c -> c = c' -> derives r pos u c'.
Proof. now intros D <-. Qed.

(** The matches of [messageRe]: the keyword, white space, the name, white
    space if any, and the body between braces; group 1 is the name and
    group 2 the body. *)
Lemma derives_messageRe (pos : nat) (u : string) c :
  derives messageRe pos u c <->
  exists ws1 name ws2 body,
    u = block ws1 name ws2 body /\
    well_formed_block ws1 name ws2 body /\
    c = [(2, (pos + String.length ("message" +:+ ws1 +:+ name +:+ ws2 +:+ "{"),
              pos + String.length ("message" +:+ ws1 +:+ name +:+ ws2 +:+ "{")
                  + String.length body));
         (1, (pos + String.length ("message" +:+ ws1),
              pos + String.length ("message" +:+ ws1) + String.length name))].
Proof.
  unfold messageRe, block, well_formed_block. split.
  - intros D.
    apply derives_Cat_iff in D. destruct D as (u0 & r0 & c0 & d0 & -> & -> & D0 & D).
    apply derives_lits in D0. destruct D0 as [-> ->].
    apply derives_Cat_iff in D. destruct D as (ws1 & r1 & c1 & d1 & -> & -> & D1 & D).
    apply derives_Plus_Cls in D1. destruct D1 as (N1 & F1 & ->).
    apply derives_Cat_iff in D. destruct D as (name & r2 & c2 & d2 & -> & -> & D2 & D).
    apply derives_Group_iff in D2. destruct D2 as (c2' & -> & D2).
    apply derives_Plus_Cls in D2. destruct D2 as (N2 & F2 & ->).
    apply derives_Cat_iff in D. destruct D as (ws2 & r3 & c3 & d3 & -> & -> & D3 & D).
    apply derives_Star_Cls in D3. destruct D3 as (F3 & ->).
    apply derives_Cat_iff in D. destruct D as (ob & r4 & c4 & d4 & -> & -> & D4 & D).
    apply derives_Lit_iff in D4. destruct D4 as [-> ->].
    apply derives_Cat_iff in D. destruct D as (body & r5 & c5 & d5 & -> & -> & D5 & D).
    apply derives_Group_iff in D5. destruct D5 as (c5' & -> & D5).
    apply derives_Star_Cls in D5. destruct D5 as (F5 & ->).
    apply derives_Lit_iff in D. destruct D as [-> ->].
    exists ws1, name, ws2, body. split; [reflexivity|].
    split; [repeat split; assumption|].
    simpl app. rewrite !append_length. simpl String.length.
    now rewrite !Nat.add_assoc.
  - intros (ws1 & name & ws2 & body & -> & (N1 & F1 & N2 & F2 & F3 & F5) & ->).
    eapply derives_caps_eq.
    + apply (derives_Cat _ _ pos "message").
      { apply derives_lits. split; reflexivity. }
      apply (derives_Cat _ _ _ ws1).
      { apply derives_Plus_Cls. split; [exact N1|]. split; [exact F1 | reflexivity]. }
      apply (derives_Cat _ _ _ name).
      { apply derives_Group. apply derives_Plus_Cls.
        split; [exact N2|]. split; [exact F2 | reflexivity]. }
      apply (derives_Cat _ _ _ ws2).
      { apply derives_Star_Cls. split; [exact F3 | reflexivity]. }
      apply (derives_Cat _ _ _ "{").
      { apply derives_Lit_iff. split; reflexivity. }
      apply (derives_Cat _ _ _ body (String "}" EmptyString)).
      { apply derives_Group. apply derives_Star_Cls.
        split; [exact F5 | reflexivity]. }
      apply derives_Lit_iff. split; reflexivity.
    + simpl app. rewrite !append_length. simpl String.length.
      now rewrite !Nat.add_assoc.
Qed.

(** The matches of [fieldRe]: the optional prefix, the type, white
    space, the name, the equals sign between optional white space, and
    the digits of the tag; group 1 is the prefix, group 2 the type and
    group 3 the name. *)
Lemma derives_fieldRe (pos : nat) (u : string) c :
  derives fieldRe pos u c <->
  exists rep repeated typ ws1 name ws2 ws3 tag,
    u = declaration rep typ ws1 name ws2 ws3 tag /\
    repeated_prefix rep repeated /\
    well_formed_declaration typ ws1 name ws2 ws3 tag /\
    c = [(3, (pos + String.length (rep +:+ typ +:+ ws1),
              pos + String.length (rep +:+ typ +:+ ws1) + String.length name));
         (2, (pos + String.length rep,
              pos + String.length rep + String.length typ))]
        ++ prefix_binding pos rep repeated.
Proof.
  unfold fieldRe, declaration, well_formed_declaration. split.
  - intros D.
    apply derives_Cat_iff in D. destruct D as (rep & r0 & c0 & d0 & -> & -> & D0 & D).
    apply derives_Cat_iff in D. destruct D as (typ & r1 & c1 & d1 & -> & -> & D1 & D).
    apply derives_Group_iff in D1. destruct D1 as (c1' & -> & D1).
    apply derives_Plus_Cls in D1. destruct D1 as (N1 & F1 & ->).
    apply derives_Cat_iff in D. destruct D as (ws1 & r2 & c2 & d2 & -> & -> & D2 & D).
    apply derives_Plus_Cls in D2. destruct D2 as (N2 & F2 & ->).
    apply derives_Cat_iff in D. destruct D as (name & r3 & c3 & d3 & -> & -> & D3 & D).
    apply derives_Group_iff in D3. destruct D3 as (c3' & -> & D3).
    apply derives_Plus_Cls in D3. destruct D3 as (N3 & F3 & ->).
    apply derives_Cat_iff in D. destruct D as (ws2 & r4 & c4 & d4 & -> & -> & D4 & D).
    apply derives_Star_Cls in D4. destruct D4 as (F4 & ->).
    apply derives_Cat_iff in D. destruct D as (eq & r5 & c5 & d5 & -> & -> & D5 & D).
    apply derives_Lit_iff in D5. destruct D5 as [-> ->].
    apply derives_Cat_iff in D. destruct D as (ws3 & tag & c6 & d6 & -> & -> & D6 & D).
    apply derives_Star_Cls in D6. destruct D6 as (F6 & ->).
    apply derives_Plus_Cls in D. destruct D as (N7 & F7 & ->).
    assert (Hrep : exists repeated,
               repeated_prefix rep repeated /\ c0 = prefix_binding pos rep repeated).
    { apply derives_Quest_iff in D0. destruct D0 as [[-> ->]|D0].
      - exists false. now split.
      - apply derives_Group_iff in D0. destruct D0 as (c' & -> & D0).
        apply derives_Cat_iff in D0.
        destruct D0 as (kw & ws & ck & cw & -> & -> & Dk & Dw).
        apply derives_lits in Dk. destruct Dk as [-> ->].
        apply derives_Plus_Cls in Dw. destruct Dw as (Nw & Fw & ->).
        exists true. split; [now exists ws|reflexivity]. }
    destruct Hrep as (repeated & Hrep & ->).
    exists rep, repeated, typ, ws1, name, ws2, ws3, tag.
    split; [reflexivity|]. split; [exact Hrep|].
    split; [repeat split; assumption|].
    simpl app. rewrite !append_length. now rewrite !Nat.add_assoc.
  - intros (rep & repeated & typ & ws1 & name & ws2 & ws3 & tag & -> & Hrep &
            (N1 & F1 & N2 & F2 & N3 & F3 & F4 & F6 & N7 & F7) & ->).
    eapply derives_caps_eq.
    + apply (derives_Cat _ _ pos rep _ (prefix_binding pos rep repeated)).
      { apply derives_Quest_iff. destruct repeated; simpl in Hrep.
        - right. destruct Hrep as (ws & -> & Nw & Fw).
          apply derives_Group.
          apply (derives_Cat _ _ pos "repeated" ws [] []).
          + apply derives_lits. split; reflexivity.
          + apply derives_Plus_Cls. split; [exact Nw|]. split; [exact Fw | reflexivity].
        - left. now split. }
      apply (derives_Cat _ _ _ typ).
      { apply derives_Group. apply derives_Plus_Cls.
        split; [exact N1|]. split; [exact F1 | reflexivity]. }
      apply (derives_Cat _ _ _ ws1).
      { apply derives_Plus_Cls. split; [exact N2|]. split; [exact F2 | reflexivity]. }
      apply (derives_Cat _ _ _ name).
      { apply derives_Group. apply derives_Plus_Cls.
        split; [exact N3|]. split; [exact F3 | reflexivity]. }
      apply (derives_Cat _ _ _ ws2).
      { apply derives_Star_Cls. split; [exact F4 | reflexivity]. }
      apply (derives_Cat _ _ _ "=").
      { apply derives_Lit_iff. split; reflexivity. }
      apply (derives_Cat _ _ _ ws3 tag).
      { apply derives_Star_Cls. split; [exact F6 | reflexivity]. }
      apply derives_Plus_Cls. split; [exact N7|]. split; [exact F7 | reflexivity].
    + simpl app. rewrite !append_length. now rewrite !Nat.add_assoc.
Qed.

(** ** Every reported match is a match of the pattern *)

Lemma exec_at_derives (re : regex) (pos : nat) (s : string) stop caps :
  exec_at re pos s = Some (stop, caps) ->
  exists u post,
    s = u +:+ post /\ stop = pos + String.length u /\ derives re pos u caps.
Proof.
  unfold exec_at. destruct (run re (MState pos s [])) as [|st l] eqn:E; [discriminate|].
  intros [= <- <-].
  assert (Hin : In st (run re (MState pos s []))) by (rewrite E; now left).
  destruct (run_sound _ _ _ Hin) as (u & c & R & P & C & D). simpl in *.
  rewrite app_nil_r in C. subst c. now exists u, (m_rest st).
Qed.

Lemma derives_exec_at (re : regex) (pos : nat) (u post : string) c :
  derives re pos u c -> exec_at re pos (u +:+ post) <> None.
Proof.
  intros D. pose proof (run_complete re pos u c D post []) as Hin.
  unfold exec_at. destruct (run re (MState pos (u +:+ post) [])); [destruct Hin|].
  discriminate.
Qed.

(** Every reported match is a match of the pattern, at its place in the
    text. *)
Lemma scan_derives (re : regex) :
  forall s prefix skip prev,
    Forall (fun m =>
              exists pre u post caps,
                prefix +:+ s = pre +:+ u +:+ post /\
                derives re (String.length pre) u caps /\
                m = mk_submatch re (String.length pre)
                      (String.length pre + String.length u) caps)
           (scan re s (String.length prefix) skip prev).
Proof.
  assert (Here : forall s prefix stop caps,
             exec_at re (String.length prefix) s = Some (stop, caps) ->
             exists pre u post caps',
               prefix +:+ s = pre +:+ u +:+ post /\
               derives re (String.length pre) u caps' /\
               mk_submatch re (String.length prefix) stop caps =
               mk_submatch re (String.length pre)
                 (String.length pre + String.length u) caps').
  { intros s prefix stop caps E.
    destruct (exec_at_derives _ _ _ _ _ E) as (u & post & -> & -> & D).
    now exists prefix, u, post, caps. }
  induction s as [|c s IH]; intros prefix skip prev.
  - destruct skip; simpl; [|constructor].
    destruct (exec_at re (String.length prefix) EmptyString) as [[stop caps]|] eqn:E;
      [|constructor].
    destruct ((stop =? String.length prefix) && _); constructor; [|constructor].
    now apply Here.
  - assert (Hnext : forall skip' prev',
               Forall (fun m =>
                         exists pre u post caps,
                           prefix +:+ String c s = pre +:+ u +:+ post /\
                           derives re (String.length pre) u caps /\
                           m = mk_submatch re (String.length pre)
                                 (String.length pre + String.length u) caps)
                      (scan re s (S (String.length prefix)) skip' prev')).
    { intros skip' prev'.
      specialize (IH (prefix +:+ String c EmptyString) skip' prev').
      rewrite append_length, append_assoc in IH. simpl in IH.
      now rewrite Nat.add_1_r in IH. }
    destruct skip as [|skip]; simpl; [|apply Hnext].
    destruct (exec_at re (String.length prefix) (String c s)) as [[stop caps]|] eqn:E;
      [|apply Hnext].
    destruct ((stop =? String.length prefix) && _); [apply Hnext|].
    constructor; [|apply Hnext].
    now apply Here.
Qed.

Lemma slice_at (text a v w : string) (x y : nat) :
  text = a +:+ v +:+ w -> x = String.length a -> y = x + String.length v ->
  slice text x y = v.
Proof.
  intros -> -> ->. unfold slice.
  replace (String.length a + String.length v - String.length a)
    with (String.length v) by lia.
  apply substring_middle.
Qed.

Lemma Forall2_map_Forall {A B : Type} (Q : A -> Prop) (P : A -> B -> Prop)
    (f : A -> B) (l : list A) :
  Forall Q l -> (forall x, Q x -> P x (f x)) -> Forall2 P l (map f l).
Proof.
  intros F H. induction F as [|x l Hx F IH]; simpl; constructor; auto.
Qed.

(** X10. Every message that [ParseProto] returns is read off a block of
    the text of the form [message], white space, a name of word
    characters, optional white space, and a body between braces that
    holds no closing brace; the match is that block, the name of the
    message is the name in it, and its fields are the fields read from
    that body. *)
Theorem parsed_messages_are_blocks (text : string) :
  Forall2 (message_block text)
          (FindAllStringSubmatchIndex messageRe text) (parse_text text).
Proof.
  rewrite parse_text_index.
  eapply Forall2_map_Forall;
    [exact (scan_derives messageRe text EmptyString 0 None)|].
  intros m (pre & u & post & caps & E & D & ->). simpl in E.
  apply derives_messageRe in D.
  destruct D as (ws1 & name & ws2 & body & -> & W & ->).
  unfold message_block, message_of_match. rewrite !nth_submatch.
  cbn [mk_submatch num_cap messageRe lits Nat.max seq map nth cap_get Nat.eqb
       submatch_string pm_Name pm_Fields span_of].
  assert (Hname : slice text
                    (String.length pre + String.length ("message" +:+ ws1))
                    (String.length pre + String.length ("message" +:+ ws1)
                     + String.length name) = name).
  { apply (slice_at text (pre +:+ "message" +:+ ws1) name
             (ws2 +:+ "{" +:+ body +:+ "}" +:+ post)).
    - rewrite E. unfold block. now rewrite !append_assoc.
    - now rewrite !append_length.
    - reflexivity. }
  assert (Hbody : slice text
                    (String.length pre
                     + String.length ("message" +:+ ws1 +:+ name +:+ ws2 +:+ "{"))
                    (String.length pre
                     + String.length ("message" +:+ ws1 +:+ name +:+ ws2 +:+ "{")
                     + String.length body) = body).
  { apply (slice_at text (pre +:+ "message" +:+ ws1 +:+ name +:+ ws2 +:+ "{") body
             ("}" +:+ post)).
    - rewrite E. unfold block. now rewrite !append_assoc.
    - now rewrite !append_length.
    - reflexivity. }
  rewrite Hname, Hbody.
  exists pre, ws1, ws2, body, post. simpl.
  split; [exact E|]. split; [reflexivity|]. split; [exact W | reflexivity].
Qed.

Lemma drop_while_app_all (p : ascii -> bool) (a b : string) :
  forallb_string p a = true -> drop_while p (a +:+ b) = drop_while p b.
Proof.
  induction a as [|c a IH]; simpl; [reflexivity|].
  intros H. apply andb_true_iff in H. destruct H as [-> H]. now apply IH.
Qed.

Lemma is_space_asciiSpace (c : ascii) : is_space c = true -> asciiSpace c = true.
Proof. by_cases_on_byte c. Qed.

Lemma is_space_ascii (c : ascii) : is_space c = true -> is_ascii c = true.
Proof. by_cases_on_byte c. Qed.

(** [strings.TrimSpace] of the prefix of a repeated field. *)
Lemma TrimSpace_repeated (ws : string) :
  forallb_string is_space ws = true -> TrimSpace ("repeated" +:+ ws) = "repeated".
Proof.
  intros F. rewrite TrimSpace_ascii.
  - unfold trim_ascii.
    change (drop_while asciiSpace ("repeated" +:+ ws)) with ("repeated" +:+ ws).
    rewrite rev_string_app, drop_while_app_all.
    + change (drop_while asciiSpace (rev_string "repeated"))
        with (rev_string "repeated").
      apply rev_string_involutive.
    + rewrite forallb_string_rev.
      eapply forallb_string_impl; [exact is_space_asciiSpace | exact F].
  - rewrite forallb_string_app. apply andb_true_iff. split; [reflexivity|].
    eapply forallb_string_impl; [exact is_space_ascii | exact F].
Qed.

(** X11. Every field that [ParseProto] returns is read off a declaration
    in the body of the form: type, white space, name, an equals sign
    between optional white space, and a tag of digits, with or without the
    prefix [repeated] and white space before it.  The type and the name of
    the field are those of the declaration, and the field is marked
    repeated exactly when the prefix is there. *)
Theorem parsed_fields_are_declarations (body : string) :
  Forall2 (field_declaration body)
          (FindAllStringSubmatchIndex fieldRe body)
          (map field_of_match (FindAllStringSubmatch fieldRe body)).
Proof.
  rewrite fields_index.
  eapply Forall2_map_Forall;
    [exact (scan_derives fieldRe body EmptyString 0 None)|].
  intros d (pre & u & post & caps & E & D & ->). simpl in E.
  apply derives_fieldRe in D.
  destruct D as (rep & repeated & typ & ws1 & name & ws2 & ws3 & tag & -> & Hrep
                 & W & ->).
  unfold field_declaration, field_of_match. rewrite !nth_submatch.
  assert (Htyp : slice body (String.length pre + String.length rep)
                   (String.length pre + String.length rep + String.length typ)
                 = typ).
  { apply (slice_at body (pre +:+ rep) typ
             (ws1 +:+ name +:+ ws2 +:+ "=" +:+ ws3 +:+ tag +:+ post)).
    - rewrite E. unfold declaration. now rewrite !append_assoc.
    - now rewrite !append_length.
    - reflexivity. }
  assert (Hname : slice body
                    (String.length pre + String.length (rep +:+ typ +:+ ws1))
                    (String.length pre + String.length (rep +:+ typ +:+ ws1)
                     + String.length name) = name).
  { apply (slice_at body (pre +:+ rep +:+ typ +:+ ws1) name
             (ws2 +:+ "=" +:+ ws3 +:+ tag +:+ post)).
    - rewrite E. unfold declaration. now rewrite !append_assoc.
    - now rewrite !append_length.
    - reflexivity. }
  assert (Hrepeated :
            (TrimSpace
               (submatch_string body
                  (cap_get 1 (prefix_binding (String.length pre) rep repeated)))
             =? "repeated")%string = repeated).
  { destruct repeated; unfold repeated_prefix in Hrep;
      cbn [prefix_binding cap_get Nat.eqb submatch_string].
    - destruct Hrep as (ws & Er & Nw & Fw).
      rewrite (slice_at body pre rep
                 (typ +:+ ws1 +:+ name +:+ ws2 +:+ "=" +:+ ws3 +:+ tag +:+ post));
        [| rewrite E; unfold declaration; now rewrite !append_assoc
         | reflexivity | reflexivity].
      rewrite Er, (TrimSpace_repeated ws Fw). reflexivity.
    - reflexivity. }
  cbn [mk_submatch num_cap fieldRe lits Nat.max seq map nth cap_get Nat.eqb
       app submatch_string pf_Name pf_Type pf_Repeated span_of].
  rewrite Htyp, Hname, Hrepeated.
  exists pre, rep, ws1, ws2, ws3, tag, post.
  split; [exact E|]. split; [reflexivity|]. split; [exact Hrep | exact W].
Qed.

(** ** The preferred match of a well formed block or declaration *)

Lemma maximal_run (p : ascii -> bool) (a a' x x' : string) :
  a +:+ x = a' +:+ x' ->
  forallb_string p a = true -> forallb_string p a' = true ->
  stops p x -> stops p x' ->
  a = a' /\ x = x'.
Proof.
  revert a'. induction a as [|c a IH]; intros [|c' a']; simpl; intros E F F' S S'.
  - now split.
  - subst x. simpl in S. apply andb_true_iff in F'. destruct F' as [F' _]. congruence.
  - subst x'. simpl in S'. apply andb_true_iff in F. destruct F as [F _]. congruence.
  - injection E as <- E. apply andb_true_iff in F, F'.
    destruct F as [_ F], F' as [_ F'].
    destruct (IH a' E F F' S S') as [-> ->]. now split.
Qed.

Lemma stops_app (q p : ascii -> bool) (a b : string) :
  (forall c, q c = true -> p c = false) ->
  forallb_string q a = true -> stops p b -> stops p (a +:+ b).
Proof.
  intros D F S. destruct a as [|c a]; simpl; [exact S|].
  simpl in F. apply andb_true_iff in F. destruct F as [F _]. now apply D.
Qed.

Lemma stops_app_nonempty (q p : ascii -> bool) (a b : string) :
  (forall c, q c = true -> p c = false) ->
  is_empty a = false -> forallb_string q a = true -> stops p (a +:+ b).
Proof.
  intros D N F. destruct a as [|c a]; [discriminate|]. simpl.
  simpl in F. apply andb_true_iff in F. destruct F as [F _]. now apply D.
Qed.

Lemma word_not_space (c : ascii) : is_word c = true -> is_space c = false.
Proof. by_cases_on_byte c. Qed.

Lemma space_not_word (c : ascii) : is_space c = true -> is_word c = false.
Proof. by_cases_on_byte c. Qed.

Lemma digit_not_space (c : ascii) : is_digit c = true -> is_space c = false.
Proof. by_cases_on_byte c. Qed.

(** A text starts with at most one well formed block. *)
Lemma block_unique (ws1 name ws2 body post ws1' name' ws2' body' post' : string) :
  block ws1 name ws2 body +:+ post = block ws1' name' ws2' body' +:+ post' ->
  well_formed_block ws1 name ws2 body ->
  well_formed_block ws1' name' ws2' body' ->
  ws1 = ws1' /\ name = name' /\ ws2 = ws2' /\ body = body' /\ post = post'.
Proof.
  unfold block. rewrite !append_assoc.
  intros E (N1 & F1 & N2 & F2 & F3 & F5) (N1' & F1' & N2' & F2' & F3' & F5').
  apply append_inv_head in E.
  apply (maximal_run is_space) in E; try assumption;
    try (now apply (stops_app_nonempty is_word is_space _ _ word_not_space)).
  destruct E as [<- E].
  apply (maximal_run is_word) in E; try assumption;
    try (now apply (stops_app is_space is_word _ _ space_not_word)).
  destruct E as [<- E].
  apply (maximal_run is_space) in E; try assumption; try reflexivity.
  destruct E as [<- E].
  apply append_inv_head in E.
  apply (maximal_run not_brace) in E; try assumption; try reflexivity.
  destruct E as [<- E].
  apply append_inv_head in E. now subst.
Qed.

Lemma derives_block (pos : nat) (ws1 name ws2 body : string) :
  well_formed_block ws1 name ws2 body ->
  derives messageRe pos (block ws1 name ws2 body)
          (block_bindings pos ws1 name ws2 body).
Proof.
  intros W. apply derives_messageRe. exists ws1, name, ws2, body.
  split; [reflexivity|]. now split.
Qed.

(** The preferred match at the start of a well formed block is the
    block. *)
Lemma exec_at_block (pos : nat) (ws1 name ws2 body post : string) :
  well_formed_block ws1 name ws2 body ->
  exec_at messageRe pos (block ws1 name ws2 body +:+ post) =
  Some (pos + String.length (block ws1 name ws2 body),
        block_bindings pos ws1 name ws2 body).
Proof.
  intros W.
  pose proof (derives_exec_at messageRe pos _ post _ (derives_block pos _ _ _ _ W))
    as Hsome.
  destruct (exec_at messageRe pos (block ws1 name ws2 body +:+ post))
    as [[stop caps]|] eqn:E; [|congruence].
  destruct (exec_at_derives _ _ _ _ _ E) as (u' & post' & E' & -> & D).
  apply derives_messageRe in D.
  destruct D as (ws1' & name' & ws2' & body' & -> & W' & ->).
  destruct (block_unique _ _ _ _ _ _ _ _ _ _ E' W W')
    as (<- & <- & <- & <- & <-).
  reflexivity.
Qed.

(** The last piece of [fieldRe] is greedy: the preferred match cannot be
    extended by a digit. *)
Lemma hd_flat_map {A B : Type} (f : A -> list B) (l : list A) (y : B) :
  hd_error (flat_map f l) = Some y -> exists x, In x l /\ hd_error (f x) = Some y.
Proof.
  induction l as [|a l IH]; simpl; [discriminate|].
  destruct (f a) as [|b l'] eqn:E; simpl.
  - intros H. destruct (IH H) as (x & Hx & Hy). exists x. split; [now right | exact Hy].
  - intros [= <-]. exists a. split; [now left | now rewrite E].
Qed.

Lemma iterate_head_greedy (p : ascii -> bool) :
  forall fuel st st',
    String.length (m_rest st) <= fuel ->
    hd_error (iterate (step_byte p) fuel st) = Some st' ->
    stops p (m_rest st').
Proof.
  induction fuel as [|fuel IH]; intros st st' L H.
  - simpl in H. injection H as <-. destruct (m_rest st); [exact I | simpl in L; lia].
  - change (iterate (step_byte p) (S fuel) st)
      with (flat_map (fun x => if m_pos st <? m_pos x
                               then iterate (step_byte p) fuel x else [])
                     (step_byte p st) ++ [st]) in H.
    destruct st as [pos rest caps]. simpl in L.
    destruct rest as [|c s].
    + simpl in H. now injection H as <-.
    + change (step_byte p (MState pos (String c s) caps))
        with (if p c then [MState (S pos) s caps] else []) in H.
      destruct (p c) eqn:Pc.
      * cbn [flat_map m_pos] in H.
        replace (pos <? S pos) with true in H by (symmetry; apply Nat.ltb_lt; lia).
        rewrite app_nil_r in H.
        pose proof (iterate_self (step_byte p) fuel (MState (S pos) s caps)) as Hs.
        destruct (iterate (step_byte p) fuel (MState (S pos) s caps)) as [|x l] eqn:E;
          [destruct Hs|].
        simpl in H. injection H as <-.
        apply (IH (MState (S pos) s caps)); [simpl in L |- *; lia | now rewrite E].
      * simpl in H. injection H as <-. exact Pc.
Qed.

Lemma Plus_Cls_greedy (k : cclass) (st st' : mstate) :
  hd_error (run (Plus (Cls k)) st) = Some st' ->
  stops (cclass_mem k) (m_rest st').
Proof.
  simpl. intros H. apply hd_flat_map in H. destruct H as (mid & _ & H).
  now apply (iterate_head_greedy (cclass_mem k)) in H.
Qed.

Lemma Cat_greedy (p : ascii -> bool) (a b : regex) :
  (forall st st', hd_error (run b st) = Some st' -> stops p (m_rest st')) ->
  forall st st', hd_error (run (Cat a b) st) = Some st' -> stops p (m_rest st').
Proof.
  intros Hb st st' H. simpl in H. apply hd_flat_map in H.
  destruct H as (mid & _ & H). now apply (Hb mid).
Qed.

Lemma fieldRe_greedy (pos : nat) (s : string) stop caps :
  exec_at fieldRe pos s = Some (stop, caps) ->
  exists u post,
    s = u +:+ post /\ stop = pos + String.length u /\
    derives fieldRe pos u caps /\ stops is_digit post.
Proof.
  intros E.
  assert (G : forall st st', hd_error (run fieldRe st) = Some st' ->
                             stops is_digit (m_rest st')).
  { unfold fieldRe. repeat apply Cat_greedy. apply (Plus_Cls_greedy CDigit). }
  unfold exec_at in E.
  destruct (run fieldRe (MState pos s [])) as [|st l] eqn:R; [discriminate|].
  injection E as <- <-.
  assert (Hin : In st (run fieldRe (MState pos s []))) by (rewrite R; now left).
  destruct (run_sound _ _ _ Hin) as (u & c & Rs & P & C & D).
  simpl in Rs, P, C, D. rewrite app_nil_r in C. subst c.
  exists u, (m_rest st). repeat split; try assumption.
  apply (G (MState pos s [])). now rewrite R.
Qed.

Lemma core_unique (typ ws1 name ws2 ws3 tag post
                   typ' ws1' name' ws2' ws3' tag' post' : string) :
  typ +:+ ws1 +:+ name +:+ ws2 +:+ "=" +:+ ws3 +:+ tag +:+ post =
  typ' +:+ ws1' +:+ name' +:+ ws2' +:+ "=" +:+ ws3' +:+ tag' +:+ post' ->
  well_formed_declaration typ ws1 name ws2 ws3 tag ->
  well_formed_declaration typ' ws1' name' ws2' ws3' tag' ->
  stops is_digit post -> stops is_digit post' ->
  typ = typ' /\ ws1 = ws1' /\ name = name' /\ ws2 = ws2' /\ ws3 = ws3' /\
  tag = tag' /\ post = post'.
Proof.
  intros E (N1 & F1 & N2 & F2 & N3 & F3 & F4 & F6 & N7 & F7)
         (N1' & F1' & N2' & F2' & N3' & F3' & F4' & F6' & N7' & F7') S S'.
  apply (maximal_run is_word) in E; try assumption;
    try (now apply (stops_app_nonempty is_space is_word _ _ space_not_word)).
  destruct E as [<- E].
  apply (maximal_run is_space) in E; try assumption;
    try (now apply (stops_app_nonempty is_word is_space _ _ word_not_space)).
  destruct E as [<- E].
  apply (maximal_run is_word) in E; try assumption;
    try (now apply (stops_app is_space is_word _ _ space_not_word)).
  destruct E as [<- E].
  apply (maximal_run is_space) in E; try assumption; try reflexivity.
  destruct E as [<- E].
  apply append_inv_head in E.
  apply (maximal_run is_space) in E; try assumption;
    try (now apply (stops_app_nonempty is_digit is_space _ _ digit_not_space)).
  destruct E as [<- E].
  apply (maximal_run is_digit) in E; try assumption.
  destruct E as [<- <-]. repeat split.
Qed.

(** A declaration that starts with the prefix cannot be read without
    it. *)
Lemma prefix_not_type (ws typ ws1 name ws2 ws3 tag post
                       typ' ws1' name' ws2' ws3' tag' post' : string) :
  "repeated" +:+ ws +:+ typ +:+ ws1 +:+ name +:+ ws2 +:+ "=" +:+ ws3 +:+ tag +:+ post =
  typ' +:+ ws1' +:+ name' +:+ ws2' +:+ "=" +:+ ws3' +:+ tag' +:+ post' ->
  is_empty ws = false -> forallb_string is_space ws = true ->
  well_formed_declaration typ ws1 name ws2 ws3 tag ->
  well_formed_declaration typ' ws1' name' ws2' ws3' tag' ->
  False.
Proof.
  intros E Nw Fw (N1 & F1 & N2 & F2 & N3 & F3 & F4 & F6 & N7 & F7)
         (N1' & F1' & N2' & F2' & N3' & F3' & F4' & F6' & N7' & F7').
  apply (maximal_run is_word) in E; try assumption; try reflexivity;
    try (now apply (stops_app_nonempty is_space is_word _ _ space_not_word)).
  destruct E as [_ E].
  apply (maximal_run is_space) in E; try assumption;
    try (now apply (stops_app_nonempty is_word is_space _ _ word_not_space)).
  destruct E as [_ E].
  apply (maximal_run is_word) in E; try assumption;
    try (now apply (stops_app_nonempty is_space is_word _ _ space_not_word));
    try (now apply (stops_app is_space is_word _ _ space_not_word)).
  destruct E as [_ E].
  apply (maximal_run is_space) in E; try assumption; try reflexivity;
    try (now apply (stops_app_nonempty is_word is_space _ _ word_not_space)).
  destruct E as [_ E].
  destruct name as [|c name]; [discriminate|].
  simpl in E. injection E as -> _. discriminate.
Qed.

(** A text starts with at most one well formed declaration that a digit
    does not follow. *)
Lemma declaration_unique (rep typ ws1 name ws2 ws3 tag post
                          rep' typ' ws1' name' ws2' ws3' tag' post' : string)
    (repeated repeated' : bool) :
  declaration rep typ ws1 name ws2 ws3 tag +:+ post =
  declaration rep' typ' ws1' name' ws2' ws3' tag' +:+ post' ->
  repeated_prefix rep repeated -> repeated_prefix rep' repeated' ->
  well_formed_declaration typ ws1 name ws2 ws3 tag ->
  well_formed_declaration typ' ws1' name' ws2' ws3' tag' ->
  stops is_digit post -> stops is_digit post' ->
  rep = rep' /\ repeated = repeated' /\ typ = typ' /\ ws1 = ws1' /\
  name = name' /\ ws2 = ws2' /\ ws3 = ws3' /\ tag = tag' /\ post = post'.
Proof.
  unfold declaration. rewrite !append_assoc. intros E R R' W W' S S'.
  destruct repeated, repeated'; unfold repeated_prefix in R, R'.
  - destruct R as (ws & -> & Nw & Fw), R' as (ws' & -> & Nw' & Fw').
    rewrite !append_assoc in E. apply append_inv_head in E.
    apply (maximal_run is_space) in E; try assumption.
    + destruct E as [<- E].
      destruct (core_unique _ _ _ _ _ _ _ _ _ _ _ _ _ _ E W W' S S')
        as (<- & <- & <- & <- & <- & <- & <-).
      repeat split.
    + destruct W as (N1 & F1 & _).
      now apply (stops_app_nonempty is_word is_space _ _ word_not_space).
    + destruct W' as (N1 & F1 & _).
      now apply (stops_app_nonempty is_word is_space _ _ word_not_space).
  - exfalso. destruct R as (ws & -> & Nw & Fw). subst rep'.
    rewrite !append_assoc in E.
    exact (prefix_not_type _ _ _ _ _ _ _ _ _ _ _ _ _ _ _ E Nw Fw W W').
  - exfalso. destruct R' as (ws & -> & Nw & Fw). subst rep.
    rewrite !append_assoc in E. symmetry in E.
    exact (prefix_not_type _ _ _ _ _ _ _ _ _ _ _ _ _ _ _ E Nw Fw W' W).
  - subst rep rep'.
    destruct (core_unique _ _ _ _ _ _ _ _ _ _ _ _ _ _ E W W' S S')
      as (<- & <- & <- & <- & <- & <- & <-).
    repeat split.
Qed.

Lemma derives_declaration (pos : nat) (rep typ ws1 name ws2 ws3 tag : string)
    (repeated : bool) :
  repeated_prefix rep repeated ->
  well_formed_declaration typ ws1 name ws2 ws3 tag ->
  derives fieldRe pos (declaration rep typ ws1 name ws2 ws3 tag)
          (declaration_bindings pos rep repeated typ ws1 name).
Proof.
  intros R W. apply derives_fieldRe.
  exists rep, repeated, typ, ws1, name, ws2, ws3, tag.
  split; [reflexivity|]. split; [exact R|]. now split.
Qed.

(** The preferred match at the start of a well formed declaration that a
    digit does not follow is the declaration. *)
Lemma exec_at_declaration (pos : nat) (rep typ ws1 name ws2 ws3 tag post : string)
    (repeated : bool) :
  repeated_prefix rep repeated ->
  well_formed_declaration typ ws1 name ws2 ws3 tag ->
  stops is_digit post ->
  exec_at fieldRe pos (declaration rep typ ws1 name ws2 ws3 tag +:+ post) =
  Some (pos + String.length (declaration rep typ ws1 name ws2 ws3 tag),
        declaration_bindings pos rep repeated typ ws1 name).
Proof.
  intros R W S.
  pose proof (derives_exec_at fieldRe pos _ post _
                (derives_declaration pos _ _ _ _ _ _ _ _ R W)) as Hsome.
  destruct (exec_at fieldRe pos (declaration rep typ ws1 name ws2 ws3 tag +:+ post))
    as [[stop caps]|] eqn:E; [|congruence].
  destruct (fieldRe_greedy _ _ _ _ E) as (u' & post' & E' & -> & D & S').
  apply derives_fieldRe in D.
  destruct D as (rep' & repeated' & typ' & ws1' & name' & ws2' & ws3' & tag' & ->
                 & R' & W' & ->).
  destruct (declaration_unique _ _ _ _ _ _ _ _ _ _ _ _ _ _ _ _ _ _ E' R R' W W' S S')
    as (<- & <- & <- & <- & <- & <- & <- & <- & <-).
  reflexivity.
Qed.

(** ** The matches of a text laid out in blocks and declarations *)

Lemma scan_skip (re : regex) (a rest : string) :
  forall pos prev,
    scan re (a +:+ rest) pos (String.length a) prev =
    scan re rest (pos + String.length a) 0 prev.
Proof.
  induction a as [|c a IH]; intros pos prev.
  - simpl. now rewrite Nat.add_0_r.
  - simpl. rewrite IH. f_equal. lia.
Qed.

(** Where no match begins, the search moves on. *)
Lemma scan_gap (re : regex) (gap rest : string) :
  forall pos prev,
    (forall k, k < String.length gap ->
               exec_at re (pos + k) (drop_string k gap +:+ rest) = None) ->
    scan re (gap +:+ rest) pos 0 prev =
    scan re rest (pos + String.length gap) 0 prev.
Proof.
  induction gap as [|c gap IH]; intros pos prev H.
  - simpl. now rewrite Nat.add_0_r.
  - pose proof (H 0 ltac:(simpl; lia)) as H0.
    rewrite Nat.add_0_r in H0. simpl in H0.
    simpl. rewrite H0. rewrite IH.
    + f_equal. lia.
    + intros k Hk. specialize (H (S k) ltac:(simpl; lia)).
      simpl in H. now rewrite Nat.add_succ_r in H.
Qed.

(** A match that is not empty is reported, and the search resumes at
    its end. *)
Lemma scan_match (re : regex) (u rest : string) (pos : nat) prev caps :
  is_empty u = false ->
  exec_at re pos (u +:+ rest) = Some (pos + String.length u, caps) ->
  scan re (u +:+ rest) pos 0 prev =
  mk_submatch re pos (pos + String.length u) caps
  :: scan re rest (pos + String.length u) 0 (Some (pos + String.length u)).
Proof.
  intros N E. destruct u as [|c u]; [discriminate|].
  change (scan re (String c u +:+ rest) pos 0 prev)
    with (match exec_at re pos (String c u +:+ rest) with
          | Some (stop, caps) =>
              let rest' := scan re (u +:+ rest) (S pos) (stop - pos - 1) (Some stop) in
              if (stop =? pos) && bool_decide (prev = Some pos) then rest'
              else mk_submatch re pos stop caps :: rest'
          | None => scan re (u +:+ rest) (S pos) 0 prev
          end).
  rewrite E. cbv zeta.
  replace (pos + String.length (String c u) =? pos) with false
    by (symmetry; apply Nat.eqb_neq; simpl; lia).
  simpl andb. cbv iota. f_equal.
  replace (pos + String.length (String c u) - pos - 1) with (String.length u)
    by (simpl; lia).
  rewrite scan_skip. f_equal. simpl. lia.
Qed.

Lemma drop_string_suffix (k : nat) (gap : string) (p : ascii -> bool) :
  k < String.length gap -> forallb_string p gap = true ->
  exists c s, drop_string k gap = String c s /\ p c = true.
Proof.
  revert k. induction gap as [|c gap IH]; intros k L F; [simpl in L; lia|].
  simpl in F. apply andb_true_iff in F. destruct F as [Fc F].
  destruct k as [|k]; simpl.
  - now exists c, gap.
  - apply IH; [simpl in L; lia | exact F].
Qed.

(** A match of [fieldRe] begins with a word character. *)
Lemma fieldRe_needs_word (pos : nat) (s : string) stop caps :
  exec_at fieldRe pos s = Some (stop, caps) ->
  exists c s', s = String c s' /\ is_word c = true.
Proof.
  intros E. destruct (exec_at_derives _ _ _ _ _ E) as (u & post & -> & _ & D).
  apply derives_fieldRe in D.
  destruct D as (rep & repeated & typ & ws1 & name & ws2 & ws3 & tag & -> & R
                 & (N1 & F1 & _) & _).
  unfold declaration. destruct repeated; unfold repeated_prefix in R.
  - destruct R as (ws & -> & _). simpl. eexists _, _. split; reflexivity.
  - subst rep. destruct typ as [|c typ]; [discriminate|]. simpl.
    simpl in F1. apply andb_true_iff in F1. destruct F1 as [F1 _].
    eexists _, _. split; [reflexivity | exact F1].
Qed.

Lemma separator_not_word (c : ascii) : separator_byte c = true -> is_word c = false.
Proof.
  unfold separator_byte. intros H. apply andb_true_iff in H.
  destruct H as [H _]. now apply negb_true_iff in H.
Qed.

Lemma separator_not_digit (c : ascii) : separator_byte c = true -> is_digit c = false.
Proof.
  intros H. apply separator_not_word in H. revert H. by_cases_on_byte c.
Qed.

Lemma scan_separator (gap rest : string) (pos : nat) prev :
  forallb_string separator_byte gap = true ->
  scan fieldRe (gap +:+ rest) pos 0 prev =
  scan fieldRe rest (pos + String.length gap) 0 prev.
Proof.
  intros F. apply scan_gap. intros k Hk.
  destruct (drop_string_suffix k gap _ Hk F) as (c & s & -> & Hc).
  destruct (exec_at fieldRe (pos + k) (String c s +:+ rest)) as [[stop caps]|] eqn:E;
    [|reflexivity].
  apply fieldRe_needs_word in E. destruct E as (c' & s' & [= <- _] & Hw).
  apply separator_not_word in Hc. congruence.
Qed.

(** A match of [messageRe] begins with the keyword. *)
Lemma messageRe_needs_keyword (pos : nat) (s : string) stop caps :
  exec_at messageRe pos s = Some (stop, caps) -> starts_with "message" s = true.
Proof.
  intros E. destruct (exec_at_derives _ _ _ _ _ E) as (u & post & -> & _ & D).
  apply derives_messageRe in D.
  destruct D as (ws1 & name & ws2 & body & -> & _). reflexivity.
Qed.

Lemma starts_with_compatible (kw s rest : string) :
  starts_with kw (s +:+ rest) = true -> compatible kw s = true.
Proof.
  revert s. induction kw as [|a kw IH]; intros [|b s]; simpl; try reflexivity.
  intros H. apply andb_true_iff in H. destruct H as [-> H]. simpl. now apply IH.
Qed.

Lemma keyword_free_suffix (kw gap rest : string) (k : nat) :
  keyword_free kw gap = true -> k < String.length gap ->
  starts_with kw (drop_string k gap +:+ rest) = false.
Proof.
  revert k. induction gap as [|c gap IH]; intros k F L; [simpl in L; lia|].
  change (keyword_free kw (String c gap))
    with (negb (compatible kw (String c gap)) && keyword_free kw gap) in F.
  apply andb_true_iff in F. destruct F as [Fc F].
  destruct k as [|k].
  - simpl drop_string.
    destruct (starts_with kw (String c gap +:+ rest)) eqn:S; [|reflexivity].
    apply starts_with_compatible in S. rewrite S in Fc. discriminate.
  - simpl drop_string. apply IH; [exact F | simpl in L; lia].
Qed.

Lemma scan_keyword_free (gap rest : string) (pos : nat) prev :
  keyword_free "message" gap = true ->
  scan messageRe (gap +:+ rest) pos 0 prev =
  scan messageRe rest (pos + String.length gap) 0 prev.
Proof.
  intros F. apply scan_gap. intros k Hk.
  destruct (exec_at messageRe (pos + k) (drop_string k gap +:+ rest))
    as [[stop caps]|] eqn:E; [|reflexivity].
  apply messageRe_needs_keyword in E.
  now rewrite (keyword_free_suffix _ _ rest k F Hk) in E.
Qed.

Lemma well_laid_prefix (f : laid_field) :
  well_laid_field f -> repeated_prefix (prefix_of f) (pf_Repeated (lf_field f)).
Proof.
  intros (_ & R & _). unfold prefix_of, repeated_prefix.
  destruct (pf_Repeated (lf_field f)); [|reflexivity].
  destruct (R eq_refl) as [N F]. now exists (lf_ws0 f).
Qed.

Lemma declaration_nonempty (rep typ ws1 name ws2 ws3 tag : string) :
  is_empty (declaration rep typ ws1 name ws2 ws3 tag) = false.
Proof.
  apply is_empty_length. unfold declaration. rewrite !append_length. simpl. lia.
Qed.

(** The strings of the match of a declaration in its text. *)
Lemma declaration_strings (text a post : string) (f : laid_field) :
  well_laid_field f ->
  text = a +:+ declaration_of f +:+ post ->
  map (submatch_string text)
      (mk_submatch fieldRe (String.length a)
         (String.length a + String.length (declaration_of f))
         (declaration_bindings (String.length a) (prefix_of f)
            (pf_Repeated (lf_field f)) (pf_Type (lf_field f)) (lf_ws1 f)
            (pf_Name (lf_field f)))) =
  field_strings f.
Proof.
  intros W E. pose proof (well_laid_prefix f W) as R.
  unfold field_strings, declaration_bindings.
  cbn [mk_submatch num_cap fieldRe lits Nat.max seq map nth cap_get Nat.eqb app
       submatch_string].
  f_equal; [|f_equal; [|f_equal; [|f_equal]]].
  - now apply (slice_at text a (declaration_of f) post).
  - unfold prefix_binding, prefix_of in *.
    destruct (pf_Repeated (lf_field f)) eqn:Rep;
      cbn [cap_get Nat.eqb submatch_string]; [|reflexivity].
    apply (slice_at text a ("repeated" +:+ lf_ws0 f)
             (pf_Type (lf_field f) +:+ lf_ws1 f +:+ pf_Name (lf_field f) +:+
              lf_ws2 f +:+ "=" +:+ lf_ws3 f +:+ lf_tag f +:+ post));
      [|reflexivity|reflexivity].
    rewrite E. unfold declaration_of, declaration, prefix_of.
    rewrite Rep. now rewrite !append_assoc.
  - replace (cap_get 2 (prefix_binding (String.length a) (prefix_of f)
                          (pf_Repeated (lf_field f)))) with (@None (nat * nat))
      by (unfold prefix_binding; now destruct (pf_Repeated (lf_field f))).
    cbn [submatch_string].
    apply (slice_at text (a +:+ prefix_of f) (pf_Type (lf_field f))
             (lf_ws1 f +:+ pf_Name (lf_field f) +:+
              lf_ws2 f +:+ "=" +:+ lf_ws3 f +:+ lf_tag f +:+ post)).
    + rewrite E. unfold declaration_of, declaration. now rewrite !append_assoc.
    + now rewrite append_length.
    + reflexivity.
  - apply (slice_at text (a +:+ prefix_of f +:+ pf_Type (lf_field f) +:+ lf_ws1 f)
             (pf_Name (lf_field f))
             (lf_ws2 f +:+ "=" +:+ lf_ws3 f +:+ lf_tag f +:+ post)).
    + rewrite E. unfold declaration_of, declaration. now rewrite !append_assoc.
    + now rewrite !append_length.
    + reflexivity.
Qed.

Lemma scan_fieldRe_end (pos : nat) prev : scan fieldRe EmptyString pos 0 prev = [].
Proof.
  simpl scan.
  destruct (exec_at fieldRe pos EmptyString) as [[stop caps]|] eqn:E; [|reflexivity].
  apply fieldRe_needs_word in E. destruct E as (c & s & [=] & _).
Qed.

(** The matches of [fieldRe] in laid out declarations are the
    declarations. *)
Lemma scan_fields (items : list laid_field) :
  forall prefix prev,
    Forall well_laid_field items ->
    map (map (submatch_string (prefix +:+ fields_text items)))
        (scan fieldRe (fields_text items) (String.length prefix) 0 prev) =
    map field_strings items.
Proof.
  induction items as [|f items IH]; intros prefix prev F.
  - simpl fields_text. now rewrite scan_fieldRe_end.
  - apply Forall_cons in F. destruct F as [W F].
    pose proof W as (Wd & _ & Fpre & Npost & Fpost).
    cbn [fields_text map].
    rewrite (scan_separator _ _ _ _ Fpre).
    rewrite (scan_match fieldRe (declaration_of f)
               (lf_post f +:+ fields_text items) _ prev
               (declaration_bindings (String.length prefix + String.length (lf_pre f))
                  (prefix_of f) (pf_Repeated (lf_field f)) (pf_Type (lf_field f))
                  (lf_ws1 f) (pf_Name (lf_field f)))).
    + rewrite (scan_separator _ _ _ _ Fpost). cbn [map]. f_equal.
      * replace (String.length prefix + String.length (lf_pre f))
          with (String.length (prefix +:+ lf_pre f)) by apply append_length.
        apply (declaration_strings _ (prefix +:+ lf_pre f)
                 (lf_post f +:+ fields_text items)); [exact W|].
        now rewrite !append_assoc.
      * specialize (IH (prefix +:+ lf_pre f +:+ declaration_of f +:+ lf_post f)
                       (Some (String.length prefix + String.length (lf_pre f)
                              + String.length (declaration_of f))) F).
        rewrite !append_length, !append_assoc in IH.
        rewrite !Nat.add_assoc in IH. exact IH.
    + apply declaration_nonempty.
    + apply exec_at_declaration; [now apply well_laid_prefix | exact Wd |].
      now apply (stops_app_nonempty separator_byte is_digit _ _ separator_not_digit).
Qed.

Lemma field_of_strings (f : laid_field) :
  well_laid_field f -> field_of_match (field_strings f) = lf_field f.
Proof.
  intros (_ & R & _). unfold field_of_match, field_strings, prefix_of.
  cbn [nth]. destruct (lf_field f) as [name typ repeated].
  cbn [pf_Name pf_Type pf_Repeated] in *.
  destruct repeated.
  - destruct (R eq_refl) as [_ Fw]. now rewrite (TrimSpace_repeated _ Fw).
  - reflexivity.
Qed.

(** The fields read from a body made of laid out declarations. *)
Lemma fields_of_body (pad : string) (items : list laid_field) :
  forallb_string separator_byte pad = true ->
  Forall well_laid_field items ->
  map field_of_match (FindAllStringSubmatch fieldRe (pad +:+ fields_text items)) =
  map lf_field items.
Proof.
  intros Fp F. unfold FindAllStringSubmatch, FindAllStringSubmatchIndex.
  rewrite (scan_separator _ _ _ _ Fp). simpl plus.
  rewrite (scan_fields items pad None F), map_map.
  apply map_ext_in. intros f Hf. apply field_of_strings.
  rewrite Forall_forall in F. apply F. now apply list_elem_of_In.
Qed.

Lemma word_not_brace (c : ascii) : is_word c = true -> not_brace c = true.
Proof. by_cases_on_byte c. Qed.

Lemma space_not_brace (c : ascii) : is_space c = true -> not_brace c = true.
Proof. by_cases_on_byte c. Qed.

Lemma digit_not_brace (c : ascii) : is_digit c = true -> not_brace c = true.
Proof. by_cases_on_byte c. Qed.

Lemma separator_not_brace (c : ascii) : separator_byte c = true -> not_brace c = true.
Proof.
  unfold separator_byte. intros H. apply andb_true_iff in H. now destruct H.
Qed.

Lemma declaration_brace_free (f : laid_field) :
  well_laid_field f -> forallb_string not_brace (declaration_of f) = true.
Proof.
  intros W. pose proof (well_laid_prefix f W) as R.
  destruct W as ((N1 & F1 & N2 & F2 & N3 & F3 & F4 & F6 & N7 & F7) & _).
  unfold declaration_of, declaration. rewrite !forallb_string_app.
  repeat (apply andb_true_iff; split);
    eauto using forallb_string_impl, word_not_brace, space_not_brace,
      digit_not_brace.
  unfold repeated_prefix in R. destruct (pf_Repeated (lf_field f)).
  - destruct R as (ws & -> & _ & Fw). rewrite forallb_string_app.
    apply andb_true_iff. split; [reflexivity|].
    eauto using forallb_string_impl, space_not_brace.
  - now rewrite R.
Qed.

Lemma fields_brace_free (items : list laid_field) :
  Forall well_laid_field items ->
  forallb_string not_brace (fields_text items) = true.
Proof.
  induction 1 as [|f items W F IH]; [reflexivity|].
  cbn [fields_text]. rewrite !forallb_string_app.
  pose proof (declaration_brace_free f W) as D.
  destruct W as (_ & _ & Fpre & _ & Fpost).
  repeat (apply andb_true_iff; split);
    eauto using forallb_string_impl, separator_not_brace.
Qed.

Lemma laid_block_well_formed (m : laid_message) :
  well_laid_message m ->
  well_formed_block (lm_ws1 m) (lm_name m) (lm_ws2 m) (body_of m).
Proof.
  intros (N1 & F1 & N2 & F2 & F3 & Fp & Ff & _).
  repeat split; try assumption.
  unfold body_of. rewrite forallb_string_app. apply andb_true_iff. split.
  - eauto using forallb_string_impl, separator_not_brace.
  - now apply fields_brace_free.
Qed.

Lemma block_nonempty (ws1 name ws2 body : string) :
  is_empty (block ws1 name ws2 body) = false.
Proof. reflexivity. Qed.

(** The strings of the match of a block in its text. *)
Lemma block_match_strings (text a post : string) (m : laid_message) :
  text = a +:+ block_of m +:+ post ->
  map (submatch_string text)
      (mk_submatch messageRe (String.length a)
         (String.length a + String.length (block_of m))
         (block_bindings (String.length a) (lm_ws1 m) (lm_name m) (lm_ws2 m)
            (body_of m))) =
  block_strings m.
Proof.
  intros E. unfold block_strings, block_bindings.
  cbn [mk_submatch num_cap messageRe lits Nat.max seq map nth cap_get Nat.eqb
       submatch_string].
  f_equal; [|f_equal; [|f_equal]].
  - now apply (slice_at text a (block_of m) post).
  - apply (slice_at text (a +:+ "message" +:+ lm_ws1 m) (lm_name m)
             (lm_ws2 m +:+ "{" +:+ body_of m +:+ "}" +:+ post)).
    + rewrite E. unfold block_of, block. now rewrite !append_assoc.
    + now rewrite !append_length.
    + reflexivity.
  - apply (slice_at text
             (a +:+ "message" +:+ lm_ws1 m +:+ lm_name m +:+ lm_ws2 m +:+ "{")
             (body_of m) ("}" +:+ post)).
    + rewrite E. unfold block_of, block. now rewrite !append_assoc.
    + now rewrite !append_length.
    + reflexivity.
Qed.

Lemma scan_messageRe_end (pos : nat) prev : scan messageRe EmptyString pos 0 prev = [].
Proof.
  simpl scan.
  destruct (exec_at messageRe pos EmptyString) as [[stop caps]|] eqn:E; [|reflexivity].
  apply messageRe_needs_keyword in E. discriminate.
Qed.

(** The matches of [messageRe] in laid out blocks are the blocks. *)
Lemma scan_blocks (items : list laid_message) :
  forall prefix prev,
    Forall well_laid_message items ->
    map (map (submatch_string (prefix +:+ messages_text items)))
        (scan messageRe (messages_text items) (String.length prefix) 0 prev) =
    map block_strings items.
Proof.
  induction items as [|m items IH]; intros prefix prev F.
  - simpl messages_text. now rewrite scan_messageRe_end.
  - apply Forall_cons in F. destruct F as [W F].
    pose proof (laid_block_well_formed m W) as Wb.
    destruct W as (_ & _ & _ & _ & _ & _ & _ & Fgap).
    cbn [messages_text map].
    rewrite (scan_match messageRe (block_of m)
               (lm_gap m +:+ messages_text items) _ prev
               (block_bindings (String.length prefix) (lm_ws1 m) (lm_name m)
                  (lm_ws2 m) (body_of m))).
    + rewrite (scan_keyword_free _ _ _ _ Fgap). cbn [map]. f_equal.
      * now apply (block_match_strings _ prefix
                     (lm_gap m +:+ messages_text items)).
      * specialize (IH (prefix +:+ block_of m +:+ lm_gap m)
                       (Some (String.length prefix + String.length (block_of m))) F).
        rewrite !append_length, !append_assoc in IH.
        rewrite !Nat.add_assoc in IH. exact IH.
    + apply block_nonempty.
    + now apply exec_at_block.
Qed.

(** The messages read from a text laid out in blocks and declarations. *)
Lemma parse_text_laid_out (gap0 : string) (items : list laid_message) :
  keyword_free "message" gap0 = true ->
  Forall well_laid_message items ->
  parse_text (gap0 +:+ messages_text items) = map message_of items.
Proof.
  intros F0 F. unfold parse_text, FindAllStringSubmatch, FindAllStringSubmatchIndex.
  rewrite (scan_keyword_free _ _ _ _ F0). simpl plus.
  rewrite (scan_blocks items gap0 None F), map_map.
  apply map_ext_in. intros m Hm.
  rewrite Forall_forall in F. apply list_elem_of_In in Hm.
  destruct (F m Hm) as (_ & _ & _ & _ & _ & Fp & Ff & _).
  unfold message_of_match, block_strings, message_of. cbn [nth]. f_equal.
  now apply fields_of_body.
Qed.

(** X12. [ParseProto] reads a well formed file completely and exactly.
    When the file is made of blocks [message], white space, name,
    optional white space, and a body between braces, separated by text in
    which the keyword [message] does not begin, and each body is made of
    declarations (optional [repeated], type, name, equals sign, tag), each
    followed by a separator such as a semicolon, with no word character
    and no closing brace between them, the result is one message per
    block, in order, with the name of the block and one field per
    declaration, in order, with its type, its name and its repetition
    flag. *)
Theorem ParseProto_reads_well_formed_text (os : OS) (protoPath : string)
    (w : world) (gap0 : string) (items : list laid_message) :
  os_ReadFile os protoPath = inr (gap0 +:+ messages_text items) ->
  keyword_free "message" gap0 = true ->
  Forall well_laid_message items ->
  fst (ParseProto os protoPath w) = inr (map message_of items).
Proof.
  intros R F0 F. rewrite (ParseProto_loaded _ _ _ _ R).
  now rewrite (parse_text_laid_out gap0 items F0 F).
Qed.

(** ** No match is missed *)

(** Every offset at which the pattern matches is the start of a reported
    match or lies inside one that started before it. *)
Lemma scan_covers (re : regex) :
  nullable re = false ->
  forall s pos skip prev k,
    skip <= k -> k <= String.length s ->
    exec_at re (pos + k) (drop_string k s) <> None ->
    exists j stop caps,
      j <= k /\
      exec_at re (pos + j) (drop_string j s) = Some (stop, caps) /\
      In (mk_submatch re (pos + j) stop caps) (scan re s pos skip prev) /\
      pos + k < stop.
Proof.
  intros Hn. induction s as [|c s IH]; intros pos skip prev k Hs Hk He.
  - simpl in Hk. assert (k = 0) as -> by lia. exfalso.
    simpl in He. destruct (exec_at re (pos + 0) EmptyString) as [[stop caps]|] eqn:E;
      [|congruence].
    pose proof (exec_at_consumes _ _ _ _ _ Hn E).
    destruct (exec_at_reaches _ _ _ _ _ E) as (_ & H2 & _). simpl in H2. lia.
  - assert (Hnext : forall skip' prev' k',
               k = S k' -> skip' <= k' ->
               exists j stop caps,
                 j <= k /\
                 exec_at re (pos + j) (drop_string j (String c s)) = Some (stop, caps) /\
                 In (mk_submatch re (pos + j) stop caps)
                    (scan re s (S pos) skip' prev') /\
                 pos + k < stop).
    { intros skip' prev' k' -> Hs'.
      destruct (IH (S pos) skip' prev' k' Hs') as (j & stop & caps & Hj & E & Hin & Hlt).
      - simpl in Hk. lia.
      - simpl in He. now rewrite Nat.add_succ_r in He.
      - exists (S j), stop, caps. rewrite Nat.add_succ_r. simpl drop_string.
        repeat split; try assumption; lia. }
    destruct skip as [|skip].
    + change (scan re (String c s) pos 0 prev)
        with (match exec_at re pos (String c s) with
              | Some (stop, caps) =>
                  let rest := scan re s (S pos) (stop - pos - 1) (Some stop) in
                  if (stop =? pos) && bool_decide (prev = Some pos) then rest
                  else mk_submatch re pos stop caps :: rest
              | None => scan re s (S pos) 0 prev
              end).
      destruct (exec_at re pos (String c s)) as [[stop caps]|] eqn:E.
      * pose proof (exec_at_consumes _ _ _ _ _ Hn E) as Hlt. cbv zeta.
        replace (stop =? pos) with false by (symmetry; apply Nat.eqb_neq; lia).
        simpl andb. cbv iota.
        destruct (Nat.lt_ge_cases (pos + k) stop) as [Hin|Hout].
        -- exists 0, stop, caps. rewrite Nat.add_0_r. simpl drop_string.
           split; [lia|]. split; [exact E|]. split; [now left | exact Hin].
        -- destruct k as [|k']; [lia|].
           destruct (Hnext (stop - pos - 1) (Some stop) k' eq_refl ltac:(lia))
             as (j & stop' & caps' & Hj & E' & Hin & Hlt').
           exists j, stop', caps'. repeat split; try assumption. now right.
      * destruct k as [|k'].
        -- exfalso. rewrite Nat.add_0_r in He. simpl in He. congruence.
        -- exact (Hnext 0 prev k' eq_refl ltac:(lia)).
    + destruct k as [|k']; [lia|].
      exact (Hnext skip prev k' eq_refl ltac:(lia)).
Qed.

Lemma drop_string_app (a b : string) : drop_string (String.length a) (a +:+ b) = b.
Proof. induction a as [|c a IH]; simpl; [now destruct b | exact IH]. Qed.

(** X13. No well formed block is missed.  Wherever a text holds a well
    formed block, either the block is reported as it is, and the result
    holds the message with its name and the fields of its body, or the
    keyword of the block lies inside a match reported before it (a block
    inside the body of another one, for instance). *)
Theorem well_formed_block_found (text pre ws1 name ws2 body post : string) :
  text = pre +:+ block ws1 name ws2 body +:+ post ->
  well_formed_block ws1 name ws2 body ->
  (exists m,
      In m (FindAllStringSubmatchIndex messageRe text) /\
      span_of m = (String.length pre,
                   String.length pre + String.length (block ws1 name ws2 body)) /\
      In {| pm_Name := name;
            pm_Fields := map field_of_match (FindAllStringSubmatch fieldRe body) |}
         (parse_text text)) \/
  (exists m a b,
      In m (FindAllStringSubmatchIndex messageRe text) /\
      span_of m = (a, b) /\ a < String.length pre < b).
Proof.
  intros E W.
  assert (Ex : exec_at messageRe (String.length pre)
                 (drop_string (String.length pre) text) =
               Some (String.length pre + String.length (block ws1 name ws2 body),
                     block_bindings (String.length pre) ws1 name ws2 body)).
  { rewrite E, drop_string_app. now apply exec_at_block. }
  destruct (scan_covers messageRe messageRe_nonempty text 0 0 None
              (String.length pre))
    as (j & stop & caps & Hj & Ej & Hin & Hlt).
  - lia.
  - rewrite E, append_length. lia.
  - simpl. rewrite Ex. discriminate.
  - simpl in Ej, Hin, Hlt.
    destruct (Nat.eq_dec j (String.length pre)) as [->|Hne].
    + left. rewrite Ex in Ej. injection Ej as <- <-.
      eexists. split; [exact Hin|]. split; [reflexivity|].
      rewrite parse_text_index. apply in_map_iff. eexists. split; [|exact Hin].
      unfold message_of_match. rewrite !nth_submatch. unfold block_bindings.
      cbn [mk_submatch num_cap messageRe lits Nat.max seq map nth cap_get Nat.eqb
           submatch_string].
      rewrite (slice_at text (pre +:+ "message" +:+ ws1) name
                 (ws2 +:+ "{" +:+ body +:+ "}" +:+ post));
        [| rewrite E; unfold block; now rewrite !append_assoc
         | now rewrite !append_length | reflexivity].
      rewrite (slice_at text (pre +:+ "message" +:+ ws1 +:+ name +:+ ws2 +:+ "{")
                 body ("}" +:+ post));
        [| rewrite E; unfold block; now rewrite !append_assoc
         | now rewrite !append_length | reflexivity].
      reflexivity.
    + right. exists (mk_submatch messageRe j stop caps), j, stop.
      split; [exact Hin|]. split; [reflexivity | lia].
Qed.

(** X14. No well formed declaration is missed.  Wherever a body holds
    a well formed declaration that no digit follows, either the result
    holds the field with its type, its name and its repetition flag, or
    the first byte of the declaration lies inside a match reported before
    it. *)
Theorem well_formed_declaration_found
    (body pre rep typ ws1 name ws2 ws3 tag post : string) (repeated : bool) :
  body = pre +:+ declaration rep typ ws1 name ws2 ws3 tag +:+ post ->
  repeated_prefix rep repeated ->
  well_formed_declaration typ ws1 name ws2 ws3 tag ->
  stops is_digit post ->
  In {| pf_Name := name; pf_Type := typ; pf_Repeated := repeated |}
     (map field_of_match (FindAllStringSubmatch fieldRe body)) \/
  (exists d a b,
      In d (FindAllStringSubmatchIndex fieldRe body) /\
      span_of d = (a, b) /\ a < String.length pre < b).
Proof.
  intros E R W S.
  assert (Ex : exec_at fieldRe (String.length pre)
                 (drop_string (String.length pre) body) =
               Some (String.length pre
                     + String.length (declaration rep typ ws1 name ws2 ws3 tag),
                     declaration_bindings (String.length pre) rep repeated
                       typ ws1 name)).
  { rewrite E, drop_string_app. now apply exec_at_declaration. }
  destruct (scan_covers fieldRe fieldRe_nonempty body 0 0 None (String.length pre))
    as (j & stop & caps & Hj & Ej & Hin & Hlt).
  - lia.
  - rewrite E, append_length. lia.
  - simpl. rewrite Ex. discriminate.
  - simpl in Ej, Hin, Hlt.
    destruct (Nat.eq_dec j (String.length pre)) as [->|Hne].
    + left. rewrite Ex in Ej. injection Ej as <- <-.
      rewrite fields_index. apply in_map_iff. eexists. split; [|exact Hin].
      (* the declaration as a laid out field *)
      assert (Hf : exists f,
                 lf_field f = {| pf_Name := name; pf_Type := typ;
                                 pf_Repeated := repeated |} /\
                 prefix_of f = rep /\ lf_ws1 f = ws1 /\
                 declaration_of f = declaration rep typ ws1 name ws2 ws3 tag /\
                 well_laid_field f).
      { destruct repeated; unfold repeated_prefix in R.
        - destruct R as (ws & -> & Nw & Fw).
          exists (LaidField {| pf_Name := name; pf_Type := typ; pf_Repeated := true |}
                    EmptyString ws ws1 ws2 ws3 tag ";").
          do 4 (split; [reflexivity|]).
          split; [exact W|]. split; [intros _; now split|]. repeat split.
        - subst rep.
          exists (LaidField {| pf_Name := name; pf_Type := typ; pf_Repeated := false |}
                    EmptyString EmptyString ws1 ws2 ws3 tag ";").
          do 4 (split; [reflexivity|]).
          split; [exact W|]. split; [discriminate|]. repeat split. }
      destruct Hf as (f & Hfield & Hrep & Hws & Hdecl & Wf).
      pose proof (declaration_strings body pre post f Wf) as Hs.
      rewrite Hdecl, Hrep, Hfield, Hws in Hs. cbn [pf_Name pf_Type pf_Repeated] in Hs.
      rewrite (Hs E). rewrite (field_of_strings f Wf). exact Hfield.
    + right. exists (mk_submatch fieldRe j stop caps), j, stop.
      split; [exact Hin|]. split; [reflexivity | lia].
Qed.

(** ** Printing and parsing again *)

Lemma decimal_digits_digits (fuel : nat) :
  forall n acc,
    forallb_string is_digit acc = true ->
    forallb_string is_digit (decimal_digits fuel n acc) = true.
Proof.
  induction fuel as [|fuel IH]; intros n acc F; [exact F|].
  assert (D : forallb_string is_digit (String (ascii_of_nat (48 + n mod 10)) acc)
              = true).
  { cbn [forallb_string]. apply andb_true_iff. split; [|exact F].
    pose proof (Nat.mod_upper_bound n 10 ltac:(lia)) as H.
    destruct (n mod 10) as [|d]; [reflexivity|].
    do 9 (destruct d as [|d]; [reflexivity|]). lia. }
  cbn [decimal_digits]. cbv zeta. destruct (n <? 10); [exact D | now apply IH].
Qed.

Lemma decimal_digits_nonempty (fuel : nat) :
  forall n acc,
    is_empty acc = false -> is_empty (decimal_digits fuel n acc) = false.
Proof.
  induction fuel as [|fuel IH]; intros n acc N; [exact N|].
  cbn [decimal_digits]. cbv zeta. destruct (n <? 10); [reflexivity | now apply IH].
Qed.

Lemma decimal_tag (n : nat) :
  is_empty (decimal n) = false /\ forallb_string is_digit (decimal n) = true.
Proof.
  split.
  - unfold decimal. cbn [decimal_digits]. cbv zeta.
    destruct (n <? 10); [reflexivity | now apply decimal_digits_nonempty].
  - now apply decimal_digits_digits.
Qed.

Lemma lay_fields_text (fields : list ProtoField) :
  forall i, fields_text (lay_fields i fields) = print_fields i fields.
Proof.
  induction fields as [|f fields IH]; intros i; [reflexivity|].
  cbn [lay_fields fields_text print_fields]. rewrite IH.
  unfold print_field, declaration_of, declaration, prefix_of, lay_field.
  cbn [lf_field lf_pre lf_ws0 lf_ws1 lf_ws2 lf_ws3 lf_tag lf_post].
  destruct (pf_Repeated f); rewrite !append_assoc; reflexivity.
Qed.

Lemma lay_fields_fields (fields : list ProtoField) :
  forall i, map lf_field (lay_fields i fields) = fields.
Proof.
  induction fields as [|f fields IH]; intros i; [reflexivity|].
  cbn [lay_fields map]. now rewrite IH.
Qed.

Lemma lay_fields_well_laid (fields : list ProtoField) :
  Forall (fun f => identifier (pf_Type f) /\ identifier (pf_Name f)) fields ->
  forall i, Forall well_laid_field (lay_fields i fields).
Proof.
  induction 1 as [|f fields ([Nt Ft] & [Nn Fn]) F IH]; intros i; [constructor|].
  cbn [lay_fields]. constructor; [|apply IH].
  destruct (decimal_tag i) as [Nd Fd].
  unfold well_laid_field, well_formed_declaration, lay_field.
  cbn [lf_field lf_pre lf_ws0 lf_ws1 lf_ws2 lf_ws3 lf_tag lf_post].
  repeat split; assumption || reflexivity.
Qed.

Lemma lay_message_text (msgs : list ProtoMessage) :
  messages_text (map lay_message msgs) = concat_strings (map print_message msgs).
Proof.
  induction msgs as [|m msgs IH]; [reflexivity|].
  cbn [map messages_text concat_strings fold_right]. rewrite IH.
  unfold print_message, block_of, block, body_of, lay_message.
  cbn [lm_ws1 lm_name lm_ws2 lm_pad lm_fields lm_gap].
  rewrite lay_fields_text. rewrite !append_assoc. reflexivity.
Qed.

Lemma lay_message_well_laid (m : ProtoMessage) :
  printable m -> well_laid_message (lay_message m).
Proof.
  intros ([Nn Fn] & F). unfold well_laid_message, lay_message.
  cbn [lm_ws1 lm_name lm_ws2 lm_pad lm_fields lm_gap].
  repeat split; try assumption; try reflexivity.
  now apply lay_fields_well_laid.
Qed.

Lemma lay_message_message (m : ProtoMessage) : message_of (lay_message m) = m.
Proof.
  destruct m as [name fields]. unfold message_of, lay_message.
  cbn [lm_name lm_fields pm_Name pm_Fields]. now rewrite lay_fields_fields.
Qed.

(** The parser reads the printed text back. *)
Lemma parse_text_print (msgs : list ProtoMessage) :
  Forall printable msgs -> parse_text (print_proto msgs) = msgs.
Proof.
  intros F. unfold print_proto. rewrite <- lay_message_text.
  rewrite parse_text_laid_out.
  - rewrite map_map. rewrite <- (map_id msgs) at 2.
    apply map_ext. apply lay_message_message.
  - reflexivity.
  - apply Forall_map. eapply Forall_impl; [exact F|].
    intros m. apply lay_message_well_laid.
Qed.

(** X15. Printing and parsing again gives the messages back, and the
    generated files depend on nothing else.  For messages whose names,
    field names and field types are words, [ParseProto] on the printed
    text returns the messages themselves, with their fields in order and
    their repetition flags; and a run of [GenerateApp] on the printed text
    that succeeds leaves, in each of the six rendered files, the rendering
    of these messages. *)
Theorem ParseProto_print_round_trip (os : OS) (protoPath : string)
    (msgs : list ProtoMessage) :
  os_ReadFile os protoPath = inr (print_proto msgs) ->
  Forall printable msgs ->
  (forall w, fst (ParseProto os protoPath w) = inr msgs) /\
  (forall order dir w w',
      order ≡ₚ files ->
      GenerateApp os order protoPath dir w = (None, w') ->
      Forall (fun r =>
                disk w' !! Join [dir; fst (fst r)] =
                Some (snd r (template_data dir msgs)))
             rendered_files).
Proof.
  intros R F. split.
  - intros w. rewrite (ParseProto_loaded _ _ _ _ R).
    now rewrite (parse_text_print msgs F).
  - intros order dir w w' P G.
    rewrite <- (parse_text_print msgs F).
    eapply GenerateApp_rendered; eassumption.
Qed.

(** ** Every file that is created is closed *)

Lemma handles_closed_app (a b : list event) :
  handles_closed a -> handles_closed b -> handles_closed (a ++ b).
Proof.
  induction a as [|ev a IH]; simpl; intros Ha Hb; [exact Hb|].
  destruct Ha as [Hev Ha]. split; [|now apply IH].
  intros Ho He. destruct (Hev Ho He) as (r & c & rest' & ->).
  now exists r, c, (rest' ++ b).
Qed.

Lemma opened_app (a b : list event) : opened (a ++ b) = opened a ++ opened b.
Proof. unfold opened. now rewrite List.filter_app, map_app. Qed.

Lemma closed_app (a b : list event) : closed (a ++ b) = closed a ++ closed b.
Proof. unfold closed. now rewrite List.filter_app, map_app. Qed.

Lemma renderToFile_handles (os : OS) (content : string) (data : TemplateData)
    (path : string) (w : world) :
  exists evs,
    trace (snd (renderToFile os content data path w)) = trace w ++ evs /\
    handles_closed evs /\ opened evs = closed evs.
Proof.
  unfold renderToFile.
  destruct (template_Parse content) as [e|tmpl].
  { exists [Event OpParse path (Some e)]. split; [reflexivity|].
    split; [|reflexivity]. split; [discriminate | exact I]. }
  destruct (os_Create os path) as [e|].
  { exists [Event OpParse path None; Event OpCreate path (Some e)].
    split; [simpl; now rewrite <- app_assoc|].
    split; [|reflexivity].
    split; [discriminate|]. split; [discriminate | exact I]. }
  destruct (Execute os tmpl path (value_of_data data)) as [written result].
  exists [Event OpParse path None; Event OpCreate path None;
          Event OpExecute path result; Event OpClose path (file_Close os path)].
  split; [simpl; now rewrite <- !app_assoc|].
  split; [|reflexivity].
  split; [discriminate|]. split.
  - intros _ _. now exists result, (file_Close os path), [].
  - split; [discriminate|]. split; [discriminate | exact I].
Qed.

Lemma render_files_handles (os : OS) (data : TemplateData) (dir : string)
    (order : list (string * string)) :
  forall w,
  exists evs,
    trace (snd (render_files os data dir order w)) = trace w ++ evs /\
    handles_closed evs /\ opened evs = closed evs.
Proof.
  induction order as [|[name tmpl] order IH]; intros w; simpl.
  - exists []. split; [now rewrite app_nil_r|]. now split.
  - destruct (renderToFile_handles os tmpl data (Join [dir; name]) w)
      as (evs1 & T1 & H1 & O1).
    destruct (renderToFile os tmpl data (Join [dir; name]) w) as [[err|] w1];
      simpl in T1.
    + exists evs1. now split.
    + destruct (IH w1) as (evs2 & T2 & H2 & O2).
      exists (evs1 ++ evs2). split; [now rewrite T2, T1, app_assoc|]. split.
      * now apply handles_closed_app.
      * now rewrite opened_app, closed_app, O1, O2.
Qed.

Lemma quiet_handles (evs : list event) :
  Forall (fun ev => ev_op ev <> OpCreate /\ ev_op ev <> OpClose) evs ->
  handles_closed evs /\ opened evs = [] /\ closed evs = [].
Proof.
  induction 1 as [|ev evs [H1 H2] F (IH1 & IH2 & IH3)]; [now repeat split|].
  split; [|split].
  - split; [intros Ho; contradiction | exact IH1].
  - unfold opened in *. simpl. destruct (ev_op ev); try contradiction; exact IH2.
  - unfold closed in *. simpl. destruct (ev_op ev); try contradiction; exact IH3.
Qed.

(** X16. Every file that a run creates is closed, whether or not the
    execution of its template succeeds: in the operations of a run, the
    creation of a file is followed at once by the execution into it and by
    its closing, and the files closed are the files created, in the same
    order. *)
Theorem created_files_are_closed (os : OS) (order : list (string * string))
    (protoPath dir : string) (w : world) :
  exists evs,
    trace (snd (GenerateApp os order protoPath dir w)) = trace w ++ evs /\
    handles_closed evs /\
    opened evs = closed evs.
Proof.
  destruct (GenerateApp_cases os order protoPath dir w)
    as [(e & R & G)|[(t & e & R & M & G)|(t & R & M & G)]]; rewrite G.
  - exists [Event OpReadFile protoPath (Some e)]. split; [reflexivity|].
    split; [|reflexivity]. split; [discriminate | exact I].
  - exists [Event OpReadFile protoPath None;
            Event OpMkdirAll (Join [dir; "migrations"]) (Some e)].
    split; [simpl; now rewrite <- app_assoc|].
    split; [|reflexivity].
    split; [discriminate|]. split; [discriminate | exact I].
  - set (w2 := log OpMkdirAll _ None _).
    destruct (static_files_trace os dir w2) as (evs1 & T1 & F1).
    destruct (render_files_handles os (template_data dir (parse_text t)) dir order
                (static_files os dir w2)) as (evs2 & T2 & H2 & O2).
    assert (Q : Forall (fun ev => ev_op ev <> OpCreate /\ ev_op ev <> OpClose)
                  ([Event OpReadFile protoPath None;
                    Event OpMkdirAll (Join [dir; "migrations"]) None] ++ evs1)).
    { apply Forall_app. split.
      - repeat constructor; discriminate.
      - eapply Forall_impl; [exact F1|]. intros ev ->. split; discriminate. }
    destruct (quiet_handles _ Q) as (Hq & Oq & Cq).
    exists (([Event OpReadFile protoPath None;
              Event OpMkdirAll (Join [dir; "migrations"]) None] ++ evs1) ++ evs2).
    split.
    + rewrite T2, T1. unfold w2. simpl. now rewrite <- !app_assoc.
    + split.
      * now apply handles_closed_app.
      * now rewrite opened_app, closed_app, Oq, Cq, O2.
Qed.

(** ** Where the files go *)

(** [Join_simple_names] with the two prefixes it can give. *)
Lemma Join_simple_names_root (dir : string) :
  exists (pre : string) (elems : list string),
    (pre = EmptyString \/ pre = String Separator EmptyString) /\
    Forall (fun e => slash_free e = true) elems /\
    forall names,
      names <> [] -> Forall (fun n => simple_name n = true) names ->
      Join (dir :: names) = pre +:+ join_path (elems ++ names).
Proof.
  destruct dir as [|c dir].
  - exists EmptyString, []. split; [now left|]. split; [constructor|].
    intros names N F.
    destruct names as [|n rest]; [congruence|].
    pose proof F as F'. apply Forall_cons in F'. destruct F' as [Hn _].
    apply simple_name_spec in Hn. destruct Hn as (E & SF & _).
    change (Join (EmptyString :: n :: rest))
      with (if is_empty n then Join rest else Clean (join_path (n :: rest))).
    rewrite E. unfold Clean.
    assert (Fs : Forall (fun e => slash_free e = true) (n :: rest)).
    { eapply Forall_impl; [exact F|]. intros x Hx.
      now apply simple_name_spec in Hx. }
    destruct (join_path (n :: rest)) as [|c0 s0] eqn:Jn.
    { pose proof (join_path_nonempty [] (n :: rest) N F) as Hne.
      simpl app in Hne. rewrite Jn in Hne. discriminate. }
    assert (Hroot : is_sep c0 = false).
    { destruct n as [|c1 n1]; [discriminate|].
      unfold slash_free in SF. simpl in SF.
      apply andb_true_iff in SF. destruct SF as [SF _].
      apply negb_true_iff in SF.
      destruct rest; simpl in Jn; injection Jn as -> _; assumption. }
    rewrite Hroot, <- Jn, split_join_path by assumption.
    rewrite clean_fold_simple by assumption.
    rewrite app_nil_r, rev_involutive.
    pose proof (join_path_nonempty [] (n :: rest) N F) as Hne.
    simpl app in Hne. now rewrite Hne.
  - set (rooted := is_sep c).
    set (stack := fold_left (clean_step rooted) (split_path (String c dir)) []).
    exists (if rooted then String Separator EmptyString else EmptyString),
           (rev stack).
    split; [destruct rooted; [now right | now left]|].
    split.
    { apply Forall_rev. apply clean_fold_slash_free; [|constructor].
      apply split_path_parts. }
    intros names N F.
    assert (Fs : Forall (fun e => slash_free e = true) names).
    { eapply Forall_impl; [exact F|]. intros x Hx.
      now apply simple_name_spec in Hx. }
    change (Join (String c dir :: names))
      with (Clean (join_path (String c dir :: names))).
    unfold Clean.
    destruct names as [|n rest]; [congruence|].
    rewrite join_path_cons.
    change (String c dir +:+ String Separator (join_path (n :: rest)))
      with (String c (dir +:+ String Separator (join_path (n :: rest)))).
    cbv iota. fold rooted.
    change (String c (dir +:+ String Separator (join_path (n :: rest))))
      with (String c dir +:+ String Separator (join_path (n :: rest))).
    rewrite split_path_append, split_join_path by assumption.
    rewrite fold_left_app. fold stack.
    rewrite clean_fold_simple by assumption.
    rewrite rev_app_distr, rev_involutive.
    destruct rooted; [reflexivity|].
    now rewrite (join_path_nonempty (rev stack) (n :: rest) N F).
Qed.

Lemma join_path_app (l1 l2 : list string) :
  l1 <> [] -> l2 <> [] ->
  join_path (l1 ++ l2) = join_path l1 +:+ String Separator (join_path l2).
Proof.
  intros N1 N2. induction l1 as [|e l1 IH]; [congruence|].
  destruct l1 as [|e' l1].
  - simpl app. destruct l2 as [|x l2]; [congruence|]. apply join_path_cons.
  - change ((e :: e' :: l1) ++ l2) with (e :: e' :: (l1 ++ l2)).
    rewrite !join_path_cons.
    change (e' :: l1 ++ l2) with ((e' :: l1) ++ l2).
    rewrite IH by discriminate. now rewrite append_assoc.
Qed.

(** All the paths of a run start with one root, which is empty or ends
    with the separator. *)
Lemma Join_root (dir : string) :
  exists root,
    (root = EmptyString \/ exists r, root = r +:+ String Separator EmptyString) /\
    forall names,
      names <> [] -> Forall (fun n => simple_name n = true) names ->
      Join (dir :: names) = root +:+ join_path names.
Proof.
  destruct (Join_simple_names_root dir) as (pre & elems & Hpre & _ & J).
  destruct elems as [|e elems].
  - exists pre. split.
    + destruct Hpre as [->| ->]; [now left | right; now exists EmptyString].
    + intros names N F. now rewrite (J names N F).
  - exists ((pre +:+ join_path (e :: elems)) +:+ String Separator EmptyString).
    split; [right; now eexists|].
    intros names N F. rewrite (J names N F).
    rewrite join_path_app by (assumption || discriminate).
    now rewrite !append_assoc.
Qed.

Lemma take_while_app_stop (p : ascii -> bool) (a b : string) :
  forallb_string p a = true -> stops p b -> take_while p (a +:+ b) = a.
Proof.
  intros F S. induction a as [|c a IH]; simpl.
  - destruct b as [|c b]; [reflexivity|]. simpl in S. simpl. now rewrite S.
  - simpl in F. apply andb_true_iff in F. destruct F as [-> F]. now rewrite IH.
Qed.

Lemma forallb_string_negb_drop (p : ascii -> bool) (s : string) :
  is_empty s = false -> forallb_string (fun c => negb (p c)) s = true ->
  drop_while p s = s.
Proof.
  destruct s as [|c s]; [discriminate|]. simpl. intros _ F.
  apply andb_true_iff in F. destruct F as [F _].
  apply negb_true_iff in F. now rewrite F.
Qed.

(** The final segment of a name under a root is the name. *)
Lemma Base_under_root (root n : string) :
  (root = EmptyString \/ exists r, root = r +:+ String Separator EmptyString) ->
  simple_name n = true ->
  Base (root +:+ n) = n.
Proof.
  intros Hroot Hn. apply simple_name_spec in Hn. destruct Hn as (N & SF & _).
  unfold Base.
  assert (E : is_empty (root +:+ n) = false).
  { apply is_empty_length. rewrite append_length.
    apply is_empty_length in N. lia. }
  rewrite E, rev_string_app.
  assert (Fr : forallb_string (fun c => negb (is_sep c)) (rev_string n) = true)
    by (now rewrite forallb_string_rev).
  assert (Nr : is_empty (rev_string n) = false) by (now rewrite is_empty_rev).
  assert (D : drop_while is_sep (rev_string n +:+ rev_string root) =
              rev_string n +:+ rev_string root).
  { destruct (rev_string n) as [|c s]; [discriminate|]. simpl.
    simpl in Fr. apply andb_true_iff in Fr. destruct Fr as [Fc _].
    apply negb_true_iff in Fc. now rewrite Fc. }
  rewrite D, take_while_app_stop, rev_string_involutive, N; try assumption.
  - reflexivity.
  - destruct Hroot as [->|(r & ->)]; [exact I|].
    rewrite rev_string_app. reflexivity.
Qed.

(** The paths of the nine files and of the migrations directory under
    one root. *)
Lemma output_paths_root (dir : string) :
  exists root,
    (root = EmptyString \/ exists r, root = r +:+ String Separator EmptyString) /\
    Join [dir; "migrations"] = root +:+ "migrations" /\
    Join [dir; "migrations"; "__init__.py"] =
      Join [dir; "migrations"] +:+ String Separator "__init__.py" /\
    Base (Join [dir; "migrations"; "__init__.py"]) = "__init__.py" /\
    Forall (fun name =>
              Join [dir; name] = root +:+ name /\ Base (Join [dir; name]) = name)
           ("__init__.py" :: "tests.py" :: map fst files).
Proof.
  destruct (Join_root dir) as (root & Hroot & J).
  exists root. split; [exact Hroot|].
  assert (S : forall n, simple_name n = true ->
                Join [dir; n] = root +:+ n /\ Base (Join [dir; n]) = n).
  { intros n Hn.
    assert (E : Join [dir; n] = root +:+ n).
    { rewrite (J [n]); [reflexivity | discriminate | now repeat constructor]. }
    split; [exact E|]. rewrite E. now apply Base_under_root. }
  assert (E2 : Join [dir; "migrations"; "__init__.py"] =
               root +:+ "migrations" +:+ String Separator "__init__.py").
  { rewrite (J ["migrations"; "__init__.py"]);
      [reflexivity | discriminate | now repeat constructor]. }
  destruct (S "migrations" eq_refl) as [E1 _].
  split; [exact E1|]. split; [|split].
  - rewrite E2, E1. now rewrite append_assoc.
  - rewrite E2.
    replace (root +:+ "migrations" +:+ String Separator "__init__.py")
      with (((root +:+ "migrations") +:+ String Separator EmptyString)
            +:+ "__init__.py")
      by (now rewrite !append_assoc).
    apply Base_under_root; [right; now eexists | reflexivity].
  - repeat (apply Forall_cons_2; [now apply S|]). apply Forall_nil_2.
Qed.

Lemma renderToFile_paths (os : OS) (content : string) (data : TemplateData)
    (path : string) (w : world) :
  exists evs,
    trace (snd (renderToFile os content data path w)) = trace w ++ evs /\
    Forall (fun ev => ev_op ev <> OpMkdirAll /\ ev_path ev = path) evs.
Proof.
  unfold renderToFile.
  destruct (template_Parse content) as [e|tmpl].
  { eexists. split; [reflexivity|]. now repeat constructor. }
  destruct (os_Create os path) as [e|].
  { exists [Event OpParse path None; Event OpCreate path (Some e)].
    split; [simpl; now rewrite <- app_assoc|]. now repeat constructor. }
  destruct (Execute os tmpl path (value_of_data data)) as [written result].
  exists [Event OpParse path None; Event OpCreate path None;
          Event OpExecute path result; Event OpClose path (file_Close os path)].
  split; [simpl; now rewrite <- !app_assoc|]. now repeat constructor.
Qed.

Lemma render_files_paths (os : OS) (data : TemplateData) (dir : string)
    (order : list (string * string)) :
  forall w,
  exists evs,
    trace (snd (render_files os data dir order w)) = trace w ++ evs /\
    Forall (fun ev => ev_op ev <> OpMkdirAll /\
                      exists name,
                        In name (map fst order) /\
                        ev_path ev = Join [dir; name]) evs.
Proof.
  induction order as [|[name tmpl] order IH]; intros w; simpl.
  - exists []. split; [now rewrite app_nil_r | constructor].
  - destruct (renderToFile_paths os tmpl data (Join [dir; name]) w)
      as (evs1 & T1 & F1).
    assert (F1' : Forall (fun ev => ev_op ev <> OpMkdirAll /\
                     exists n,
                       In n (name :: map fst order) /\
                       ev_path ev = Join [dir; n])
                    evs1).
    { eapply Forall_impl; [exact F1|]. intros ev [O E].
      split; [exact O|]. exists name. split; [now left | exact E]. }
    destruct (renderToFile os tmpl data (Join [dir; name]) w) as [[err|] w1];
      simpl in T1.
    + exists evs1. now split.
    + destruct (IH w1) as (evs2 & T2 & F2).
      exists (evs1 ++ evs2). split; [now rewrite T2, T1, app_assoc|].
      apply Forall_app. split; [exact F1'|].
      eapply Forall_impl; [exact F2|]. intros ev (O & n & Hn & E).
      split; [exact O|]. exists n. split; [now right | exact E].
Qed.

Lemma after_two {A : Type} (a b : A) (rest pre : list A) (x : A)
    (post : list A) :
  a :: b :: rest = pre ++ x :: post ->
  x = a \/ x = b \/ (In b pre /\ In x rest).
Proof.
  destruct pre as [|a' [|b' pre]]; simpl; intros E.
  - left. congruence.
  - right. left. congruence.
  - right. right. injection E as -> -> ->. split; [right; now left|].
    apply in_elt.
Qed.

(** X17. The files are written where the directory was made.  In the
    operations of a run there is a root, empty or ending with the
    separator, under which the migrations directory lies, such that
    [MkdirAll] is only called on [root/migrations]; and every later
    operation (writing a static file, parsing for, creating, executing
    into or closing a rendered file) comes after the successful
    [MkdirAll] on that path and is on [root/migrations/__init__.py] or on
    [root] followed by the name of one of the eight other files, which is
    also the final segment of the path. *)
Theorem outputs_under_created_directory (os : OS)
    (order : list (string * string)) (protoPath dir : string) (w : world) :
  order ≡ₚ files ->
  exists root evs,
    (root = EmptyString \/ exists r, root = r +:+ String Separator EmptyString) /\
    Join [dir; "migrations"] = root +:+ "migrations" /\
    trace (snd (GenerateApp os order protoPath dir w)) = trace w ++ evs /\
    forall pre ev post,
      evs = pre ++ ev :: post ->
      (ev_op ev = OpMkdirAll -> ev_path ev = root +:+ "migrations") /\
      (ev_op ev <> OpReadFile -> ev_op ev <> OpMkdirAll ->
       In (Event OpMkdirAll (root +:+ "migrations") None) pre /\
       ((ev_op ev = OpWriteFile /\
         ev_path ev = (root +:+ "migrations") +:+ String Separator "__init__.py" /\
         Base (ev_path ev) = "__init__.py") \/
        exists name,
          In name ("__init__.py" :: "tests.py" :: map fst files) /\
          ev_path ev = root +:+ name /\
          Base (ev_path ev) = name)).
Proof.
  intros P.
  destruct (output_paths_root dir) as (root & Hroot & E1 & E2 & B2 & F).
  exists root.
  assert (N : forall name,
             In name ("__init__.py" :: "tests.py" :: map fst files) ->
             Join [dir; name] = root +:+ name /\
             Base (Join [dir; name]) = name).
  { intros name Hn. rewrite Forall_forall in F. apply F.
    now apply list_elem_of_In. }
  destruct (GenerateApp_cases os order protoPath dir w)
    as [(e & _ & G) | [(text & e & _ & _ & G) | (text & _ & _ & G)]];
    rewrite G; clear G.
  - exists [Event OpReadFile protoPath (Some e)].
    split; [exact Hroot|]. split; [exact E1|]. split; [reflexivity|].
    intros [|a pre] ev post E; [|destruct pre; discriminate].
    injection E as <- _. split; [discriminate | now intros []].
  - exists [Event OpReadFile protoPath None;
            Event OpMkdirAll (Join [dir; "migrations"]) (Some e)].
    split; [exact Hroot|]. split; [exact E1|].
    split; [simpl; now rewrite <- app_assoc|].
    intros pre ev post E.
    destruct (after_two _ _ _ _ _ _ E) as [-> | [-> | [_ []]]].
    + split; [discriminate | now intros []].
    + split; [intros _; exact E1 | now intros _ []].
  - set (w0 := log OpMkdirAll (Join [dir; "migrations"]) None
                 (log OpReadFile protoPath None w)).
    destruct (render_files_paths os (template_data dir (parse_text text)) dir
                order (static_files os dir w0)) as (evs & T & Fr).
    exists (Event OpReadFile protoPath None ::
            Event OpMkdirAll (Join [dir; "migrations"]) None ::
            [Event OpWriteFile (Join [dir; "migrations"; "__init__.py"])
               (os_WriteFile os (Join [dir; "migrations"; "__init__.py"]));
             Event OpWriteFile (Join [dir; "__init__.py"])
               (os_WriteFile os (Join [dir; "__init__.py"]));
             Event OpWriteFile (Join [dir; "tests.py"])
               (os_WriteFile os (Join [dir; "tests.py"]))] ++ evs).
    split; [exact Hroot|]. split; [exact E1|]. split.
    { rewrite T. unfold static_files. rewrite !writeFile_trace.
      unfold w0. rewrite !trace_log, <- !app_assoc. reflexivity. }
    intros pre ev post E.
    destruct (after_two _ _ _ _ _ _ E) as [-> | [-> | [Hpre Hev]]].
    + split; [discriminate | now intros []].
    + split; [intros _; exact E1 | now intros _ []].
    + rewrite E1 in Hpre.
      assert (Q : ev_op ev <> OpMkdirAll /\
                  ((ev_op ev = OpWriteFile /\
                    ev_path ev = (root +:+ "migrations") +:+
                                 String Separator "__init__.py" /\
                    Base (ev_path ev) = "__init__.py") \/
                   exists name,
                     In name ("__init__.py" :: "tests.py" :: map fst files) /\
                     ev_path ev = root +:+ name /\
                     Base (ev_path ev) = name)).
      { apply in_app_or in Hev. destruct Hev as [Hev | Hev].
        - destruct Hev as [<- | [<- | [<- | []]]]; (split; [discriminate|]).
          + left. split; [reflexivity|]. cbn [ev_path].
            split; [now rewrite E2, E1 | exact B2].
          + right. exists "__init__.py". split; [now left|].
            apply N. now left.
          + right. exists "tests.py". split; [right; now left|].
            apply N. right. now left.
        - rewrite Forall_forall in Fr.
          destruct (Fr ev (proj2 (list_elem_of_In _ _) Hev))
            as (O & name & Hn & Ep).
          assert (Hn' : In name (map fst files)).
          { eapply Permutation_in; [|exact Hn]. now apply Permutation_map. }
          split.
          + exact O.
          + right. exists name. split; [right; now right|].
            rewrite Ep. apply N. right. now right. }
      destruct Q as [Q1 Q2]. split; [intros O; contradiction|].
      intros _ _. split; [exact Hpre | exact Q2].
Qed.

End Program.

(** * Worked instances

    Each theorem above that has premises is applied here to a concrete
    run; the Unicode library functions are instantiated with the
    identity, which the sample inputs (all ASCII) never reach. *)

(** A run whose result is no error, as a pair. *)
Lemma run_succeeded (run : option error * world) :
  fst run = None -> run = (None, snd run).
Proof. destruct run as [r w]. simpl. now intros ->. Defined.

Lemma PythonType_total_and_tabulated_witness :
  ~ In "Author" scalar_types /\
  PythonType "Author" = "models.ForeignKey(Author, on_delete=models.CASCADE)".
Proof.
  assert (H : ~ In "Author" scalar_types)
    by (simpl; intros H; repeat (destruct H as [H|H]; [discriminate|]); exact H).
  split; [exact H|].
  exact (proj2 (proj2 (proj2 (proj2 (proj2 (proj2 (proj2
           PythonType_total_and_tabulated)))))) "Author" H).
Defined.

Lemma GenerateApp_without_messages_witness :
  exists w',
    GenerateApp id id id id (sound_os EmptyString) files
                "schema.proto" "out/accounts" empty_world = (None, w') /\
    disk w' !! "out/accounts/models.py" =
      Some ("from django.db import models" +:+ nl).
Proof.
  destruct (GenerateApp_without_messages id id id id (sound_os EmptyString)
              files "schema.proto" "out/accounts" EmptyString empty_world)
    as (w' & G & _ & _ & _ & M & _).
  - repeat split.
  - reflexivity.
  - reflexivity.
  - vm_compute. reflexivity.
  - exists w'. split; [exact G|]. exact M.
Defined.

Lemma order_preserved_witness :
  files ≡ₚ files /\
  os_ReadFile (sound_os user_proto) "schema.proto" = inr user_proto /\
  fst (GenerateApp id id id id (sound_os user_proto) files
                   "schema.proto" "out/accounts" empty_world) = None /\
  disk (snd (GenerateApp id id id id (sound_os user_proto) files
                          "schema.proto" "out/accounts" empty_world))
    !! "out/accounts/models.py" =
  Some ("from django.db import models" +:+ nl +:+
        "class User(models.Model):" +:+ nl +:+
        "    name = models.CharField(max_length=255)" +:+ nl +:+
        "    age = models.IntegerField()" +:+ nl +:+ nl).
Proof.
  assert (P : files ≡ₚ files) by reflexivity.
  assert (R : os_ReadFile (sound_os user_proto) "schema.proto" = inr user_proto)
    by reflexivity.
  assert (G : fst (GenerateApp id id id id (sound_os user_proto) files
                     "schema.proto" "out/accounts" empty_world) = None)
    by (vm_compute; reflexivity).
  split; [exact P|]. split; [exact R|]. split; [exact G|].
  pose proof (proj2 (proj2 (proj2 (order_preserved id id id id user_proto)))
                _ _ _ _ _ _ P R (run_succeeded _ G)) as H.
  etransitivity; [exact H|]. vm_compute. reflexivity.
Defined.

(** The claim of C3 as it is written fails: [os.WriteFile] fails on every
    static file, [writeFile] drops the three errors, and the run ends
    without an error. *)
Lemma write_errors_dropped :
  fst (GenerateApp id id id id (readonly_markers_os user_proto) files
                   "schema.proto" "out/accounts" empty_world) = None /\
  In (Event OpWriteFile "out/accounts/tests.py" (Some (Errno "permission denied")))
     (trace (snd (GenerateApp id id id id (readonly_markers_os user_proto)
                              files "schema.proto" "out/accounts"
                              empty_world))) /\
  disk (snd (GenerateApp id id id id (readonly_markers_os user_proto)
                          files "schema.proto" "out/accounts" empty_world))
    !! "out/accounts/tests.py" = None.
Proof. vm_compute. repeat split; auto 10. Qed.

Lemma stage_failures_terminal_and_reported_witness :
  exists name,
    fst (GenerateApp id id id id (full_disk_os user_proto) files
                     "schema.proto" "out/accounts" empty_world)
    = Some (report OpCreate name (Errno "no space left on device")).
Proof.
  destruct (stage_failures_terminal_and_reported id id id id
              (full_disk_os user_proto) files "schema.proto" "out/accounts"
              empty_world) as (evs & T & H & _).
  change (trace empty_world ++ evs) with evs in T. subst evs.
  destruct (H [Event OpReadFile "schema.proto" None;
               Event OpMkdirAll "out/accounts/migrations" None;
               Event OpWriteFile "out/accounts/migrations/__init__.py" None;
               Event OpWriteFile "out/accounts/__init__.py" None;
               Event OpWriteFile "out/accounts/tests.py" None;
               Event OpParse "out/accounts/models.py" None]
              (Event OpCreate "out/accounts/models.py"
                     (Some (Errno "no space left on device")))
              [] (Errno "no space left on device"))
    as (_ & name & R & _).
  - vm_compute. reflexivity.
  - reflexivity.
  - reflexivity.
  - exists name. exact R.
Defined.

Lemma ParseProto_fails_only_on_read_witness :
  os_ReadFile (sound_os user_proto) "schema.proto" = inr user_proto /\
  fst (ParseProto id id (sound_os user_proto) "schema.proto" empty_world)
  = inr [user_message].
Proof.
  assert (R : os_ReadFile (sound_os user_proto) "schema.proto" = inr user_proto)
    by reflexivity.
  split; [exact R|].
  destruct (proj2 (proj2 (ParseProto_fails_only_on_read id id
                            (sound_os user_proto) "schema.proto" empty_world))
              user_proto R) as (H & _).
  etransitivity; [exact H|]. vm_compute. reflexivity.
Defined.

Lemma repeated_flag_not_rendered_witness :
  forget_repeated (post_data true) = forget_repeated (post_data false) /\
  Forall (fun nt =>
            exists tree s,
              template_Parse (snd nt) = inr tree /\
              renders id tree (value_of_data (post_data true)) s /\
              renders id tree (value_of_data (post_data false)) s)
         files.
Proof.
  assert (E : forget_repeated (post_data true) = forget_repeated (post_data false))
    by reflexivity.
  split; [exact E|].
  exact (proj1 (proj2 (repeated_flag_not_rendered id id id)) _ _ E).
Defined.

Lemma empty_message_renders_pass_witness :
  exists c,
    disk (snd (GenerateApp id id id id (sound_os empty_proto) files
                            "schema.proto" "out/accounts" empty_world))
      !! "out/accounts/models.py" = Some c /\
    contains c (nl +:+ "class Empty(models.Model):" +:+ nl +:+ "    pass" +:+ nl).
Proof.
  destruct (empty_message_renders_pass id id id id (sound_os empty_proto)
              files "schema.proto" "out/accounts" empty_proto empty_world
              (snd (GenerateApp id id id id (sound_os empty_proto) files
                                "schema.proto" "out/accounts" empty_world))
              ["message Empty {}"; "Empty"; EmptyString])
    as (_ & _ & _ & _ & c & F & C).
  - reflexivity.
  - reflexivity.
  - apply run_succeeded. vm_compute. reflexivity.
  - vm_compute. left. reflexivity.
  - vm_compute. reflexivity.
  - exists c. split; [exact F | exact C].
Defined.

Lemma GenerateApp_per_message_artifacts_witness :
  exists c,
    disk (snd (GenerateApp id id id id (sound_os user_proto) files
                            "schema.proto" "out/accounts" empty_world))
      !! "out/accounts/urls.py" = Some c /\
    contains c (nl +:+ "router.register(r'user', UserViewSet)" +:+ nl).
Proof.
  destruct (GenerateApp_per_message_artifacts id id id id (sound_os user_proto)
              files "schema.proto" "out/accounts" user_proto empty_world
              (snd (GenerateApp id id id id (sound_os user_proto) files
                                "schema.proto" "out/accounts" empty_world))
              user_message)
    as (_ & _ & _ & _ & (c & F & C) & _).
  - reflexivity.
  - reflexivity.
  - apply run_succeeded. vm_compute. reflexivity.
  - vm_compute. left. reflexivity.
  - exists c. split; [exact F | exact C].
Defined.

Lemma template_data_names_witness :
  forallb_string is_sep "out/accounts" = false /\
  final_segment "out/accounts" (AppName (template_data id "out/accounts" [])) /\
  AppName (template_data id "out/accounts" []) = "accounts".
Proof.
  assert (H : forallb_string is_sep "out/accounts" = false) by reflexivity.
  split; [exact H|]. split; [|reflexivity].
  exact (proj1 (proj2 (proj2 (proj2
           (template_data_names id id id id "out/accounts" [])))) H).
Defined.



(** The parser does not depend on how the Unicode fall-backs of
    [strings.TrimSpace] are instantiated. *)
Lemma parse_text_independent (f g f' g' : string -> string) (text : string) :
  parse_text f g text = parse_text f' g' text.
Proof. now rewrite !parse_text_groups. Qed.

(** * Worked instances of the further properties *)

Lemma GenerateApp_footprint_witness :
  files ≡ₚ files /\
  forall p, p ∉ output_paths "out/accounts" ->
    disk (snd (GenerateApp id id id id (sound_os user_proto) files
                 "schema.proto" "out/accounts" empty_world)) !! p = None.
Proof.
  assert (P : files ≡ₚ files) by reflexivity.
  split; [exact P|]. intros p Hp.
  exact (proj1 (GenerateApp_footprint id id id id (sound_os user_proto) files
                  "schema.proto" "out/accounts" empty_world P) p Hp).
Defined.

Lemma GenerateApp_succeeds_iff_witness :
  files ≡ₚ files /\
  fst (GenerateApp id id id id (sound_os user_proto) files
         "schema.proto" "out/accounts" empty_world) = None.
Proof.
  assert (P : files ≡ₚ files) by reflexivity.
  split; [exact P|].
  apply (GenerateApp_succeeds_iff id id id id (sound_os user_proto) files
           "schema.proto" "out/accounts" empty_world P).
  split; [now exists user_proto|]. split; [reflexivity|].
  repeat constructor.
Defined.

Lemma GenerateApp_error_message_witness :
  files ≡ₚ files /\
  fst (GenerateApp id id id id (no_urls_os user_proto) files
         "schema.proto" "out/accounts" empty_world) =
    Some (Errorf "failed to render urls.py: "
            (Errorf "failed to create file: " (Errno "permission denied"))) /\
  has_prefix "failed to "
    "failed to render urls.py: failed to create file: permission denied".
Proof.
  assert (P : files ≡ₚ files) by reflexivity.
  assert (G : fst (GenerateApp id id id id (no_urls_os user_proto) files
                     "schema.proto" "out/accounts" empty_world) =
              Some (Errorf "failed to render urls.py: "
                      (Errorf "failed to create file: " (Errno "permission denied"))))
    by (vm_compute; reflexivity).
  split; [exact P|]. split; [exact G|].
  exact (proj1 (GenerateApp_error_message id id id id (no_urls_os user_proto) files
                  "schema.proto" "out/accounts" empty_world _ P G)).
Defined.


Lemma PythonType_separates_witness :
  ~ In "Author" scalar_types /\
  PythonType "Author" = PythonType "Author" /\
  (In "double" scalar_types <-> In (PythonType "double") scalar_declarations).
Proof.
  assert (H : ~ In "Author" scalar_types)
    by (simpl; intros H; repeat (destruct H as [H|H]; [discriminate|]); exact H).
  split; [exact H|]. split.
  - exact (f_equal PythonType
             (proj2 PythonType_separates "Author" "Author" H eq_refl)).
  - exact (proj1 PythonType_separates "double").
Defined.

Lemma main_without_proto_flag_witness :
  Forall (fun a => mentions_proto a = false) ["schema.proto"; "-out"; "app"] /\
  snd (main id id id id (sound_os user_proto) files
         ["schema.proto"; "-out"; "app"] empty_world) = empty_world.
Proof.
  assert (F : Forall (fun a => mentions_proto a = false)
                ["schema.proto"; "-out"; "app"]) by (repeat constructor).
  split; [exact F|].
  exact (proj1 (main_without_proto_flag id id id id (sound_os user_proto) files
                  ["schema.proto"; "-out"; "app"] empty_world F)).
Defined.


Lemma ParseProto_reads_well_formed_text_witness :
  fst (ParseProto id id
         (sound_os (("// schema" +:+ nl) +:+ messages_text sample_layout))
         "schema.proto" empty_world) =
  inr [ {| pm_Name := "User";
           pm_Fields :=
             [ {| pf_Name := "name"; pf_Type := "string"; pf_Repeated := false |};
               {| pf_Name := "ids"; pf_Type := "int32"; pf_Repeated := true |} ] |};
        {| pm_Name := "Empty"; pm_Fields := [] |} ].
Proof.
  apply (ParseProto_reads_well_formed_text id id
           (sound_os (("// schema" +:+ nl) +:+ messages_text sample_layout))
           "schema.proto" empty_world ("// schema" +:+ nl) sample_layout).
  - reflexivity.
  - reflexivity.
  - unfold sample_layout.
    repeat (apply Forall_cons_2 || apply Forall_nil_2 || split
            || reflexivity || discriminate).
Defined.

Lemma well_formed_block_found_witness :
  well_formed_block " " "A" " " EmptyString /\
  ((exists m,
       In m (FindAllStringSubmatchIndex messageRe "x message A {} y") /\
       span_of m = (2, 2 + String.length (block " " "A" " " EmptyString)) /\
       In {| pm_Name := "A";
             pm_Fields := map (field_of_match id id)
                              (FindAllStringSubmatch fieldRe EmptyString) |}
          (parse_text id id "x message A {} y")) \/
   (exists m a b,
       In m (FindAllStringSubmatchIndex messageRe "x message A {} y") /\
       span_of m = (a, b) /\ a < 2 < b)).
Proof.
  assert (W : well_formed_block " " "A" " " EmptyString) by (repeat split).
  split; [exact W|].
  exact (well_formed_block_found id id "x message A {} y" "x " " " "A" " "
           EmptyString " y" eq_refl W).
Defined.

Lemma well_formed_declaration_found_witness :
  well_formed_declaration "string" " " "name" " " " " "1" /\
  (In {| pf_Name := "name"; pf_Type := "string"; pf_Repeated := false |}
      (map (field_of_match id id)
           (FindAllStringSubmatch fieldRe " string name = 1; ")) \/
   (exists d a b,
       In d (FindAllStringSubmatchIndex fieldRe " string name = 1; ") /\
       span_of d = (a, b) /\ a < 1 < b)).
Proof.
  assert (W : well_formed_declaration "string" " " "name" " " " " "1")
    by (repeat split).
  split; [exact W|].
  exact (well_formed_declaration_found id id " string name = 1; " " " EmptyString
           "string" " " "name" " " " " "1" "; " false eq_refl eq_refl W eq_refl).
Defined.

Lemma ParseProto_print_round_trip_witness :
  Forall printable [user_message] /\
  fst (ParseProto id id (sound_os (print_proto [user_message]))
         "schema.proto" empty_world) = inr [user_message].
Proof.
  assert (F : Forall printable [user_message]).
  { repeat (apply Forall_cons_2 || apply Forall_nil_2 || split || reflexivity). }
  split; [exact F|].
  exact (proj1 (ParseProto_print_round_trip id id id id
                  (sound_os (print_proto [user_message])) "schema.proto"
                  [user_message] eq_refl F) empty_world).
Defined.

Lemma outputs_under_created_directory_witness :
  rev files ≡ₚ files /\
  exists root evs,
    (root = EmptyString \/ exists r, root = r +:+ String Separator EmptyString) /\
    Join ["out/accounts"; "migrations"] = root +:+ "migrations" /\
    trace (snd (GenerateApp id id id id (sound_os user_proto) (rev files)
                  "schema.proto" "out/accounts" empty_world)) =
      trace empty_world ++ evs /\
    forall pre ev post,
      evs = pre ++ ev :: post ->
      (ev_op ev = OpMkdirAll -> ev_path ev = root +:+ "migrations") /\
      (ev_op ev <> OpReadFile -> ev_op ev <> OpMkdirAll ->
       In (Event OpMkdirAll (root +:+ "migrations") None) pre /\
       ((ev_op ev = OpWriteFile /\
         ev_path ev = (root +:+ "migrations") +:+ String Separator "__init__.py" /\
         Base (ev_path ev) = "__init__.py") \/
        exists name,
          In name ("__init__.py" :: "tests.py" :: map fst files) /\
          ev_path ev = root +:+ name /\
          Base (ev_path ev) = name)).
Proof.
  assert (P : rev files ≡ₚ files) by (symmetry; apply Permutation_rev).
  split; [exact P|].
  exact (outputs_under_created_directory id id id id (sound_os user_proto)
           (rev files) "schema.proto" "out/accounts" empty_world P).
Defined.
